(** * mnamer-ts: filename parser, filename generator and move executor

    A shallow embedding of [parser.ts], [renamer.ts] and [types.ts].

    Data model.  A JavaScript string is a list of 8-bit characters; the
    embedding is exact on ASCII text (whitespace, digits, line terminators
    and case mapping are the ASCII ones).  A JavaScript number is an integer
    or NaN.  Regular expressions are abstract syntax trees run by a
    backtracking matcher with the priorities of the ECMAScript matcher.
    Filesystem calls are the operations of a small free monad, interpreted
    against an arbitrary environment. *)

From Stdlib Require Import String Ascii List ZArith Lia Bool Arith.
Import ListNotations.

(** ** Strings and characters *)

Definition jsstring := list ascii.

Definition str (s : string) : jsstring := list_ascii_of_string s.

Definition char_code (c : ascii) : N := N_of_ascii c.

Definition chr_eqb (a b : ascii) : bool := Ascii.eqb a b.

Fixpoint str_eqb (a b : jsstring) : bool :=
  match a, b with
  | [], [] => true
  | x :: a', y :: b' => chr_eqb x y && str_eqb a' b'
  | _, _ => false
  end.

(** [\d] *)
Definition is_digit (c : ascii) : bool :=
  (48 <=? char_code c)%N && (char_code c <=? 57)%N.

(** [[. _\-]] *)
Definition is_sep (c : ascii) : bool :=
  chr_eqb c "." || chr_eqb c " " || chr_eqb c "_" || chr_eqb c "-".

(** [.] without the [s] flag: anything but a line terminator. *)
Definition is_any (c : ascii) : bool :=
  negb ((char_code c =? 10)%N || (char_code c =? 13)%N).

(** [\s], also the characters removed by [String.prototype.trim]. *)
Definition is_space (c : ascii) : bool :=
  ((9 <=? char_code c)%N && (char_code c <=? 13)%N) || (char_code c =? 32)%N.

Definition is_slash (c : ascii) : bool := chr_eqb c "/".
Definition is_dot (c : ascii) : bool := chr_eqb c ".".

(** [c.toUpperCase()] for a single character. *)
Definition toUpperCase (c : ascii) : ascii :=
  if ((97 <=? char_code c)%N && (char_code c <=? 122)%N)
  then ascii_of_N (char_code c - 32)
  else c.

(** [s.slice(a, b)] for [0 <= a]. *)
Definition slice (s : jsstring) (a b : Z) : jsstring :=
  firstn (Z.to_nat (b - a)) (skipn (Z.to_nat a) s).

(** [s.startsWith(p)] *)
Fixpoint startsWith (p s : jsstring) : bool :=
  match p, s with
  | [], _ => true
  | x :: p', y :: s' => chr_eqb x y && startsWith p' s'
  | _ :: _, [] => false
  end.

Definition len (s : jsstring) : Z := Z.of_nat (length s).

(** [s.split(c)] for a one-character separator. *)
Fixpoint split (c : ascii) (s : jsstring) : list jsstring :=
  match s with
  | [] => [[]]
  | x :: s' =>
    if chr_eqb x c then [] :: split c s'
    else match split c s' with
         | w :: ws => (x :: w) :: ws
         | [] => [[x]]
         end
  end.

(** [ws.join(c)] *)
Fixpoint join (c : ascii) (ws : list jsstring) : jsstring :=
  match ws with
  | [] => []
  | [w] => w
  | w :: ws' => w ++ c :: join c ws'
  end.

(** ** Node's [path] module (POSIX flavour)

    [extname] and [basename] scan the path from its last character to its
    first, as Node does; the scans below take the reversed path and the
    index [i] of its head. *)

Module Path.

Open Scope Z_scope.

(** The loop of [path.extname]; the result is
    [(startDot, startPart, end, preDotState)]. *)
Fixpoint extname_scan (rpath : jsstring) (i startDot end_ : Z)
         (matchedSlash : bool) (preDotState : Z) : Z * Z * Z * Z :=
  match rpath with
  | [] => (startDot, 0, end_, preDotState)
  | c :: rest =>
    if is_slash c then
      if negb matchedSlash then (startDot, i + 1, end_, preDotState)
      else extname_scan rest (i - 1) startDot end_ matchedSlash preDotState
    else
      let matchedSlash' := if end_ =? -1 then false else matchedSlash in
      let end' := if end_ =? -1 then i + 1 else end_ in
      if is_dot c then
        if startDot =? -1
        then extname_scan rest (i - 1) i end' matchedSlash' preDotState
        else extname_scan rest (i - 1) startDot end' matchedSlash'
                          (if negb (preDotState =? 1) then 1 else preDotState)
      else
        extname_scan rest (i - 1) startDot end' matchedSlash'
                     (if negb (startDot =? -1) then -1 else preDotState)
  end.

Definition extname (path : jsstring) : jsstring :=
  let '(startDot, startPart, end_, preDotState) :=
    extname_scan (rev path) (len path - 1) (-1) (-1) true 0 in
  if (startDot =? -1) || (end_ =? -1) || (preDotState =? 0)
     || ((preDotState =? 1) && (startDot =? end_ - 1)
         && (startDot =? startPart + 1))
  then []
  else slice path startDot end_.

(** The loop of [path.basename(path, suffix)].  [rsuf] is the part of the
    suffix still to be matched, reversed: it is empty when Node's [extIdx]
    is [-1].  The result is [(start, end, firstNonSlashEnd)]. *)
Fixpoint basename_suffix_scan (rpath : jsstring) (i : Z) (rsuf : jsstring)
         (end_ firstNonSlashEnd : Z) (matchedSlash : bool) : Z * Z * Z :=
  match rpath with
  | [] => (0, end_, firstNonSlashEnd)
  | c :: rest =>
    if is_slash c then
      if negb matchedSlash then (i + 1, end_, firstNonSlashEnd)
      else basename_suffix_scan rest (i - 1) rsuf end_ firstNonSlashEnd
                                matchedSlash
    else
      let matchedSlash' :=
        if firstNonSlashEnd =? -1 then false else matchedSlash in
      let fnse := if firstNonSlashEnd =? -1 then i + 1
                  else firstNonSlashEnd in
      match rsuf with
      | [] => basename_suffix_scan rest (i - 1) [] end_ fnse matchedSlash'
      | x :: rsuf' =>
        if chr_eqb c x then
          match rsuf' with
          | [] => basename_suffix_scan rest (i - 1) [] i fnse matchedSlash'
          | _ => basename_suffix_scan rest (i - 1) rsuf' end_ fnse
                                      matchedSlash'
          end
        else basename_suffix_scan rest (i - 1) [] fnse fnse matchedSlash'
      end
  end.

(** The loop of [path.basename(path)]; the result is [(start, end)]. *)
Fixpoint basename_scan (rpath : jsstring) (i end_ : Z)
         (matchedSlash : bool) : Z * Z :=
  match rpath with
  | [] => (0, end_)
  | c :: rest =>
    if is_slash c then
      if negb matchedSlash then (i + 1, end_)
      else basename_scan rest (i - 1) end_ matchedSlash
    else if end_ =? -1 then basename_scan rest (i - 1) (i + 1) false
    else basename_scan rest (i - 1) end_ matchedSlash
  end.

Definition basename (path suffix : jsstring) : jsstring :=
  if (0 <? len suffix) && (len suffix <=? len path) then
    if str_eqb suffix path then []
    else
      let '(start, end_, firstNonSlashEnd) :=
        basename_suffix_scan (rev path) (len path - 1) (rev suffix)
                             (-1) (-1) true in
      let end' := if start =? end_ then firstNonSlashEnd
                  else if end_ =? -1 then len path else end_ in
      slice path start end'
  else
    let '(start, end_) := basename_scan (rev path) (len path - 1) (-1) true in
    if end_ =? -1 then [] else slice path start end_.

(** The loop of [path.dirname], over the characters at indices
    [path.length - 1] down to [1]; the result is [end]. *)
Fixpoint dirname_scan (rpath : jsstring) (i : Z) (matchedSlash : bool) : Z :=
  match rpath with
  | [] => -1
  | c :: rest =>
    if is_slash c then
      if negb matchedSlash then i
      else dirname_scan rest (i - 1) matchedSlash
    else dirname_scan rest (i - 1) false
  end.

Definition dirname (path : jsstring) : jsstring :=
  match path with
  | [] => str "."
  | c0 :: rest =>
    let hasRoot := is_slash c0 in
    let end_ := dirname_scan (rev rest) (len path - 1) true in
    if end_ =? -1 then (if hasRoot then str "/" else str ".")
    else if hasRoot && (end_ =? 1) then str "//"
    else slice path 0 end_
  end.

(** [normalizeString]: empty and [.] segments are dropped, a [..] segment
    removes the segment before it, or is kept when there is none and the
    path is relative.  [stack] is the result so far, last segment first. *)
Fixpoint normalize_segments (allowAboveRoot : bool) (segs stack : list jsstring)
  : list jsstring :=
  match segs with
  | [] => rev stack
  | seg :: segs' =>
    if str_eqb seg [] || str_eqb seg (str ".")
    then normalize_segments allowAboveRoot segs' stack
    else if str_eqb seg (str "..") then
      match stack with
      | top :: stack' =>
        if str_eqb top (str "..")
        then normalize_segments allowAboveRoot segs' (seg :: stack)
        else normalize_segments allowAboveRoot segs' stack'
      | [] =>
        if allowAboveRoot
        then normalize_segments allowAboveRoot segs' [seg]
        else normalize_segments allowAboveRoot segs' []
      end
    else normalize_segments allowAboveRoot segs' (seg :: stack)
  end.

Definition normalizeString (path : jsstring) (allowAboveRoot : bool)
  : jsstring :=
  join "/" (normalize_segments allowAboveRoot (split "/" path) []).

Definition isAbsolute (path : jsstring) : bool :=
  match path with
  | c :: _ => is_slash c
  | [] => false
  end.

Definition normalize (path : jsstring) : jsstring :=
  match path with
  | [] => str "."
  | _ =>
    let trailingSeparator := isAbsolute (rev path) in
    let p := normalizeString path (negb (isAbsolute path)) in
    match p with
    | [] =>
      if isAbsolute path then str "/"
      else if trailingSeparator then str "./" else str "."
    | _ =>
      let p' := if trailingSeparator then p ++ str "/" else p in
      if isAbsolute path then "/"%char :: p' else p'
    end
  end.

(** [path.join(a, b)] *)
Definition join2 (a b : jsstring) : jsstring :=
  match a, b with
  | [], [] => str "."
  | [], _ => normalize b
  | _, [] => normalize a
  | _, _ => normalize (a ++ "/"%char :: b)
  end.

(** [path.resolve(p)] in a process whose working directory is [cwd]. *)
Definition resolve (cwd p : jsstring) : jsstring :=
  let resolvedPath :=
    if isAbsolute p then p
    else match p with
         | [] => cwd
         | _ => cwd ++ "/"%char :: p
         end in
  let resolvedAbsolute := isAbsolute resolvedPath in
  let n := normalizeString resolvedPath (negb resolvedAbsolute) in
  if resolvedAbsolute then "/"%char :: n
  else match n with
       | [] => str "."
       | _ => n
       end.

End Path.

(** ** Regular expressions

    The fragment of ECMAScript regular expressions the parser uses:
    character classes, quantified character classes (greedy or lazy),
    concatenation, alternation and capture groups. *)

Inductive regex : Type :=
| Chr (p : ascii -> bool)
| Rep (p : ascii -> bool) (lo : nat) (hi : option nat) (greedy : bool)
| Cat (r1 r2 : regex)
| Alt (r1 r2 : regex)
| Grp (n : nat) (r : regex).

Declare Scope regex_scope.
Delimit Scope regex_scope with re.
Bind Scope regex_scope with regex.
Infix "+++" := Cat (right associativity, at level 60) : regex_scope.

(** Captures, most recent first; group [0] is the whole match. *)
Definition captures := list (nat * jsstring).

Fixpoint group (n : nat) (caps : captures) : jsstring :=
  match caps with
  | [] => []
  | (i, v) :: caps' => if Nat.eqb i n then v else group n caps'
  end.

Definition orelse {A} (a b : option A) : option A :=
  match a with
  | Some x => Some x
  | None => b
  end.

Definition can_more (hi : option nat) : bool :=
  match hi with
  | Some 0 => false
  | _ => true
  end.

(** The repeat matcher on a character class: a greedy quantifier tries one
    more character before the continuation, a lazy one the continuation
    first.  The continuation receives the text matched and the rest of the
    input. *)
Fixpoint rep {A} (p : ascii -> bool) (greedy : bool) (lo : nat)
         (hi : option nat) (s : jsstring)
         (k : jsstring -> jsstring -> option A) {struct s} : option A :=
  let stop := if Nat.eqb lo 0 then k [] s else None in
  let more :=
    match s with
    | c :: s' =>
      if p c && can_more hi
      then rep p greedy (pred lo) (option_map pred hi) s'
               (fun m r => k (c :: m) r)
      else None
    | [] => None
    end in
  if greedy then orelse more stop else orelse stop more.

(** The backtracking matcher, in continuation-passing style: [k] receives
    the text matched by [r], the rest of the input and the captures. *)
Fixpoint matcher (r : regex) (s : jsstring) (caps : captures)
         (k : jsstring -> jsstring -> captures -> option captures)
  : option captures :=
  match r with
  | Chr p =>
    match s with
    | c :: s' => if p c then k [c] s' caps else None
    | [] => None
    end
  | Rep p lo hi greedy => rep p greedy lo hi s (fun m s' => k m s' caps)
  | Cat r1 r2 =>
    matcher r1 s caps (fun m1 s1 caps1 =>
      matcher r2 s1 caps1 (fun m2 s2 caps2 => k (m1 ++ m2) s2 caps2))
  | Alt r1 r2 => orelse (matcher r1 s caps k) (matcher r2 s caps k)
  | Grp n r' => matcher r' s caps (fun m s' caps' => k m s' ((n, m) :: caps'))
  end.

(** A match attempt at the start of [s]. *)
Definition match_here (r : regex) (s : jsstring) : option captures :=
  matcher r s [] (fun m _ caps => Some ((0, m) :: caps)).

(** [s.match(r)] for a regular expression without the [g] flag: the first
    start position, from left to right, at which the matcher succeeds. *)
Fixpoint exec (r : regex) (s : jsstring) : option captures :=
  match match_here r s with
  | Some caps => Some caps
  | None =>
    match s with
    | [] => None
    | _ :: s' => exec r s'
    end
  end.

Definition lit (c : ascii) : regex := Chr (chr_eqb c).
Definition one_of (a b : ascii) : regex :=
  Chr (fun c => chr_eqb c a || chr_eqb c b).

(** [(.+?)[. _\-]*] : the title prefix and the separator run. *)
Definition title_prefix : regex := Grp 1 (Rep is_any 1 None false).
Definition sep_run : regex := Rep is_sep 0 None true.

(** [[sS](\d{1,2})[eE](\d{2})] *)
Definition tvTail1 : regex :=
  (one_of "s" "S" +++ Grp 2 (Rep is_digit 1 (Some 2) true)
   +++ one_of "e" "E" +++ Grp 3 (Rep is_digit 2 (Some 2) true))%re.

(** [(\d{1,2})[xX](\d{2})] *)
Definition tvTail2 : regex :=
  (Grp 2 (Rep is_digit 1 (Some 2) true)
   +++ one_of "x" "X" +++ Grp 3 (Rep is_digit 2 (Some 2) true))%re.

(** [\(?((19|20)\d{2})\)?] *)
Definition movieTail : regex :=
  (Rep (chr_eqb "(") 0 (Some 1) true
   +++ Grp 2 (Grp 3 (Alt (lit "1" +++ lit "9") (lit "2" +++ lit "0"))
              +++ Rep is_digit 2 (Some 2) true)
   +++ Rep (chr_eqb ")") 0 (Some 1) true)%re.

(** [/(.+?)[. _\-]*[sS](\d{1,2})[eE](\d{2})/] *)
Definition tvRegex1 : regex := (title_prefix +++ sep_run +++ tvTail1)%re.

(** [/(.+?)[. _\-]*(\d{1,2})[xX](\d{2})/] *)
Definition tvRegex2 : regex := (title_prefix +++ sep_run +++ tvTail2)%re.

(** [/(.+?)[. _\-]*\(?((19|20)\d{2})\)?/] *)
Definition movieRegex : regex := (title_prefix +++ sep_run +++ movieTail)%re.

(** ** Numbers *)

Inductive number : Type :=
| Num (z : Z)
| NaN.

Fixpoint drop_while (p : ascii -> bool) (s : jsstring) : jsstring :=
  match s with
  | [] => []
  | c :: s' => if p c then drop_while p s' else s
  end.

Fixpoint digits_value (acc : Z) (s : jsstring) : Z :=
  match s with
  | c :: s' =>
    if is_digit c
    then digits_value (10 * acc + (Z.of_N (char_code c) - 48)) s'
    else acc
  | [] => acc
  end.

(** [parseInt(s, 10)]: leading whitespace, an optional sign, then the
    longest run of decimal digits; NaN when there is none. *)
Definition parseInt10 (s : jsstring) : number :=
  let s1 := drop_while is_space s in
  let '(sign, s2) :=
    match s1 with
    | c :: t =>
      if chr_eqb c "-" then ((-1)%Z, t)
      else if chr_eqb c "+" then (1%Z, t)
      else (1%Z, s1)
    | [] => (1%Z, s1)
    end in
  match s2 with
  | c :: _ => if is_digit c then Num (sign * digits_value 0 s2) else NaN
  | [] => NaN
  end.

Fixpoint digits_of (fuel : nat) (n : N) (acc : jsstring) : jsstring :=
  match fuel with
  | O => acc
  | S fuel' =>
    let acc' := ascii_of_N (48 + n mod 10) :: acc in
    if (n / 10 =? 0)%N then acc' else digits_of fuel' (n / 10) acc'
  end.

(** The decimal numeral of a number, as a template literal prints it. *)
Definition show (x : number) : jsstring :=
  match x with
  | NaN => str "NaN"
  | Num z =>
    let ds := digits_of (S (N.size_nat (Z.abs_N z))) (Z.abs_N z) [] in
    if (z <? 0)%Z then "-"%char :: ds else ds
  end.

(** ** types.ts *)

Inductive MediaType : Type :=
| tv
| movie.

Record ParsedMedia : Type := mkParsed {
  type : MediaType;
  title : jsstring;
  season : option number;
  episode : option number;
  year : option number;
  ext : jsstring;
  originalName : jsstring
}.

(** ** parser.ts *)

(** [s.replace(/[p]+/g, " ")]: every maximal run of characters of the class
    becomes one space.  [inrun] says that the previous character was in the
    class. *)
Fixpoint replace_runs (p : ascii -> bool) (inrun : bool) (s : jsstring)
  : jsstring :=
  match s with
  | [] => []
  | c :: s' =>
    if p c
    then if inrun then replace_runs p true s'
         else " "%char :: replace_runs p true s'
    else c :: replace_runs p false s'
  end.

Definition trim (s : jsstring) : jsstring :=
  rev (drop_while is_space (rev (drop_while is_space s))).

Definition is_dot_or_underscore (c : ascii) : bool :=
  chr_eqb c "." || chr_eqb c "_".
Definition is_dash (c : ascii) : bool := chr_eqb c "-".

Definition cleanTitle (raw : jsstring) : jsstring :=
  trim (replace_runs is_space false
         (replace_runs is_dash false
           (replace_runs is_dot_or_underscore false raw))).

(** [w.length > 0 ? w[0].toUpperCase() + w.slice(1) : w] *)
Definition capitalize (w : jsstring) : jsstring :=
  match w with
  | c :: w' => toUpperCase c :: w'
  | [] => []
  end.

Definition titleCase (s : jsstring) : jsstring :=
  join " " (map capitalize (split " " s)).

Definition parseFilename (fullname : jsstring) : option ParsedMedia :=
  let ext := Path.extname fullname in
  let name := Path.basename fullname ext in
  match orelse (exec tvRegex1 name) (exec tvRegex2 name) with
  | Some m =>
    let rawTitle := group 1 m in
    let season := parseInt10 (group 2 m) in
    let episode := parseInt10 (group 3 m) in
    let title := titleCase (cleanTitle rawTitle) in
    Some (mkParsed tv title (Some season) (Some episode) None ext name)
  | None =>
    match exec movieRegex name with
    | Some m =>
      let rawTitle := group 1 m in
      let year := parseInt10 (group 2 m) in
      let title := titleCase (cleanTitle rawTitle) in
      Some (mkParsed movie title None None (Some year) ext name)
    | None =>
      let cleaned := titleCase (cleanTitle name) in
      if (0 <? len cleaned)%Z
      then Some (mkParsed movie cleaned None None None ext name)
      else None
    end
  end.

(** ** renamer.ts: the filename generator *)

Definition lt10 (x : number) : bool :=
  match x with
  | Num z => (z <? 10)%Z
  | NaN => false
  end.

Definition pad2 (n : option number) : jsstring :=
  match n with
  | None => str "00"
  | Some x => if lt10 x then "0"%char :: show x else show x
  end.

(** Truthiness of an optional number: [undefined], [0] and [NaN] are falsy. *)
Definition truthy (n : option number) : bool :=
  match n with
  | Some (Num z) => negb (z =? 0)%Z
  | _ => false
  end.

Definition show_opt (n : option number) : jsstring :=
  match n with
  | Some x => show x
  | None => str "undefined"
  end.

Definition generateFilename (parsed : ParsedMedia) : jsstring :=
  let ext := parsed.(ext) in
  match parsed.(type) with
  | tv =>
    let season := pad2 parsed.(season) in
    let episode := pad2 parsed.(episode) in
    parsed.(title) ++ str " - S" ++ season ++ str "E" ++ episode ++ ext
  | movie =>
    if truthy parsed.(year)
    then parsed.(title) ++ str " (" ++ show_opt parsed.(year) ++ str ")" ++ ext
    else parsed.(title) ++ ext
  end.

(** ** renamer.ts: the move executor *)

Record RenameOptions : Type := mkOptions {
  apply : bool;
  dryRun : option bool;
  replace : option bool;
  targetDir : option jsstring
}.

(** Error codes of the filesystem calls. *)
Inductive errno : Type :=
| ENOENT | EXDEV | EACCES | EPERM | EISDIR | ENOTDIR | EEXIST
| ENOTEMPTY | EBUSY | EROFS | ENOSPC | EIO | ELOOP | ENAMETOOLONG
| EINVAL | EMFILE.

Definition errno_name (e : errno) : jsstring :=
  str match e with
      | ENOENT => "ENOENT" | EXDEV => "EXDEV" | EACCES => "EACCES"
      | EPERM => "EPERM" | EISDIR => "EISDIR" | ENOTDIR => "ENOTDIR"
      | EEXIST => "EEXIST" | ENOTEMPTY => "ENOTEMPTY" | EBUSY => "EBUSY"
      | EROFS => "EROFS" | ENOSPC => "ENOSPC" | EIO => "EIO"
      | ELOOP => "ELOOP" | ENAMETOOLONG => "ENAMETOOLONG"
      | EINVAL => "EINVAL" | EMFILE => "EMFILE"
      end.

Definition errno_text (e : errno) : jsstring :=
  str match e with
      | ENOENT => "no such file or directory"
      | EXDEV => "cross-device link not permitted"
      | EACCES => "permission denied"
      | EPERM => "operation not permitted"
      | EISDIR => "illegal operation on a directory"
      | ENOTDIR => "not a directory"
      | EEXIST => "file already exists"
      | ENOTEMPTY => "directory not empty"
      | EBUSY => "resource busy or locked"
      | EROFS => "read-only file system"
      | ENOSPC => "no space left on device"
      | EIO => "i/o error"
      | ELOOP => "too many symbolic links encountered"
      | ENAMETOOLONG => "name too long"
      | EINVAL => "invalid argument"
      | EMFILE => "too many open files"
      end.

(** The calls of [fs/promises] the executor makes. *)
Inductive fs_op : Type :=
| Mkdir (dir : jsstring)
| Access (path : jsstring)
| Unlink (path : jsstring)
| Rename (oldPath newPath : jsstring)
| CopyFile (src dest : jsstring).

(** What a [catch] clause sees of an error: its [code] (undefined for a
    plain [Error]) and its [message]. *)
Record js_error : Type := mkError {
  err_code : option jsstring;
  err_message : jsstring
}.

Definition op_text (op : fs_op) : jsstring :=
  match op with
  | Mkdir d => str "mkdir '" ++ d ++ str "'"
  | Access p => str "access '" ++ p ++ str "'"
  | Unlink p => str "unlink '" ++ p ++ str "'"
  | Rename a b => str "rename '" ++ a ++ str "' -> '" ++ b ++ str "'"
  | CopyFile a b => str "copyfile '" ++ a ++ str "' -> '" ++ b ++ str "'"
  end.

(** The error a filesystem call rejects with. *)
Definition system_error (e : errno) (op : fs_op) : js_error :=
  mkError (Some (errno_name e))
          (errno_name e ++ str ": " ++ errno_text e ++ str ", " ++ op_text op).

(** [new Error(message)] *)
Definition new_Error (message : jsstring) : js_error := mkError None message.

(** Asynchronous code: a tree of filesystem calls that ends with a value or
    a thrown error.  The continuation of a call receives [None] when the
    call resolved and the error code when it rejected. *)
Inductive io (A : Type) : Type :=
| Ret (a : A)
| Throw (e : js_error)
| Call (op : fs_op) (k : option errno -> io A).

Arguments Ret {A} a.
Arguments Throw {A} e.
Arguments Call {A} op k.

Fixpoint bind {A B} (m : io A) (f : A -> io B) : io B :=
  match m with
  | Ret a => f a
  | Throw e => Throw e
  | Call op k => Call op (fun r => bind (k r) f)
  end.

(** [try { m } catch (err) { h err }] *)
Fixpoint try_catch {A} (m : io A) (h : js_error -> io A) : io A :=
  match m with
  | Ret a => Ret a
  | Throw e => h e
  | Call op k => Call op (fun r => try_catch (k r) h)
  end.

(** [await fs.op(...)] *)
Definition await (op : fs_op) : io unit :=
  Call op (fun r =>
    match r with
    | None => Ret tt
    | Some e => Throw (system_error e op)
    end).

Declare Scope io_scope.
Delimit Scope io_scope with io.
Notation "m1 ;; m2" := (bind m1 (fun _ => m2))
  (at level 61, right associativity) : io_scope.

(** [err.code === c] *)
Definition code_is (c : string) (err : js_error) : bool :=
  match err.(err_code) with
  | Some x => str_eqb x (str c)
  | None => false
  end.

Definition is_true (b : option bool) : bool :=
  match b with
  | Some true => true
  | _ => false
  end.

Definition ensureDir (dir : jsstring) : io unit := await (Mkdir dir).

Definition destination_exists_message (newPath : jsstring) : jsstring :=
  str "Destination exists and --replace not set: " ++ newPath.

(** The destination check of [renameFile]: its first [try] statement. *)
Definition checkDestination (options : RenameOptions) (newPath : jsstring)
  : io unit :=
  try_catch
    (await (Access newPath) ;;
     (if negb (is_true options.(replace))
      then Throw (new_Error (destination_exists_message newPath))
      else Ret tt) ;;
     await (Unlink newPath))%io
    (fun err =>
       if code_is "ENOENT" err then Ret tt
       else if (0 <? len err.(err_message))%Z
               && startsWith (str "Destination exists") err.(err_message)
            then Throw err
            else Ret tt).

(** The move of [renameFile]: its second [try] statement. *)
Definition move (originalPath newPath : jsstring) : io jsstring :=
  try_catch
    (await (Rename originalPath newPath) ;; Ret newPath)%io
    (fun err =>
       if code_is "EXDEV" err
       then (await (CopyFile originalPath newPath) ;;
             await (Unlink originalPath) ;;
             Ret newPath)%io
       else Throw err).

Definition destination (originalPath newBasename : jsstring)
           (options : RenameOptions) : jsstring * jsstring :=
  let origDir := Path.dirname originalPath in
  let destDir :=
    match options.(targetDir) with
    | Some (c :: d) => c :: d
    | _ => origDir
    end in
  (destDir, Path.join2 destDir newBasename).

(** [renameFile], in a process whose working directory is [cwd]. *)
Definition renameFile (cwd originalPath newBasename : jsstring)
           (options : RenameOptions) : io jsstring :=
  let '(destDir, newPath) := destination originalPath newBasename options in
  if str_eqb (Path.resolve cwd originalPath) (Path.resolve cwd newPath)
  then Ret newPath
  else if negb options.(apply) then Ret newPath
  else (ensureDir destDir ;;
        checkDestination options newPath ;;
        move originalPath newPath)%io.

(** *** Running against an environment *)

Section Run.

Variable World : Type.
Variable exec : fs_op -> World -> option errno * World.

(** The outcome of a run: the value or the error thrown, the final state
    of the environment, and the calls made, in order. *)
Fixpoint run {A} (m : io A) (w : World)
  : (js_error + A) * World * list fs_op :=
  match m with
  | Ret a => (inr a, w, [])
  | Throw e => (inl e, w, [])
  | Call op k =>
    let '(r, w') := exec op w in
    let '(res, w'', calls) := run (k r) w' in
    (res, w'', op :: calls)
  end.

End Run.

Arguments run {World} exec {A} m w.

(** *** A reference environment

    A flat in-memory filesystem keyed by path, with injected faults: a call
    listed in [faults] rejects with the given code.  It gives the concrete
    runs of the statements below. *)

Module Mock.

Record world : Type := mkWorld {
  files : list (jsstring * jsstring);
  faults : list (fs_op * errno)
}.

Fixpoint lookup (p : jsstring) (fs : list (jsstring * jsstring))
  : option jsstring :=
  match fs with
  | [] => None
  | (q, c) :: fs' => if str_eqb q p then Some c else lookup p fs'
  end.

Fixpoint remove (p : jsstring) (fs : list (jsstring * jsstring))
  : list (jsstring * jsstring) :=
  match fs with
  | [] => []
  | (q, c) :: fs' =>
    if str_eqb q p then remove p fs' else (q, c) :: remove p fs'
  end.

Definition op_eqb (a b : fs_op) : bool :=
  match a, b with
  | Mkdir x, Mkdir y => str_eqb x y
  | Access x, Access y => str_eqb x y
  | Unlink x, Unlink y => str_eqb x y
  | Rename x x', Rename y y' => str_eqb x y && str_eqb x' y'
  | CopyFile x x', CopyFile y y' => str_eqb x y && str_eqb x' y'
  | _, _ => false
  end.

Fixpoint fault_of (op : fs_op) (fl : list (fs_op * errno)) : option errno :=
  match fl with
  | [] => None
  | (o, e) :: fl' => if op_eqb o op then Some e else fault_of op fl'
  end.

Definition set_files (w : world) (fs : list (jsstring * jsstring)) : world :=
  mkWorld fs w.(faults).

Definition exec (op : fs_op) (w : world) : option errno * world :=
  match fault_of op w.(faults) with
  | Some e => (Some e, w)
  | None =>
    match op with
    | Mkdir _ => (None, w)
    | Access p =>
      match lookup p w.(files) with
      | Some _ => (None, w)
      | None => (Some ENOENT, w)
      end
    | Unlink p =>
      match lookup p w.(files) with
      | Some _ => (None, set_files w (remove p w.(files)))
      | None => (Some ENOENT, w)
      end
    | Rename a b =>
      match lookup a w.(files) with
      | Some c =>
        (None, set_files w ((b, c) :: remove b (remove a w.(files))))
      | None => (Some ENOENT, w)
      end
    | CopyFile a b =>
      match lookup a w.(files) with
      | Some c => (None, set_files w ((b, c) :: remove b w.(files)))
      | None => (Some ENOENT, w)
      end
    end
  end.


End Mock.

(** ** Shapes of names *)

(** A name without directory separator: what [path.basename] returns. *)
Definition no_slash (s : jsstring) : bool :=
  forallb (fun c => negb (is_slash c)) s.

Definition no_dot (s : jsstring) : bool :=
  forallb (fun c => negb (is_dot c)) s.

Definition is_some {A} (o : option A) : bool :=
  match o with
  | Some _ => true
  | None => false
  end.

(** ** What a regular expression matches

    [Matches r m caps caps'] : the text [m] is matched by [r], and the
    captures [caps] become [caps'].  The matcher only returns such
    matches. *)

Inductive Matches : regex -> jsstring -> captures -> captures -> Prop :=
| M_chr (p : ascii -> bool) (c : ascii) (caps : captures) :
    p c = true -> Matches (Chr p) [c] caps caps
| M_rep (p : ascii -> bool) (lo : nat) (hi : option nat) (g : bool)
        (m : jsstring) (caps : captures) :
    forallb p m = true ->
    lo <= length m ->
    (forall h, hi = Some h -> length m <= h) ->
    Matches (Rep p lo hi g) m caps caps
| M_cat (r1 r2 : regex) (m1 m2 : jsstring) (c c1 c2 : captures) :
    Matches r1 m1 c c1 -> Matches r2 m2 c1 c2 ->
    Matches (Cat r1 r2) (m1 ++ m2) c c2
| M_alt_l (r1 r2 : regex) (m : jsstring) (c c' : captures) :
    Matches r1 m c c' -> Matches (Alt r1 r2) m c c'
| M_alt_r (r1 r2 : regex) (m : jsstring) (c c' : captures) :
    Matches r2 m c c' -> Matches (Alt r1 r2) m c c'
| M_grp (n : nat) (r : regex) (m : jsstring) (c c' : captures) :
    Matches r m c c' -> Matches (Grp n r) m c ((n, m) :: c').

(** Does [r] match some text at the start of [s]? *)
Definition matches_at (r : regex) (s : jsstring) : bool :=
  is_some (matcher r s [] (fun _ _ caps => Some caps)).

(** Does the token [tail], after a separator run, match at one of the
    positions [1 .. n - 1] of [name]?  These are the positions at which the
    lazy title prefix stops before having read [n] characters. *)
Definition token_before (tail : regex) (name : jsstring) (n : nat) : bool :=
  existsb (fun j => matches_at (sep_run +++ tail) (skipn j name))
          (seq 1 (n - 1)).






(** ** Normalized titles *)

(** The Title Normalizer: what the parser applies to a raw title. *)
Definition normalizeTitle (raw : jsstring) : jsstring :=
  titleCase (cleanTitle raw).

(** Title casing, character by character: a character is capitalized at
    the start and after a space. *)
Fixpoint capitalize_words (at_start : bool) (s : jsstring) : jsstring :=
  match s with
  | [] => []
  | c :: s' =>
    if chr_eqb c " " then c :: capitalize_words true s'
    else (if at_start then toUpperCase c else c) :: capitalize_words false s'
  end.

(** No whitespace but single spaces; [prev] says that a space may not come
    next. *)
Fixpoint single_spaced (prev : bool) (s : jsstring) : bool :=
  match s with
  | [] => true
  | c :: s' =>
    if is_space c
    then chr_eqb c " " && negb prev && single_spaced true s'
    else single_spaced false s'
  end.

Definition title_char (c : ascii) : bool :=
  negb (is_dot_or_underscore c) && negb (is_dash c).

Fixpoint ends_with_space (s : jsstring) : bool :=
  match s with
  | [] => false
  | [c] => is_space c
  | _ :: s' => ends_with_space s'
  end.

(** A clean title: no dot, underscore or dash, words separated by single
    spaces, no space at either end. *)
Definition clean (s : jsstring) : bool :=
  forallb title_char s && single_spaced true s && negb (ends_with_space s).

(** ** The invariants of a media record, as the specification states them *)

Definition MediaRecord_invariant (r : ParsedMedia) : Prop :=
  r.(title) <> [] /\ normalizeTitle r.(title) = r.(title)
  /\ match r.(type) with
     | tv =>
       (exists s e, r.(season) = Some (Num s) /\ r.(episode) = Some (Num e)
                    /\ (0 < s)%Z /\ (0 < e)%Z)
       /\ r.(year) = None
     | movie => r.(season) = None /\ r.(episode) = None
     end.

(** ** Records in normalized form *)

(** An extension as [path.extname] returns them: empty, or a dot followed
    by text without dot or separator. *)
Definition extension_ok (x : jsstring) : Prop :=
  x = [] \/ exists e, x = "."%char :: e /\ no_slash e = true /\ no_dot e = true.

(** A well-formed record in normalized form: the invariants of the record,
    an extension with its leading dot, a year from 1900 to 2099. *)
Definition well_formed (r : ParsedMedia) : Prop :=
  MediaRecord_invariant r /\ extension_ok r.(ext)
  /\ match r.(year) with
     | Some y => exists z, y = Num z /\ (1900 <= z <= 2099)%Z
     | None => True
     end.

(** The generated name without its extension. *)
Definition stem (r : ParsedMedia) : jsstring :=
  match r.(type) with
  | tv =>
    r.(title) ++ str " - S" ++ pad2 r.(season) ++ str "E" ++ pad2 r.(episode)
  | movie =>
    if truthy r.(year)
    then r.(title) ++ str " (" ++ show_opt r.(year) ++ str ")"
    else r.(title)
  end.

(** The generated name reads back without ambiguity: the first token the
    parser finds in it is the one the generator wrote after the title. *)
Definition reads_back (r : ParsedMedia) : Prop :=
  match r.(type) with
  | tv => token_before tvTail1 (stem r) (length r.(title)) = false
  | movie =>
    exec tvRegex1 (stem r) = None /\ exec tvRegex2 (stem r) = None
    /\ if truthy r.(year)
       then token_before movieTail (stem r) (length r.(title)) = false
       else exec movieRegex (stem r) = None
  end.

(** Season and episode fit the two digits of the generated name. *)
Definition two_digit_numbers (r : ParsedMedia) : Prop :=
  forall s e, r.(season) = Some (Num s) -> r.(episode) = Some (Num e) ->
              (s <= 99)%Z /\ (e <= 99)%Z.

(** The checks behind [pad2] and the printing of years, case by case. *)
Definition pad2_checks (z : Z) : bool :=
  match pad2 (Some (Num z)) with
  | [d1; d2] =>
    is_digit d1 && is_digit d2 && (digits_value 0 [d1; d2] =? z)%Z
  | _ => false
  end.

Definition year_checks (z : Z) : bool :=
  match show (Num z) with
  | [c1; c2; d3; d4] =>
    ((chr_eqb c1 "1" && chr_eqb c2 "9") || (chr_eqb c1 "2" && chr_eqb c2 "0"))
    && is_digit d3 && is_digit d4
    && (digits_value 0 [c1; c2; d3; d4] =? z)%Z
  | _ => false
  end.

(** ** Concrete inputs *)

Module Demo.
(** Concrete inputs for the runs below. *)
Definition cwd : jsstring := str "/media".
Definition original : jsstring := str "/media/in/show.s01e02.mkv".
Definition newName : jsstring := str "Show - S01E02.mkv".
Definition target : jsstring := str "/media/out".
Definition dest : jsstring := str "/media/out/Show - S01E02.mkv".
Definition opts (a : bool) (r : option bool) : RenameOptions :=
  mkOptions a None r (Some target).
Definition disk (fl : list (fs_op * errno)) : Mock.world :=
  Mock.mkWorld [(original, str "episode"); (dest, str "old")] fl.
End Demo.

(** ** More names: blank names, trailing text, movie names *)







(** The integers a JavaScript number holds exactly, from
    [-Number.MAX_SAFE_INTEGER] to [Number.MAX_SAFE_INTEGER]; a template
    literal prints them in plain decimal notation. *)
Definition safe_integer (n : Z) : Prop :=
  (- 9007199254740991 <= n <= 9007199254740991)%Z.

(** ** cli.ts: the command line *)

Module Cli.

Record CLIArgs : Type := mkArgs {
  apply : bool;
  recursive : bool;
  replace : bool;
  target : option jsstring;
  sources : list jsstring
}.

(** What [parseArgs] writes before it ends the process: the message of
    [console.error], or the help text of [printHelp]. *)
Inductive console : Type :=
| console_error (msg : jsstring)
| printHelp.

(** [parseArgs] returns its result, or ends the process with
    [process.exit(code)] after writing to the console. *)
Inductive outcome : Type :=
| Return (res : CLIArgs)
| Exit (out : console) (code : Z).

Definition target_requires : jsstring :=
  str "--target requires a directory path".

(** The loop of [parseArgs] over the arguments from index [i] on; [res] is
    the record filled so far.  [--target] takes the argument after it and
    skips it ([i++]); a missing or empty one is falsy. *)
Fixpoint parseArgs_loop (args : list jsstring) (res : CLIArgs) : outcome :=
  match args with
  | [] => Return res
  | a :: rest =>
    if str_eqb a (str "--apply")
    then parseArgs_loop rest
           (mkArgs true res.(recursive) res.(replace) res.(target)
                   res.(sources))
    else if str_eqb a (str "--recursive")
    then parseArgs_loop rest
           (mkArgs res.(apply) true res.(replace) res.(target) res.(sources))
    else if str_eqb a (str "--replace")
    then parseArgs_loop rest
           (mkArgs res.(apply) res.(recursive) true res.(target)
                   res.(sources))
    else if str_eqb a (str "--target")
    then match rest with
         | (_ :: _) as val :: rest' =>
           parseArgs_loop rest'
             (mkArgs res.(apply) res.(recursive) res.(replace) (Some val)
                     res.(sources))
         | _ => Exit (console_error target_requires) 2
         end
    else if str_eqb a (str "--help") || str_eqb a (str "-h")
    then Exit printHelp 0
    else parseArgs_loop rest
           (mkArgs res.(apply) res.(recursive) res.(replace) res.(target)
                   (res.(sources) ++ [a]))
  end.

Definition no_args : CLIArgs := mkArgs false false false None [].

Definition parseArgs (argv : list jsstring) : outcome :=
  match parseArgs_loop (skipn 2 argv) no_args with
  | Return res =>
    Return (match res.(sources) with
            | [] => mkArgs res.(apply) res.(recursive) res.(replace)
                           res.(target) [str "."]
            | _ => res
            end)
  | Exit out code => Exit out code
  end.

(** The words [parseArgs] reads as options. *)
Definition is_flag (a : jsstring) : bool :=
  str_eqb a (str "--apply") || str_eqb a (str "--recursive")
  || str_eqb a (str "--replace").

Definition is_option (a : jsstring) : bool :=
  is_flag a || str_eqb a (str "--target") || str_eqb a (str "--help")
  || str_eqb a (str "-h").

Definition given (flag : jsstring) (args : list jsstring) : bool :=
  existsb (fun a => str_eqb a flag) args.

(** [p.split(path.sep).length] *)
Definition depth (p : jsstring) : nat := length (split "/" p).

(** [[...resolvedSources].sort((a, b) => depth b - depth a)]: the deeper
    path first.  [Array.prototype.sort] is stable, so the result is the one
    of any stable sort; here each path is inserted in front of the sorted
    rest, after the paths that are strictly deeper. *)
Fixpoint insert_by_depth (x : jsstring) (l : list jsstring) : list jsstring :=
  match l with
  | [] => [x]
  | y :: l' =>
    if depth x <? depth y then y :: insert_by_depth x l' else x :: l
  end.

Definition sort_by_depth (resolvedSources : list jsstring) : list jsstring :=
  fold_right insert_by_depth [] resolvedSources.

(** [fileResolved === srcResolved ||
     fileResolved.startsWith(srcResolved + path.sep)] *)
Definition covers (srcResolved fileResolved : jsstring) : bool :=
  str_eqb fileResolved srcResolved
  || startsWith (srcResolved ++ ["/"%char]) fileResolved.

(** The loop of [findBestSourceForFile] over [sortedResolvedSources], in a
    process whose working directory is [cwd]. *)
Fixpoint first_covering (cwd : jsstring) (sources : list jsstring)
         (fileResolved : jsstring) : option jsstring :=
  match sources with
  | [] => None
  | src :: rest =>
    let srcResolved := Path.resolve cwd src in
    if covers srcResolved fileResolved then Some srcResolved
    else first_covering cwd rest fileResolved
  end.

Definition findBestSourceForFile (cwd : jsstring)
           (sortedResolvedSources : list jsstring) (filePath : jsstring)
  : option jsstring :=
  first_covering cwd sortedResolvedSources (Path.resolve cwd filePath).

End Cli.

(** ** cli.ts: the walk over the sources

    The walk reads the filesystem with [fs.stat] and [fs.readdir] and
    changes nothing.  The filesystem is a snapshot here: the two calls are
    functions of the path, so a path that is read twice gives the same
    answer twice.  A call fails with an error code.  [fuel] bounds the depth
    of the recursion. *)

Module Walk.

(** What [fs.stat] says of a path: [isFile()], [isDirectory()], or
    neither. *)
Inductive kind : Type :=
| File
| Directory
| Other.

(** The result of a walk: the files found, in order, and the calls of
    [console.warn], each for a path and the error it was skipped for. *)
Definition walked : Type := list jsstring * list (jsstring * errno).

Definition nothing : walked := ([], []).

Definition both (a b : walked) : walked := (fst a ++ fst b, snd a ++ snd b).

(** A [for ... of] loop whose body adds to [results]. *)
Fixpoint for_of {A} (body : A -> option walked) (l : list A)
  : option walked :=
  match l with
  | [] => Some nothing
  | x :: l' =>
    match body x, for_of body l' with
    | Some a, Some b => Some (both a b)
    | _, _ => None
    end
  end.

Section Snapshot.

Variable stat : jsstring -> errno + kind.
Variable readdir : jsstring -> errno + list jsstring.
Variable cwd : jsstring.

(** [resolvedTarget && resolved === resolvedTarget] *)
Definition is_target (targetDir : option jsstring) (fp : jsstring) : bool :=
  match targetDir with
  | Some (c :: t) => str_eqb (Path.resolve cwd fp) (Path.resolve cwd (c :: t))
  | _ => false
  end.

Fixpoint walkPaths (fuel : nat) (paths : list jsstring) (recursive : bool)
         (targetDir : option jsstring) : option walked :=
  match fuel with
  | O => None
  | S fuel' =>
    for_of
      (fun p =>
         match stat p with
         | inr File => Some ([p], [])
         | inr Directory =>
           match readdir p with
           | inr entries =>
             for_of
               (fun e =>
                  let fp := Path.join2 p e in
                  match stat fp with
                  | inr File => Some ([fp], [])
                  | inr Directory =>
                    if recursive
                    then if is_target targetDir fp then Some nothing
                         else walkPaths fuel' [fp] recursive targetDir
                    else Some nothing
                  | inr Other => Some nothing
                  | inl _ => Some nothing
                  end)
               entries
           | inl err => Some ([], [(p, err)])
           end
         | inr Other => Some nothing
         | inl err => Some ([], [(p, err)])
         end)
      paths
  end.

End Snapshot.

End Walk.

Module WalkDemo.
(** A small tree: [/m] holds a file, a directory [sub] with a file, and
    the directory [out]; [/gone] does not exist. *)
Definition stat (p : jsstring) : errno + Walk.kind :=
  if str_eqb p (str "/m") || str_eqb p (str "/m/sub")
     || str_eqb p (str "/m/out")
  then inr Walk.Directory
  else if str_eqb p (str "/m/a.mkv") || str_eqb p (str "/m/sub/b.mkv")
          || str_eqb p (str "/m/out/c.mkv")
       then inr Walk.File
       else inl ENOENT.
Definition readdir (p : jsstring) : errno + list jsstring :=
  if str_eqb p (str "/m") then inr [str "a.mkv"; str "sub"; str "out"]
  else if str_eqb p (str "/m/sub") then inr [str "b.mkv"]
  else if str_eqb p (str "/m/out") then inr [str "c.mkv"]
  else inl ENOTDIR.
Definition cwd : jsstring := str "/m".
(** The number of directory levels below a path. *)
Definition levels (p : jsstring) : nat :=
  if str_eqb p (str "/m") then 1 else 0.
End WalkDemo.

(** ** File names *)

(** A plain file name: one path segment, not empty, not [.] and not
    [..]. *)
Definition plain_name (b : jsstring) : bool :=
  negb (str_eqb b []) && no_slash b
  && negb (str_eqb b (str ".")) && negb (str_eqb b (str "..")).

(** * Properties *)

(** ** The embedding on the documented examples *)

Example extname_html : Path.extname (str "index.html") = str ".html".
Proof. vm_compute; reflexivity. Qed.

Example extname_last_dot : Path.extname (str "index.coffee.md") = str ".md".
Proof. vm_compute; reflexivity. Qed.

Example extname_trailing_dot : Path.extname (str "index.") = str ".".
Proof. vm_compute; reflexivity. Qed.

Example extname_hidden_file : Path.extname (str ".index") = [].
Proof. vm_compute; reflexivity. Qed.

Example basename_with_suffix :
  Path.basename (str "/foo/bar/quux.html") (str ".html") = str "quux".
Proof. vm_compute; reflexivity. Qed.

Example dirname_of_file : Path.dirname (str "/media/in/a.mkv") = str "/media/in".
Proof. vm_compute; reflexivity. Qed.

Example join_normalizes :
  Path.join2 (str "/media/out/") (str "../in/a.mkv") = str "/media/in/a.mkv".
Proof. vm_compute; reflexivity. Qed.

Example resolve_relative :
  Path.resolve (str "/media") (str "in/./a.mkv") = str "/media/in/a.mkv".
Proof. vm_compute; reflexivity. Qed.

Example generate_tv :
  option_map generateFilename (parseFilename (str "Show.Name.S01E02.mkv"))
  = Some (str "Show Name - S01E02.mkv").
Proof. vm_compute; reflexivity. Qed.

Example generate_movie :
  option_map generateFilename (parseFilename (str "Movie.Name.2007.mkv"))
  = Some (str "Movie Name (2007).mkv").
Proof. vm_compute; reflexivity. Qed.

Example generate_fallback :
  option_map generateFilename (parseFilename (str "randomfile.txt"))
  = Some (str "Randomfile.txt").
Proof. vm_compute; reflexivity. Qed.

Example parse_nothing : parseFilename (str ".mkv") <> None
                        /\ parseFilename (str "...") = None.
Proof. split; [vm_compute; discriminate | vm_compute; reflexivity]. Qed.

(** ** Strings *)

Lemma chr_eqb_eq (a b : ascii) : chr_eqb a b = true <-> a = b.
Proof. apply Ascii.eqb_eq. Qed.

Lemma chr_eqb_refl (a : ascii) : chr_eqb a a = true.
Proof. apply chr_eqb_eq; reflexivity. Qed.

Lemma str_eqb_eq (a b : jsstring) : str_eqb a b = true <-> a = b.
Proof.
  revert b; induction a as [|x a IH]; intros [|y b]; simpl;
    try (split; [discriminate | discriminate]); try tauto.
  rewrite andb_true_iff, chr_eqb_eq, IH.
  split; [intros [-> ->]; reflexivity | intros [= -> ->]; auto].
Qed.

Lemma str_eqb_refl (a : jsstring) : str_eqb a a = true.
Proof. apply str_eqb_eq; reflexivity. Qed.

Lemma str_eqb_neq (a b : jsstring) : a <> b -> str_eqb a b = false.
Proof.
  intros H; destruct (str_eqb a b) eqn:E; [|reflexivity].
  apply str_eqb_eq in E; contradiction.
Qed.

(** ** The move executor *)

Section RunLemmas.

Variable World : Type.
Variable exec : fs_op -> World -> option errno * World.

Lemma run_bind {A B} (m : io A) (f : A -> io B) (w : World) :
  run exec (bind m f) w =
  match run exec m w with
  | (inr a, w', calls) =>
    let '(r, w'', calls') := run exec (f a) w' in (r, w'', calls ++ calls')
  | (inl e, w', calls) => (inl e, w', calls)
  end.
Proof.
  revert w; induction m as [a|e|op k IH]; intros w; simpl.
  - destruct (run exec (f a) w) as [[r w'] calls]; reflexivity.
  - reflexivity.
  - destruct (exec op w) as [r w1]. rewrite IH.
    destruct (run exec (k r) w1) as [[[e|a] w2] calls]; [reflexivity|].
    destruct (run exec (f a) w2) as [[r' w3] calls']; reflexivity.
Qed.

Lemma run_try_catch {A} (m : io A) (h : js_error -> io A) (w : World) :
  run exec (try_catch m h) w =
  match run exec m w with
  | (inl e, w', calls) =>
    let '(r, w'', calls') := run exec (h e) w' in (r, w'', calls ++ calls')
  | (inr a, w', calls) => (inr a, w', calls)
  end.
Proof.
  revert w; induction m as [a|e|op k IH]; intros w; simpl.
  - reflexivity.
  - destruct (run exec (h e) w) as [[r w'] calls]; reflexivity.
  - destruct (exec op w) as [r w1]. rewrite IH.
    destruct (run exec (k r) w1) as [[[e|a] w2] calls]; [|reflexivity].
    destruct (run exec (h e) w2) as [[r' w3] calls']; reflexivity.
Qed.

Lemma run_await_ok (op : fs_op) (w w' : World) :
  exec op w = (None, w') -> run exec (await op) w = (inr tt, w', [op]).
Proof. intros H; simpl; rewrite H; reflexivity. Qed.

Lemma run_await_err (op : fs_op) (e : errno) (w w' : World) :
  exec op w = (Some e, w') ->
  run exec (await op) w = (inl (system_error e op), w', [op]).
Proof. intros H; simpl; rewrite H; reflexivity. Qed.

End RunLemmas.

Lemma code_is_system_error (c : errno) (e : errno) (op : fs_op) :
  code_is (string_of_list_ascii (errno_name c)) (system_error e op) = true
  <-> e = c.
Proof.
  unfold code_is, system_error; simpl. unfold str.
  rewrite list_ascii_of_string_of_list_ascii, str_eqb_eq.
  split; [|intros ->; reflexivity].
  destruct e, c; simpl; intros H; try reflexivity; discriminate H.
Qed.

Lemma code_is_ENOENT (e : errno) (op : fs_op) :
  code_is "ENOENT" (system_error e op) = true <-> e = ENOENT.
Proof. apply (code_is_system_error ENOENT). Qed.

Lemma code_is_EXDEV (e : errno) (op : fs_op) :
  code_is "EXDEV" (system_error e op) = true <-> e = EXDEV.
Proof. apply (code_is_system_error EXDEV). Qed.

(** A rejected filesystem call is never mistaken for the executor's own
    "Destination exists" error. *)
Lemma system_error_not_destination_exists (e : errno) (op : fs_op) :
  startsWith (str "Destination exists") (system_error e op).(err_message)
  = false.
Proof. destruct e; reflexivity. Qed.

Section Executor.

Variable World : Type.
Variable exec : fs_op -> World -> option errno * World.
Variable cwd : jsstring.

(** C1.  Dry run: with [apply = false], [renameFile] returns the computed
    destination path ([targetDir] joined with the new basename when
    [targetDir] is set, that is a non-empty string, the parent directory of
    the original joined with it otherwise), makes no filesystem call at all
    (no existence check, no directory creation, no deletion, no move) and
    leaves the environment as it was, whatever the environment holds at the
    destination. *)
Theorem renameFile_dry_run
        (originalPath newBasename : jsstring) (options : RenameOptions)
        (w : World) :
  options.(apply) = false ->
  run exec (renameFile cwd originalPath newBasename options) w =
  (inr (Path.join2
          match options.(targetDir) with
          | Some (c :: d) => c :: d
          | _ => Path.dirname originalPath
          end newBasename), w, []).
Proof.
  intros Happly. unfold renameFile, destination. rewrite Happly. simpl.
  destruct (str_eqb _ _); reflexivity.
Qed.

(** C2.  No-op: when the resolved original path equals the resolved
    destination path, [renameFile] returns the destination path and makes
    no filesystem call, with [apply = true] as with [apply = false]. *)
Theorem renameFile_same_path
        (originalPath newBasename : jsstring) (options : RenameOptions)
        (w : World) :
  Path.resolve cwd originalPath =
  Path.resolve cwd (snd (destination originalPath newBasename options)) ->
  run exec (renameFile cwd originalPath newBasename options) w =
  (inr (snd (destination originalPath newBasename options)), w, []).
Proof.
  intros Hsame. unfold renameFile.
  destruct (destination originalPath newBasename options) as [destDir newPath].
  simpl in *. rewrite Hsame, str_eqb_refl. reflexivity.
Qed.

(** C9.  The [dryRun] field is never read: two option records that agree
    on [apply], [replace] and [targetDir] give the same program, hence the
    same returned path, the same error and the same filesystem calls in
    every environment. *)
Theorem renameFile_ignores_dryRun
        (originalPath newBasename : jsstring) (o1 o2 : RenameOptions)
        (w : World) :
  o1.(apply) = o2.(apply) ->
  o1.(replace) = o2.(replace) ->
  o1.(targetDir) = o2.(targetDir) ->
  renameFile cwd originalPath newBasename o1 =
  renameFile cwd originalPath newBasename o2
  /\ run exec (renameFile cwd originalPath newBasename o1) w =
     run exec (renameFile cwd originalPath newBasename o2) w.
Proof.
  destruct o1 as [a1 d1 r1 t1], o2 as [a2 d2 r2 t2]; simpl.
  intros -> -> ->.
  assert (E : renameFile cwd originalPath newBasename (mkOptions a2 d1 r2 t2)
              = renameFile cwd originalPath newBasename (mkOptions a2 d2 r2 t2))
    by reflexivity.
  split; [exact E | rewrite E; reflexivity].
Qed.

(** The run of [renameFile] once it applies: the directory creation, the
    destination check, then the move. *)
Lemma renameFile_applies
      (originalPath newBasename : jsstring) (options : RenameOptions)
      (destDir newPath : jsstring) :
  destination originalPath newBasename options = (destDir, newPath) ->
  options.(apply) = true ->
  Path.resolve cwd originalPath <> Path.resolve cwd newPath ->
  renameFile cwd originalPath newBasename options =
  (ensureDir destDir ;; checkDestination options newPath ;;
   move originalPath newPath)%io.
Proof.
  intros Hd Happly Hneq. unfold renameFile. rewrite Hd, Happly.
  rewrite (str_eqb_neq _ _ Hneq). reflexivity.
Qed.

(** The destination check when the destination exists and may not be
    replaced. *)
Lemma checkDestination_conflict (options : RenameOptions)
      (newPath : jsstring) (w w' : World) :
  exec (Access newPath) w = (None, w') ->
  is_true options.(replace) = false ->
  run exec (checkDestination options newPath) w =
  (inl (new_Error (destination_exists_message newPath)), w',
   [Access newPath]).
Proof.
  intros Hacc Hrep. unfold checkDestination.
  rewrite run_try_catch, run_bind, (run_await_ok _ _ _ _ _ Hacc).
  rewrite Hrep. reflexivity.
Qed.

(** The destination check when the destination exists and is replaced. *)
Lemma checkDestination_replace (options : RenameOptions)
      (newPath : jsstring) (w w1 w2 : World) (r : option errno) :
  exec (Access newPath) w = (None, w1) ->
  is_true options.(replace) = true ->
  exec (Unlink newPath) w1 = (r, w2) ->
  run exec (checkDestination options newPath) w =
  (inr tt, w2, [Access newPath; Unlink newPath]).
Proof.
  intros Hacc Hrep Hun. unfold checkDestination.
  rewrite run_try_catch, run_bind, (run_await_ok _ _ _ _ _ Hacc).
  rewrite Hrep. cbn [negb]. rewrite run_bind. cbn [run].
  destruct r as [e|].
  - rewrite (run_await_err _ _ _ _ _ _ Hun). cbn [app].
    destruct (code_is "ENOENT" (system_error e (Unlink newPath))).
    + reflexivity.
    + rewrite system_error_not_destination_exists, andb_false_r.
      reflexivity.
  - rewrite (run_await_ok _ _ _ _ _ Hun). reflexivity.
Qed.

Lemma move_ok (originalPath newPath : jsstring) (w w' : World) :
  exec (Rename originalPath newPath) w = (None, w') ->
  run exec (move originalPath newPath) w =
  (inr newPath, w', [Rename originalPath newPath]).
Proof.
  intros H. unfold move.
  rewrite run_try_catch, run_bind, (run_await_ok _ _ _ _ _ H). reflexivity.
Qed.

Lemma move_exdev (originalPath newPath : jsstring) (w w1 : World) :
  exec (Rename originalPath newPath) w = (Some EXDEV, w1) ->
  run exec (move originalPath newPath) w =
  let '(r, w', calls) :=
    run exec (await (CopyFile originalPath newPath) ;;
              await (Unlink originalPath) ;; Ret newPath)%io w1 in
  (r, w', Rename originalPath newPath :: calls).
Proof.
  intros Hr. unfold move.
  rewrite run_try_catch, run_bind, (run_await_err _ _ _ _ _ _ Hr).
  replace (code_is "EXDEV" (system_error EXDEV (Rename originalPath newPath)))
    with true by (symmetry; apply code_is_EXDEV; reflexivity).
  cbn [run]. reflexivity.
Qed.

Lemma move_cross_device (originalPath newPath : jsstring)
      (w w1 w2 w3 : World) :
  exec (Rename originalPath newPath) w = (Some EXDEV, w1) ->
  exec (CopyFile originalPath newPath) w1 = (None, w2) ->
  exec (Unlink originalPath) w2 = (None, w3) ->
  run exec (move originalPath newPath) w =
  (inr newPath, w3,
   [Rename originalPath newPath; CopyFile originalPath newPath;
    Unlink originalPath]).
Proof.
  intros Hr Hc Hu. rewrite (move_exdev _ _ _ _ Hr).
  rewrite run_bind, (run_await_ok _ _ _ _ _ Hc).
  rewrite run_bind, (run_await_ok _ _ _ _ _ Hu). reflexivity.
Qed.

Lemma move_other_error (originalPath newPath : jsstring) (e : errno)
      (w w1 : World) :
  e <> EXDEV ->
  exec (Rename originalPath newPath) w = (Some e, w1) ->
  run exec (move originalPath newPath) w =
  (inl (system_error e (Rename originalPath newPath)), w1,
   [Rename originalPath newPath]).
Proof.
  intros Hne Hr. unfold move.
  rewrite run_try_catch, run_bind, (run_await_err _ _ _ _ _ _ Hr).
  destruct (code_is "EXDEV" (system_error e (Rename originalPath newPath)))
    eqn:E.
  - apply code_is_EXDEV in E; contradiction.
  - reflexivity.
Qed.

(** Every run of the move starts with the rename. *)
Lemma move_attempts_rename (originalPath newPath : jsstring) (w : World) :
  exists calls,
    snd (run exec (move originalPath newPath) w) =
    Rename originalPath newPath :: calls.
Proof.
  unfold move. rewrite run_try_catch, run_bind. cbn [await run].
  destruct (exec (Rename originalPath newPath) w) as [[e|] w1]; cbn.
  - destruct (run exec _ w1) as [[r w2] calls]. eexists; reflexivity.
  - eexists; reflexivity.
Qed.

End Executor.

Lemma errno_name_inj (a b : errno) : errno_name a = errno_name b -> a = b.
Proof. destruct a, b; simpl; intros H; try reflexivity; discriminate H. Qed.

Lemma inl_eq {A B} (a b : A) : @inl A B a = inl b -> a = b.
Proof. intros [= H]; exact H. Qed.

Lemma errno_eq_dec (a b : errno) : {a = b} + {a <> b}.
Proof. decide equality. Qed.

Lemma system_error_inj (e1 e2 : errno) (op1 op2 : fs_op) :
  system_error e1 op1 = system_error e2 op2 ->
  e1 = e2 /\ op_text op1 = op_text op2.
Proof.
  unfold system_error. intros [= Hc Hm].
  apply errno_name_inj in Hc. subst e2. split; [reflexivity|].
  apply app_inv_head in Hm. injection Hm as Hm.
  apply app_inv_head in Hm. injection Hm as Hm. exact Hm.
Qed.

Section Conflicts.

Variable World : Type.
Variable exec : fs_op -> World -> option errno * World.
Variable cwd : jsstring.

(** The outcome of the move is never the error of an [unlink] of another
    path. *)
Lemma move_error_not_unlink (originalPath newPath : jsstring) (e : errno)
      (w : World) :
  originalPath <> newPath ->
  fst (fst (run exec (move originalPath newPath) w)) <>
  inl (system_error e (Unlink newPath)).
Proof.
  intros Hne.
  destruct (exec (Rename originalPath newPath) w) as [[e1|] w1] eqn:Hr.
  - destruct (errno_eq_dec e1 EXDEV) as [->|Hx].
    + rewrite (move_exdev _ exec _ _ _ _ Hr), run_bind.
      destruct (exec (CopyFile originalPath newPath) w1) as [[e2|] w2] eqn:Hc.
      * rewrite (run_await_err _ _ _ _ _ _ Hc). cbn.
        intros H. apply inl_eq in H. apply system_error_inj in H. destruct H as [_ H].
        discriminate H.
      * rewrite (run_await_ok _ _ _ _ _ Hc), run_bind.
        destruct (exec (Unlink originalPath) w2) as [[e3|] w3] eqn:Hu.
        -- rewrite (run_await_err _ _ _ _ _ _ Hu). cbn.
           intros H. apply inl_eq in H. apply system_error_inj in H. destruct H as [_ H].
           cbn in H. injection H as H. apply app_inv_tail in H.
           contradiction.
        -- rewrite (run_await_ok _ _ _ _ _ Hu). cbn. discriminate.
    + rewrite (move_other_error _ exec _ _ _ _ _ Hx Hr). cbn.
      intros H. apply inl_eq in H. apply system_error_inj in H. destruct H as [_ H].
      discriminate H.
  - rewrite (move_ok _ exec _ _ _ _ Hr). cbn. discriminate.
Qed.

(** C10.  Applying with [replace = true]: when the destination exists and
    its deletion fails with an error other than ENOENT, the failure is
    swallowed.  The rename is still attempted, and the outcome of
    [renameFile] is the outcome of the move alone: it is never the error of
    the deletion. *)
Theorem renameFile_swallows_unlink_failure
        (originalPath newBasename : jsstring) (options : RenameOptions)
        (destDir newPath : jsstring) (e : errno) (w w1 w2 w3 : World) :
  destination originalPath newBasename options = (destDir, newPath) ->
  options.(apply) = true ->
  Path.resolve cwd originalPath <> Path.resolve cwd newPath ->
  is_true options.(replace) = true ->
  exec (Mkdir destDir) w = (None, w1) ->
  exec (Access newPath) w1 = (None, w2) ->
  exec (Unlink newPath) w2 = (Some e, w3) ->
  e <> ENOENT ->
  exists r w' calls,
    run exec (move originalPath newPath) w3 =
    (r, w', Rename originalPath newPath :: calls)
    /\ run exec (renameFile cwd originalPath newBasename options) w =
       (r, w', [Mkdir destDir; Access newPath; Unlink newPath;
                Rename originalPath newPath] ++ calls)
    /\ r <> inl (system_error e (Unlink newPath)).
Proof.
  intros Hd Happly Hneq Hrep Hmk Hacc Hun _.
  destruct (move_attempts_rename _ exec originalPath newPath w3) as [calls Hc].
  pose proof (move_error_not_unlink originalPath newPath e w3) as Hr.
  destruct (run exec (move originalPath newPath) w3) as [[r w'] calls'] eqn:Em.
  cbn in Hc, Hr. subst calls'.
  exists r, w', calls. split; [reflexivity|]. split.
  - rewrite (renameFile_applies cwd _ _ _ _ _ Hd Happly Hneq).
    unfold ensureDir.
    rewrite run_bind, (run_await_ok _ _ _ _ _ Hmk).
    rewrite run_bind, (checkDestination_replace _ exec _ _ _ _ _ _ Hacc Hrep Hun).
    rewrite Em. reflexivity.
  - apply Hr. intros ->. apply Hneq. reflexivity.
Qed.

(** C4.  Once the directory creation and the destination check have gone
    through: a rename that fails with EXDEV is followed by one copy of the
    original to the destination and the removal of the original, and
    [renameFile] returns the destination path; a rename that fails with any
    other code makes [renameFile] throw that very error, with no further
    call. *)
Theorem renameFile_cross_device_fallback
        (originalPath newBasename : jsstring) (options : RenameOptions)
        (destDir newPath : jsstring) (w w3 : World) (calls : list fs_op) :
  destination originalPath newBasename options = (destDir, newPath) ->
  options.(apply) = true ->
  Path.resolve cwd originalPath <> Path.resolve cwd newPath ->
  run exec (ensureDir destDir ;; checkDestination options newPath)%io w =
  (inr tt, w3, calls) ->
  (forall w4 w5 w6,
      exec (Rename originalPath newPath) w3 = (Some EXDEV, w4) ->
      exec (CopyFile originalPath newPath) w4 = (None, w5) ->
      exec (Unlink originalPath) w5 = (None, w6) ->
      run exec (renameFile cwd originalPath newBasename options) w =
      (inr newPath, w6,
       calls ++ [Rename originalPath newPath;
                 CopyFile originalPath newPath; Unlink originalPath]))
  /\ (forall e w4,
         e <> EXDEV ->
         exec (Rename originalPath newPath) w3 = (Some e, w4) ->
         run exec (renameFile cwd originalPath newBasename options) w =
         (inl (system_error e (Rename originalPath newPath)), w4,
          calls ++ [Rename originalPath newPath])).
Proof.
  intros Hd Happly Hneq Hpre.
  rewrite (renameFile_applies cwd _ _ _ _ _ Hd Happly Hneq).
  rewrite run_bind in Hpre.
  split.
  - intros w4 w5 w6 Hr Hc Hu.
    rewrite run_bind.
    destruct (run exec (ensureDir destDir) w) as [[[e0|[]] w1] c1];
      [discriminate Hpre|].
    rewrite run_bind.
    destruct (run exec (checkDestination options newPath) w1)
      as [[[e0|[]] w2] c2]; [discriminate Hpre|].
    injection Hpre as <- <-.
    rewrite (move_cross_device _ exec _ _ _ _ _ _ Hr Hc Hu).
    rewrite app_assoc. reflexivity.
  - intros e w4 Hne Hr.
    rewrite run_bind.
    destruct (run exec (ensureDir destDir) w) as [[[e0|[]] w1] c1];
      [discriminate Hpre|].
    rewrite run_bind.
    destruct (run exec (checkDestination options newPath) w1)
      as [[[e0|[]] w2] c2]; [discriminate Hpre|].
    injection Hpre as <- <-.
    rewrite (move_other_error _ exec _ _ _ _ _ Hne Hr).
    rewrite app_assoc. reflexivity.
Qed.

(** What the environment promises about file contents: [read w p] is the
    content of the file at [p], if there is one. *)
Variable read : World -> jsstring -> option jsstring.

Hypothesis mkdir_keeps_files : forall d w w',
    exec (Mkdir d) w = (None, w') -> forall q, read w' q = read w q.
Hypothesis access_keeps_files : forall p w w',
    exec (Access p) w = (None, w') -> forall q, read w' q = read w q.
Hypothesis unlink_removes : forall p w w',
    exec (Unlink p) w = (None, w') ->
    read w' p = None
    /\ forall q, Path.resolve cwd q <> Path.resolve cwd p ->
                 read w' q = read w q.
Hypothesis rename_moves : forall a b w w',
    exec (Rename a b) w = (None, w') -> read w' b = read w a.


End Conflicts.

(** ** The reference environment keeps the promises about file contents *)







(** ** Concrete runs *)

Ltac differ := let H := fresh in intro H; vm_compute in H; discriminate H.

(** A dry run over a disk that already holds the destination. *)
Lemma renameFile_dry_run_witness :
  run Mock.exec
      (renameFile Demo.cwd Demo.original Demo.newName (Demo.opts false None))
      (Demo.disk []) =
  (inr Demo.dest, Demo.disk [], []).
Proof.
  exact (renameFile_dry_run Mock.world Mock.exec Demo.cwd Demo.original
           Demo.newName (Demo.opts false None) (Demo.disk []) eq_refl).
Defined.

(** Renaming a file to its own name, applying. *)
Lemma renameFile_same_path_witness :
  run Mock.exec
      (renameFile Demo.cwd Demo.dest Demo.newName (mkOptions true None None None))
      (Demo.disk []) =
  (inr Demo.dest, Demo.disk [], []).
Proof.
  exact (renameFile_same_path Mock.world Mock.exec Demo.cwd Demo.dest
           Demo.newName (mkOptions true None None None) (Demo.disk []) eq_refl).
Defined.

Lemma renameFile_ignores_dryRun_witness :
  renameFile Demo.cwd Demo.original Demo.newName
             (mkOptions true (Some true) None (Some Demo.target)) =
  renameFile Demo.cwd Demo.original Demo.newName
             (mkOptions true (Some false) None (Some Demo.target))
  /\ run Mock.exec
         (renameFile Demo.cwd Demo.original Demo.newName
                     (mkOptions true (Some true) None (Some Demo.target)))
         (Demo.disk []) =
     run Mock.exec
         (renameFile Demo.cwd Demo.original Demo.newName
                     (mkOptions true (Some false) None (Some Demo.target)))
         (Demo.disk []).
Proof.
  exact (renameFile_ignores_dryRun Mock.world Mock.exec Demo.cwd Demo.original
           Demo.newName
           (mkOptions true (Some true) None (Some Demo.target))
           (mkOptions true (Some false) None (Some Demo.target))
           (Demo.disk []) eq_refl eq_refl eq_refl).
Defined.

(** The deletion of the destination is refused (EPERM); the rename goes
    ahead. *)
Lemma renameFile_swallows_unlink_failure_witness :
  exists r w' calls,
    run Mock.exec (move Demo.original Demo.dest)
        (Demo.disk [(Unlink Demo.dest, EPERM)]) =
    (r, w', Rename Demo.original Demo.dest :: calls)
    /\ run Mock.exec
           (renameFile Demo.cwd Demo.original Demo.newName
                       (Demo.opts true (Some true)))
           (Demo.disk [(Unlink Demo.dest, EPERM)]) =
       (r, w', [Mkdir Demo.target; Access Demo.dest; Unlink Demo.dest;
                Rename Demo.original Demo.dest] ++ calls)
    /\ r <> inl (system_error EPERM (Unlink Demo.dest)).
Proof.
  apply (renameFile_swallows_unlink_failure Mock.world Mock.exec Demo.cwd
           Demo.original Demo.newName (Demo.opts true (Some true))
           Demo.target Demo.dest EPERM
           (Demo.disk [(Unlink Demo.dest, EPERM)])
           (Demo.disk [(Unlink Demo.dest, EPERM)])
           (Demo.disk [(Unlink Demo.dest, EPERM)])
           (Demo.disk [(Unlink Demo.dest, EPERM)]));
    try reflexivity; try differ; discriminate.
Defined.

(** A rename across devices, and a rename refused for another reason. *)
Lemma renameFile_cross_device_fallback_witness :
  run Mock.exec
      (renameFile Demo.cwd Demo.original Demo.newName
                  (Demo.opts true (Some true)))
      (Demo.disk [(Rename Demo.original Demo.dest, EXDEV)]) =
  (inr Demo.dest,
   Mock.mkWorld [(Demo.dest, str "episode")]
                [(Rename Demo.original Demo.dest, EXDEV)],
   [Mkdir Demo.target; Access Demo.dest; Unlink Demo.dest;
    Rename Demo.original Demo.dest; CopyFile Demo.original Demo.dest;
    Unlink Demo.original])
  /\ run Mock.exec
         (renameFile Demo.cwd Demo.original Demo.newName
                     (Demo.opts true (Some true)))
         (Demo.disk [(Rename Demo.original Demo.dest, EACCES)]) =
     (inl (system_error EACCES (Rename Demo.original Demo.dest)),
      Mock.mkWorld [(Demo.original, str "episode")]
                   [(Rename Demo.original Demo.dest, EACCES)],
      [Mkdir Demo.target; Access Demo.dest; Unlink Demo.dest;
       Rename Demo.original Demo.dest]).
Proof.
  split.
  - apply (proj1 (renameFile_cross_device_fallback Mock.world Mock.exec
             Demo.cwd Demo.original Demo.newName (Demo.opts true (Some true))
             Demo.target Demo.dest
             (Demo.disk [(Rename Demo.original Demo.dest, EXDEV)])
             (Mock.mkWorld [(Demo.original, str "episode")]
                           [(Rename Demo.original Demo.dest, EXDEV)])
             [Mkdir Demo.target; Access Demo.dest; Unlink Demo.dest]
             eq_refl eq_refl ltac:(differ) eq_refl)
           (Mock.mkWorld [(Demo.original, str "episode")]
                         [(Rename Demo.original Demo.dest, EXDEV)])
           (Mock.mkWorld [(Demo.dest, str "episode");
                          (Demo.original, str "episode")]
                         [(Rename Demo.original Demo.dest, EXDEV)])
           (Mock.mkWorld [(Demo.dest, str "episode")]
                         [(Rename Demo.original Demo.dest, EXDEV)])
           eq_refl eq_refl eq_refl).
  - apply (proj2 (renameFile_cross_device_fallback Mock.world Mock.exec
             Demo.cwd Demo.original Demo.newName (Demo.opts true (Some true))
             Demo.target Demo.dest
             (Demo.disk [(Rename Demo.original Demo.dest, EACCES)])
             (Mock.mkWorld [(Demo.original, str "episode")]
                           [(Rename Demo.original Demo.dest, EACCES)])
             [Mkdir Demo.target; Access Demo.dest; Unlink Demo.dest]
             eq_refl eq_refl ltac:(differ) eq_refl)
           EACCES
           (Mock.mkWorld [(Demo.original, str "episode")]
                         [(Rename Demo.original Demo.dest, EACCES)])
           ltac:(discriminate) eq_refl).
Defined.


(** ** Node's [path] on names without directory separator *)

Lemma len_app (a b : jsstring) : len (a ++ b) = (len a + len b)%Z.
Proof. unfold len. rewrite length_app. lia. Qed.

Lemma len_rev (a : jsstring) : len (rev a) = len a.
Proof. unfold len. rewrite length_rev. reflexivity. Qed.

Lemma len_cons (c : ascii) (a : jsstring) : len (c :: a) = (len a + 1)%Z.
Proof. unfold len. simpl length. lia. Qed.

Lemma len_nonneg (a : jsstring) : (0 <= len a)%Z.
Proof. unfold len. lia. Qed.

Lemma slice_suffix (a b : jsstring) : slice (a ++ b) (len a) (len (a ++ b)) = b.
Proof.
  unfold slice. rewrite len_app.
  replace (Z.to_nat (len a + len b - len a)) with (length b) by (unfold len; lia).
  replace (Z.to_nat (len a)) with (length a) by (unfold len; lia).
  rewrite skipn_app, skipn_all, Nat.sub_diag. simpl. apply firstn_all.
Qed.

Lemma slice_prefix (a b : jsstring) : slice (a ++ b) 0 (len a) = a.
Proof.
  unfold slice. simpl.
  replace (Z.to_nat (len a - 0)) with (length a) by (unfold len; lia).
  rewrite firstn_app, firstn_all, Nat.sub_diag. simpl. apply app_nil_r.
Qed.

Lemma slice_all (a : jsstring) : slice a 0 (len a) = a.
Proof.
  unfold slice. simpl.
  replace (Z.to_nat (len a - 0)) with (length a) by (unfold len; lia).
  apply firstn_all.
Qed.

Section PathLemmas.

Local Open Scope Z_scope.

(** The scan of [extname] over characters that are neither dot nor slash,
    before any dot has been seen. *)
Lemma extname_scan_plain (r rest : jsstring) (i end_ : Z) (ms : bool) :
  no_slash r = true -> no_dot r = true -> r <> [] -> len r <= i + 1 ->
  Path.extname_scan (r ++ rest) i (-1) end_ ms 0 =
  Path.extname_scan rest (i - len r) (-1)
                    (if end_ =? -1 then i + 1 else end_)
                    (if end_ =? -1 then false else ms) 0.
Proof.
  revert i end_ ms. induction r as [|c r IH]; intros i end_ ms Hs Hd Hne Hi;
    [contradiction|].
  simpl in Hs, Hd. apply andb_true_iff in Hs, Hd.
  destruct Hs as [Hc Hs], Hd as [Hc' Hd].
  apply negb_true_iff in Hc, Hc'.
  rewrite len_cons in *. simpl app. cbn [Path.extname_scan]. rewrite Hc, Hc'.
  cbn [negb].
  destruct r as [|c2 r].
  - simpl app. replace (i - (len [] + 1)) with (i - 1) by (unfold len; simpl; lia).
    reflexivity.
  - pose proof (len_nonneg r) as Hr. rewrite len_cons in Hi.
    rewrite IH by (auto; try discriminate; rewrite ?len_cons; lia).
    replace (i - 1 - len (c2 :: r)) with (i - (len (c2 :: r) + 1)) by lia.
    destruct (end_ =? -1) eqn:E.
    + replace (i + 1 =? -1) with false by (symmetry; apply Z.eqb_neq; lia).
      reflexivity.
    + rewrite E. reflexivity.
Qed.

(** The scan of [extname] once the dot has been seen. *)
Lemma extname_scan_after_dot (r : jsstring) (i sd end_ : Z) (ms : bool) (pds : Z) :
  no_slash r = true -> sd <> -1 -> end_ <> -1 ->
  Path.extname_scan r i sd end_ ms pds =
  (sd, 0, end_, fold_left (fun _ c => if is_dot c then 1 else -1) r pds).
Proof.
  revert i ms pds. induction r as [|c r IH]; intros i ms pds Hs Hsd He;
    [reflexivity|].
  simpl in Hs. apply andb_true_iff in Hs. destruct Hs as [Hc Hs].
  apply negb_true_iff in Hc.
  cbn [Path.extname_scan fold_left]. rewrite Hc.
  replace (end_ =? -1) with false by (symmetry; apply Z.eqb_neq; lia).
  replace (sd =? -1) with false by (symmetry; apply Z.eqb_neq; lia).
  cbn [negb].
  destruct (is_dot c).
  - rewrite IH by auto. f_equal. f_equal. destruct (pds =? 1) eqn:E; cbn [negb].
    + apply Z.eqb_eq in E. subst. reflexivity.
    + reflexivity.
  - rewrite IH by auto. reflexivity.
Qed.

Lemma forallb_rev {A} (p : A -> bool) (l : list A) :
  forallb p (rev l) = forallb p l.
Proof.
  induction l as [|x l IH]; [reflexivity|].
  simpl. rewrite forallb_app, IH. simpl. rewrite andb_true_r. apply andb_comm.
Qed.

Lemma no_slash_app (a b : jsstring) :
  no_slash (a ++ b) = no_slash a && no_slash b.
Proof. apply forallb_app. Qed.

Lemma no_slash_rev (a : jsstring) : no_slash (rev a) = no_slash a.
Proof. apply forallb_rev. Qed.

Lemma no_dot_rev (a : jsstring) : no_dot (rev a) = no_dot a.
Proof. apply forallb_rev. Qed.

Lemma rev_nonempty {A} (l : list A) : l <> [] -> rev l <> [].
Proof.
  intros H E. apply H. rewrite <- (rev_involutive l), E. reflexivity.
Qed.

(** A name without dot has no extension. *)
Lemma extname_no_dot (f : jsstring) :
  no_slash f = true -> no_dot f = true -> Path.extname f = [].
Proof.
  intros Hs Hd. unfold Path.extname.
  destruct f as [|c f]; [reflexivity|].
  rewrite <- (app_nil_r (rev (c :: f))).
  rewrite extname_scan_plain.
  - reflexivity.
  - rewrite no_slash_rev; exact Hs.
  - rewrite no_dot_rev; exact Hd.
  - apply rev_nonempty; discriminate.
  - rewrite len_rev. lia.
Qed.

Lemma extname_scan_dot (rest : jsstring) (i end_ : Z) (ms : bool) (pds : Z) :
  Path.extname_scan ("."%char :: rest) i (-1) end_ ms pds =
  Path.extname_scan rest (i - 1) i (if end_ =? -1 then i + 1 else end_)
                    (if end_ =? -1 then false else ms) pds.
Proof. reflexivity. Qed.


Lemma fold_left_last_state (r : jsstring) (c : ascii) (pds : Z) :
  fold_left (fun (_ : Z) (c : ascii) => if is_dot c then 1 else -1)
            (r ++ [c]) pds
  = if is_dot c then 1 else -1.
Proof. rewrite fold_left_app. reflexivity. Qed.

(** The extension of [n ++ "." ++ e]: the text from the last dot on. *)
Lemma extname_dotted (n e : jsstring) :
  no_slash n = true -> no_slash e = true -> no_dot e = true ->
  n <> [] -> ~ (n = ["."%char] /\ e = []) ->
  Path.extname (n ++ "."%char :: e) = "."%char :: e.
Proof.
  intros Hn Hs Hd Hne Hdd. unfold Path.extname.
  rewrite rev_app_distr. change (rev ("."%char :: e)) with (rev e ++ ["."%char]).
  rewrite <- app_assoc. simpl app.
  assert (Hlen : len (n ++ "."%char :: e) = len n + 1 + len e)
    by (rewrite len_app, len_cons; lia).
  pose proof (len_nonneg n) as Hn0. pose proof (len_nonneg e) as He0.
  assert (Hscan :
    Path.extname_scan (rev e ++ "."%char :: rev n)
                      (len (n ++ "."%char :: e) - 1) (-1) (-1) true 0 =
    (len n, 0, len (n ++ "."%char :: e),
     fold_left (fun (_ : Z) (c : ascii) => if is_dot c then 1 else -1)
               (rev n) 0)).
  { destruct e as [|c e].
    - simpl app. rewrite extname_scan_dot. rewrite ?Z.eqb_refl. cbv iota.
      rewrite extname_scan_after_dot.
      + f_equal. f_equal; [f_equal|]; rewrite Hlen; unfold len; simpl; lia.
      + rewrite no_slash_rev; exact Hn.
      + rewrite Hlen. unfold len at 2. simpl. lia.
      + rewrite Hlen. unfold len at 2. simpl. lia.
    - rewrite extname_scan_plain.
      + rewrite extname_scan_dot. rewrite ?Z.eqb_refl. cbv iota.
        replace (len (n ++ "."%char :: c :: e) - 1 + 1 =? -1) with false
          by (symmetry; apply Z.eqb_neq; lia).
        rewrite extname_scan_after_dot.
        * f_equal. f_equal; [f_equal|]; rewrite ?len_rev; lia.
        * rewrite no_slash_rev; exact Hn.
        * rewrite len_rev; lia.
        * lia.
      + rewrite no_slash_rev; exact Hs.
      + rewrite no_dot_rev; exact Hd.
      + apply rev_nonempty; discriminate.
      + rewrite len_rev. lia. }
  rewrite Hscan. clear Hscan.
  destruct n as [|c0 n]; [contradiction|].
  change (rev (c0 :: n)) with (rev n ++ [c0]).
  rewrite fold_left_last_state.
  replace (len (c0 :: n) =? -1) with false
    by (symmetry; apply Z.eqb_neq; rewrite len_cons; pose proof (len_nonneg n); lia).
  replace (len ((c0 :: n) ++ "."%char :: e) =? -1) with false
    by (symmetry; apply Z.eqb_neq; lia).
  cbn [orb].
  assert (Hslice : slice ((c0 :: n) ++ "."%char :: e) (len (c0 :: n))
                         (len ((c0 :: n) ++ "."%char :: e)) = "."%char :: e)
    by apply slice_suffix.
  destruct (is_dot c0) eqn:Ec0.
  - cbn [Z.eqb orb andb].
    destruct (len (c0 :: n) =? len ((c0 :: n) ++ "."%char :: e) - 1) eqn:E1;
      [|exact Hslice].
    destruct (len (c0 :: n) =? 0 + 1) eqn:E2; [|exact Hslice].
    exfalso. apply Hdd.
    apply Z.eqb_eq in E1, E2. rewrite len_cons in E2.
    assert (len n = 0) by lia. assert (len e = 0) by lia.
    destruct n; [|unfold len in *; simpl in *; lia].
    destruct e; [|unfold len in *; simpl in *; lia].
    apply chr_eqb_eq in Ec0. subst c0. split; reflexivity.
  - cbn [Z.eqb orb andb]. exact Hslice.
Qed.

(** The scan of [basename] once the suffix is settled. *)
Lemma basename_suffix_scan_done (r : jsstring) (i end_ fnse : Z) (ms : bool) :
  no_slash r = true -> fnse <> -1 ->
  Path.basename_suffix_scan r i [] end_ fnse ms = (0, end_, fnse).
Proof.
  revert i ms. induction r as [|c r IH]; intros i ms Hs Hf; [reflexivity|].
  simpl in Hs. apply andb_true_iff in Hs. destruct Hs as [Hc Hs].
  apply negb_true_iff in Hc.
  cbn [Path.basename_suffix_scan]. rewrite Hc.
  replace (fnse =? -1) with false by (symmetry; apply Z.eqb_neq; lia).
  apply IH; assumption.
Qed.

(** The scan of [basename] over the suffix itself. *)
Lemma basename_suffix_scan_match (rs rest : jsstring) (i end_ fnse : Z)
      (ms : bool) :
  no_slash rs = true -> rs <> [] -> len rs <= i + 1 ->
  Path.basename_suffix_scan (rs ++ rest) i rs end_ fnse ms =
  Path.basename_suffix_scan rest (i - len rs) [] (i - len rs + 1)
                            (if fnse =? -1 then i + 1 else fnse)
                            (if fnse =? -1 then false else ms).
Proof.
  revert i end_ fnse ms.
  induction rs as [|c rs IH]; intros i end_ fnse ms Hs Hne Hi; [contradiction|].
  simpl in Hs. apply andb_true_iff in Hs. destruct Hs as [Hc Hs].
  apply negb_true_iff in Hc.
  rewrite len_cons in *. pose proof (len_nonneg rs) as Hrs.
  simpl app. cbn [Path.basename_suffix_scan]. rewrite Hc, chr_eqb_refl.
  destruct rs as [|c2 rs].
  - simpl app. f_equal; unfold len; simpl; lia.
  - rewrite IH by (auto; try discriminate; lia).
    replace (i - 1 - len (c2 :: rs)) with (i - (len (c2 :: rs) + 1)) by lia.
    destruct (fnse =? -1) eqn:E.
    + replace (i + 1 =? -1) with false by (symmetry; apply Z.eqb_neq; lia).
      reflexivity.
    + rewrite E. reflexivity.
Qed.

Lemma str_eqb_app_self (n x : jsstring) :
  n <> [] -> str_eqb x (n ++ x) = false.
Proof.
  intros Hn. apply str_eqb_neq. intros E.
  apply (f_equal (@length ascii)) in E. rewrite length_app in E.
  destruct n; [contradiction|]. simpl in E. lia.
Qed.

(** [basename] removes a suffix of a name. *)
Lemma basename_strip (n x : jsstring) :
  no_slash n = true -> no_slash x = true -> x <> [] ->
  Path.basename (n ++ x) x = n.
Proof.
  intros Hn Hx Hne. unfold Path.basename.
  pose proof (len_nonneg n) as Hn0. pose proof (len_nonneg x) as Hx0.
  assert (Hx1 : 0 < len x)
    by (destruct x; [contradiction | rewrite len_cons; pose proof (len_nonneg x); lia]).
  replace (0 <? len x) with true by (symmetry; apply Z.ltb_lt; lia).
  replace (len x <=? len (n ++ x)) with true
    by (symmetry; apply Z.leb_le; rewrite len_app; lia).
  cbn [andb].
  destruct n as [|c n]; [simpl app; rewrite str_eqb_refl; reflexivity|].
  rewrite str_eqb_app_self by discriminate.
  rewrite rev_app_distr, basename_suffix_scan_match.
  - rewrite basename_suffix_scan_done.
    + rewrite Z.eqb_refl. cbv iota.
      replace (len ((c :: n) ++ x) - 1 - len (rev x) + 1) with (len (c :: n))
        by (rewrite len_app, len_rev; lia).
      replace (0 =? len (c :: n)) with false
        by (symmetry; apply Z.eqb_neq; rewrite len_cons; pose proof (len_nonneg n); lia).
      replace (len (c :: n) =? -1) with false
        by (symmetry; apply Z.eqb_neq; lia).
      apply slice_prefix.
    + rewrite no_slash_rev; exact Hn.
    + rewrite Z.eqb_refl. rewrite len_app. lia.
  - rewrite no_slash_rev; exact Hx.
  - apply rev_nonempty; exact Hne.
  - rewrite len_rev, len_app. lia.
Qed.

Lemma basename_scan_done (r : jsstring) (i end_ : Z) (ms : bool) :
  no_slash r = true -> end_ <> -1 ->
  Path.basename_scan r i end_ ms = (0, end_).
Proof.
  revert i ms. induction r as [|c r IH]; intros i ms Hs He; [reflexivity|].
  simpl in Hs. apply andb_true_iff in Hs. destruct Hs as [Hc Hs].
  apply negb_true_iff in Hc.
  cbn [Path.basename_scan]. rewrite Hc.
  replace (end_ =? -1) with false by (symmetry; apply Z.eqb_neq; lia).
  apply IH; assumption.
Qed.

(** [basename] without suffix leaves a name as it is. *)
Lemma basename_plain (f : jsstring) :
  no_slash f = true -> Path.basename f [] = f.
Proof.
  intros Hs. unfold Path.basename.
  change (0 <? len []) with false. cbn [andb].
  destruct (rev f) as [|c r] eqn:E.
  - apply (f_equal (@rev ascii)) in E. rewrite rev_involutive in E.
    subst f. reflexivity.
  - assert (Hr : no_slash (c :: r) = true)
      by (rewrite <- E, no_slash_rev; exact Hs).
    simpl in Hr. apply andb_true_iff in Hr. destruct Hr as [Hc Hr].
    apply negb_true_iff in Hc.
    cbn [Path.basename_scan]. rewrite Hc. rewrite Z.eqb_refl.
    assert (Hl : 0 < len f).
    { rewrite <- len_rev, E, len_cons. pose proof (len_nonneg r). lia. }
    rewrite basename_scan_done by (auto; lia).
    replace (len f - 1 + 1) with (len f) by lia.
    replace (len f =? -1) with false by (symmetry; apply Z.eqb_neq; lia).
    apply slice_all.
Qed.



End PathLemmas.

(** ** The matcher *)

Lemma orelse_some {A} (a b : option A) (x : A) :
  orelse a b = Some x -> a = Some x \/ (a = None /\ b = Some x).
Proof. destruct a; simpl; intros H; [left | right]; auto. Qed.

Lemma is_some_orelse {A} (a b : option A) :
  is_some (orelse a b) = is_some a || is_some b.
Proof. destruct a; reflexivity. Qed.

(** *** Soundness: the matcher returns matches *)

Lemma rep_sound {A} (p : ascii -> bool) (g : bool) (s : jsstring) :
  forall (lo : nat) (hi : option nat) (k : jsstring -> jsstring -> option A)
         (res : A),
    rep p g lo hi s k = Some res ->
    exists m s', s = m ++ s' /\ forallb p m = true /\ lo <= length m
                 /\ (forall h, hi = Some h -> length m <= h)
                 /\ k m s' = Some res.
Proof.
  induction s as [|c s IH]; intros lo hi k res H.
  - assert (Hstop : (if Nat.eqb lo 0 then k [] [] else None) = Some res).
    { simpl in H. destruct g; [exact H|].
      apply orelse_some in H. destruct H as [H | [_ H]]; [exact H | discriminate]. }
    destruct (Nat.eqb lo 0) eqn:E; [|discriminate].
    apply Nat.eqb_eq in E. subst lo.
    exists [], []. repeat split; auto. intros; simpl; lia.
  - assert (Hcases :
      (if Nat.eqb lo 0 then k [] (c :: s) else None) = Some res
      \/ (if p c && can_more hi
          then rep p g (pred lo) (option_map pred hi) s
                   (fun m r => k (c :: m) r)
          else None) = Some res).
    { simpl in H. destruct g; apply orelse_some in H;
        destruct H as [H | [_ H]]; auto. }
    destruct Hcases as [Hstop | Hmore].
    + destruct (Nat.eqb lo 0) eqn:E; [|discriminate].
      apply Nat.eqb_eq in E. subst lo.
      exists [], (c :: s). repeat split; auto. intros; simpl; lia.
    + destruct (p c && can_more hi) eqn:E; [|discriminate].
      apply andb_true_iff in E. destruct E as [Hp Hcan].
      apply IH in Hmore.
      destruct Hmore as (m & s' & -> & Hm & Hlo & Hhi & Hk).
      exists (c :: m), s'. simpl. rewrite Hp, Hm.
      repeat split; auto; [lia|].
      intros h ->. destruct h as [|h]; [discriminate Hcan|].
      specialize (Hhi h eq_refl). lia.
Qed.

Lemma matcher_sound (r : regex) :
  forall (s : jsstring) (caps : captures)
         (k : jsstring -> jsstring -> captures -> option captures)
         (res : captures),
    matcher r s caps k = Some res ->
    exists m s' caps', s = m ++ s' /\ Matches r m caps caps'
                       /\ k m s' caps' = Some res.
Proof.
  induction r as [p|p lo hi g|r1 IH1 r2 IH2|r1 IH1 r2 IH2|n r IH];
    intros s caps k res H; simpl in H.
  - destruct s as [|c s]; [discriminate|].
    destruct (p c) eqn:E; [|discriminate].
    exists [c], s, caps. repeat split; auto. constructor; exact E.
  - apply rep_sound in H. destruct H as (m & s' & -> & Hm & Hlo & Hhi & Hk).
    exists m, s', caps. repeat split; auto. constructor; auto.
  - apply IH1 in H. destruct H as (m1 & s1 & c1 & -> & M1 & H).
    apply IH2 in H. destruct H as (m2 & s2 & c2 & -> & M2 & H).
    exists (m1 ++ m2), s2, c2. rewrite app_assoc. repeat split; auto.
    econstructor; eauto.
  - apply orelse_some in H. destruct H as [H | [_ H]].
    + apply IH1 in H. destruct H as (m & s' & c' & -> & M & H).
      exists m, s', c'. repeat split; auto. apply M_alt_l; exact M.
    + apply IH2 in H. destruct H as (m & s' & c' & -> & M & H).
      exists m, s', c'. repeat split; auto. apply M_alt_r; exact M.
  - apply IH in H. destruct H as (m & s' & c' & -> & M & H).
    exists m, s', ((n, m) :: c'). repeat split; auto. constructor; exact M.
Qed.



(** *** Failure does not depend on the continuation's result *)

Lemma rep_is_some_mono {A B} (p : ascii -> bool) (g : bool) (s : jsstring) :
  forall (lo : nat) (hi : option nat)
         (k1 : jsstring -> jsstring -> option A)
         (k2 : jsstring -> jsstring -> option B),
    (forall m s', is_some (k1 m s') = true -> is_some (k2 m s') = true) ->
    is_some (rep p g lo hi s k1) = true ->
    is_some (rep p g lo hi s k2) = true.
Proof.
  induction s as [|c s IH]; intros lo hi k1 k2 Hk; simpl.
  - destruct g; simpl; destruct (Nat.eqb lo 0); auto;
      rewrite !is_some_orelse, !orb_false_r; apply Hk.
  - assert (Hmore :
      is_some (if p c && can_more hi
               then rep p g (pred lo) (option_map pred hi) s
                        (fun m r => k1 (c :: m) r)
               else None) = true ->
      is_some (if p c && can_more hi
               then rep p g (pred lo) (option_map pred hi) s
                        (fun m r => k2 (c :: m) r)
               else None) = true).
    { destruct (p c && can_more hi); [|auto].
      apply IH. intros m s'. apply Hk. }
    assert (Hstop :
      is_some (if Nat.eqb lo 0 then k1 [] (c :: s) else None) = true ->
      is_some (if Nat.eqb lo 0 then k2 [] (c :: s) else None) = true).
    { destruct (Nat.eqb lo 0); [apply Hk | auto]. }
    destruct g; rewrite !is_some_orelse, !orb_true_iff; tauto.
Qed.

Lemma matcher_is_some_mono (r : regex) :
  forall (s : jsstring) (c1 c2 : captures)
         (k1 k2 : jsstring -> jsstring -> captures -> option captures),
    (forall m s' c c', is_some (k1 m s' c) = true ->
                       is_some (k2 m s' c') = true) ->
    is_some (matcher r s c1 k1) = true ->
    is_some (matcher r s c2 k2) = true.
Proof.
  induction r as [p|p lo hi g|r1 IH1 r2 IH2|r1 IH1 r2 IH2|n r IH];
    intros s c1 c2 k1 k2 Hk; simpl.
  - destruct s as [|c s]; [auto|]. destruct (p c); [apply Hk | auto].
  - apply rep_is_some_mono. intros m s'. apply Hk.
  - apply IH1. intros m s' c c'. apply IH2. intros m2 s2 d d'. apply Hk.
  - rewrite !is_some_orelse, !orb_true_iff.
    intros [H|H]; [left; eapply IH1 | right; eapply IH2]; eauto.
  - apply IH. intros m s' c c'. apply Hk.
Qed.

(** Where the token does not match, no continuation makes it match. *)
Lemma matches_at_false (r : regex) (s : jsstring) (caps : captures)
      (k : jsstring -> jsstring -> captures -> option captures) :
  matches_at r s = false -> matcher r s caps k = None.
Proof.
  unfold matches_at. intros H.
  destruct (matcher r s caps k) eqn:E; [|reflexivity].
  assert (is_some (matcher r s [] (fun _ _ caps0 => Some caps0)) = true).
  { apply (matcher_is_some_mono r s caps [] k); [reflexivity | rewrite E; reflexivity]. }
  congruence.
Qed.

(** *** The lazy title prefix and the greedy separator run *)

(** A lazy repetition hands over to its continuation at the first length
    the continuation accepts. *)
Lemma rep_lazy_first {A} (p : ascii -> bool) (g : jsstring) :
  forall (rest : jsstring) (lo : nat) (k : jsstring -> jsstring -> option A)
         (x : A),
    forallb p g = true ->
    lo <= 1 -> (lo = 1 -> g <> []) ->
    (forall a b, g = a ++ b -> lo <= length a -> b <> [] ->
                 k a (b ++ rest) = None) ->
    k g rest = Some x ->
    rep p false lo None (g ++ rest) k = Some x.
Proof.
  induction g as [|c g IH]; intros rest lo k x Hp Hlo Hne Hfail Hk.
  - assert (lo = 0) by (destruct lo as [|[|lo]]; [reflexivity | exfalso; apply Hne; reflexivity | lia]).
    subst lo. simpl app. destruct rest; simpl; rewrite Hk; reflexivity.
  - simpl in Hp. apply andb_true_iff in Hp. destruct Hp as [Hc Hp].
    simpl app. cbn [rep]. rewrite Hc. cbn [can_more andb option_map].
    assert (Hstop : (if Nat.eqb lo 0 then k [] (c :: g ++ rest) else None) = None).
    { destruct (Nat.eqb lo 0) eqn:E; [|reflexivity].
      apply Nat.eqb_eq in E. subst lo.
      apply (Hfail [] (c :: g)); [reflexivity | simpl; lia | discriminate]. }
    rewrite Hstop. cbn [orelse].
    apply IH; auto.
    + destruct lo; simpl; lia.
    + destruct lo as [|[|lo]]; simpl; intros; try discriminate; lia.
    + intros a b -> _ Hb. apply (Hfail (c :: a) b); auto. simpl. lia.
Qed.

(** A greedy repetition reads a whole run when nothing of the class follows
    it and the continuation accepts. *)
Lemma rep_greedy_run {A} (p : ascii -> bool) (run : jsstring) :
  forall (t : jsstring) (k : jsstring -> jsstring -> option A) (x : A),
    forallb p run = true ->
    match t with c :: _ => p c = false | [] => True end ->
    k run t = Some x ->
    rep p true 0 None (run ++ t) k = Some x.
Proof.
  induction run as [|c run IH]; intros t k x Hp Ht Hk.
  - simpl app. destruct t as [|c t]; simpl.
    + rewrite Hk. reflexivity.
    + rewrite Ht. simpl. exact Hk.
  - simpl in Hp. apply andb_true_iff in Hp. destruct Hp as [Hc Hp].
    simpl app. cbn [rep]. rewrite Hc. cbn [can_more andb option_map pred].
    rewrite (IH t (fun m r => k (c :: m) r) x); auto.
Qed.

(** ** Character classes *)

Ltac all_chars c :=
  destruct c as [[] [] [] [] [] [] [] []]; try reflexivity; try discriminate.


Lemma digit_not_space (c : ascii) : is_digit c = true -> is_space c = false.
Proof. all_chars c. Qed.

Lemma digit_not_sign (c : ascii) :
  is_digit c = true -> chr_eqb c "-" = false /\ chr_eqb c "+" = false.
Proof. all_chars c; intros _; split; reflexivity. Qed.

Lemma digit_range (c : ascii) :
  is_digit c = true -> (0 <= Z.of_N (char_code c) - 48 <= 9)%Z.
Proof.
  unfold is_digit. intros H. apply andb_true_iff in H. destruct H as [H1 H2].
  apply N.leb_le in H1, H2. lia.
Qed.

(** *** The tokens *)

Lemma orelse_some_l {A} (a b : option A) (x : A) :
  a = Some x -> orelse a b = Some x.
Proof. intros ->; reflexivity. Qed.

(** The first alternative tried is the one the continuation accepts. *)
Ltac accept H := repeat first [exact H | apply orelse_some_l].


Lemma rep_exhausted {A} (p : ascii -> bool) (g : bool) (s : jsstring)
      (k : jsstring -> jsstring -> option A) :
  rep p g 0 (Some 0) s k = k [] s.
Proof.
  destruct s as [|c s]; simpl.
  - destruct g; simpl; [reflexivity | destruct (k [] []); reflexivity].
  - rewrite andb_false_r. destruct g; simpl; [reflexivity|].
    destruct (k [] (c :: s)); reflexivity.
Qed.


Lemma tvTail1_match (cS cE e1 e2 : ascii) (sd rest : jsstring)
      (caps : captures)
      (K : jsstring -> jsstring -> captures -> option captures)
      (x : captures) :
  cS = "s"%char \/ cS = "S"%char ->
  forallb is_digit sd = true ->
  length sd = 1 \/ length sd = 2 ->
  cE = "e"%char \/ cE = "E"%char ->
  is_digit e1 = true -> is_digit e2 = true ->
  K (cS :: sd ++ [cE; e1; e2]) rest ((3, [e1; e2]) :: (2, sd) :: caps) = Some x ->
  matcher tvTail1 (cS :: sd ++ cE :: e1 :: e2 :: rest) caps K = Some x.
Proof.
  intros HS Hsd Hlen HE H1 H2 HK.
  destruct sd as [|d1 [|d2 [|d3 sd]]]; simpl in Hlen; try lia.
  - simpl in Hsd. rewrite andb_true_r in Hsd.
    destruct HS as [-> | ->], HE as [-> | ->]; simpl; rewrite Hsd; simpl.
    all: rewrite H1, H2; simpl; rewrite rep_exhausted; accept HK.
  - simpl in Hsd. rewrite andb_true_r in Hsd. apply andb_true_iff in Hsd.
    destruct Hsd as [Hd1 Hd2].
    destruct HS as [-> | ->], HE as [-> | ->]; simpl; rewrite Hd1; simpl;
      rewrite Hd2; simpl.
    all: rewrite H1, H2; simpl; rewrite rep_exhausted; accept HK.
Qed.


(** A year in parentheses at the end of the name. *)
Lemma movieTail_match (c1 c2 y3 y4 : ascii) (caps : captures)
      (K : jsstring -> jsstring -> captures -> option captures)
      (x : captures) :
  (c1 = "1"%char /\ c2 = "9"%char) \/ (c1 = "2"%char /\ c2 = "0"%char) ->
  is_digit y3 = true -> is_digit y4 = true ->
  K ["("%char; c1; c2; y3; y4; ")"%char] []
    ((2, [c1; c2; y3; y4]) :: (3, [c1; c2]) :: caps) = Some x ->
  matcher movieTail ["("%char; c1; c2; y3; y4; ")"%char] caps K = Some x.
Proof.
  intros Hc H3 H4 HK.
  destruct Hc as [[-> ->] | [-> ->]]; simpl; rewrite H3; simpl; rewrite H4;
    simpl; accept HK.
Qed.

(** *** The first match of a pattern [(.+?)[. _\-]*token] *)

Lemma exec_here (r : regex) (s : jsstring) (caps : captures) :
  match_here r s = Some caps -> exec r s = Some caps.
Proof. intros H. destruct s; simpl; rewrite H; reflexivity. Qed.

Lemma token_before_false (tail : regex) (name : jsstring) (n j : nat) :
  token_before tail name n = false -> 1 <= j < n ->
  matches_at (sep_run +++ tail) (skipn j name) = false.
Proof.
  unfold token_before. intros H Hj.
  destruct (matches_at (sep_run +++ tail) (skipn j name)) eqn:E; [|reflexivity].
  assert (Hex : existsb (fun j0 => matches_at (sep_run +++ tail) (skipn j0 name))
                        (seq 1 (n - 1)) = true).
  { apply existsb_exists. exists j. split; [|exact E].
    apply in_seq. lia. }
  congruence.
Qed.

Lemma skipn_length_app {A} (a b : list A) : skipn (length a) (a ++ b) = b.
Proof. rewrite skipn_app, skipn_all, Nat.sub_diag. reflexivity. Qed.

(** The title prefix is the shortest one after which the separator run and
    the token match: when no token matches earlier than after [prefix], and
    the run and the token match after it, the match starts at the first
    character and captures [prefix]. *)
Lemma match_prefixed (tail : regex) (prefix rest : jsstring)
      (K : jsstring -> jsstring -> captures -> option captures)
      (x : captures) :
  prefix <> [] ->
  forallb is_any prefix = true ->
  token_before tail (prefix ++ rest) (length prefix) = false ->
  matcher (sep_run +++ tail) rest [(1, prefix)]
          (fun m s c => K (prefix ++ m) s c) = Some x ->
  matcher (title_prefix +++ sep_run +++ tail) (prefix ++ rest) [] K = Some x.
Proof.
  intros Hne Hany Htok Hrest.
  change (matcher (title_prefix +++ sep_run +++ tail) (prefix ++ rest) [] K)
    with (rep is_any false 1 None (prefix ++ rest)
              (fun m s' => matcher (sep_run +++ tail) s' [(1, m)]
                                   (fun m2 s2 c2 => K (m ++ m2) s2 c2))).
  apply rep_lazy_first; auto.
  intros a b -> Ha Hb.
  apply matches_at_false.
  rewrite <- (skipn_length_app a (b ++ rest)), app_assoc.
  apply (token_before_false tail _ (length (a ++ b))); [exact Htok|].
  rewrite length_app. destruct b; [contradiction|]. simpl. lia.
Qed.

Lemma sep_run_then (tail : regex) (seps t : jsstring) (caps : captures)
      (K : jsstring -> jsstring -> captures -> option captures)
      (x : captures) :
  forallb is_sep seps = true ->
  match t with c :: _ => is_sep c = false | [] => True end ->
  matcher tail t caps (fun m s c => K (seps ++ m) s c) = Some x ->
  matcher (sep_run +++ tail) (seps ++ t) caps K = Some x.
Proof.
  intros Hseps Ht H.
  change (matcher (sep_run +++ tail) (seps ++ t) caps K)
    with (rep is_sep true 0 None (seps ++ t)
              (fun m s' => matcher tail s' caps
                                   (fun m2 s2 c2 => K (m ++ m2) s2 c2))).
  apply rep_greedy_run; auto.
Qed.

Lemma letter_S_not_sep (c : ascii) :
  c = "s"%char \/ c = "S"%char -> is_sep c = false.
Proof. intros [-> | ->]; reflexivity. Qed.

(** The first match of [tvRegex1] in a name of the shape
    [prefix seps S dd E dd]. *)
Lemma exec_tvRegex1 (prefix seps sd rest : jsstring) (cS cE e1 e2 : ascii) :
  prefix <> [] ->
  forallb is_any prefix = true ->
  forallb is_sep seps = true ->
  cS = "s"%char \/ cS = "S"%char ->
  forallb is_digit sd = true ->
  length sd = 1 \/ length sd = 2 ->
  cE = "e"%char \/ cE = "E"%char ->
  is_digit e1 = true -> is_digit e2 = true ->
  token_before tvTail1 (prefix ++ seps ++ cS :: sd ++ cE :: e1 :: e2 :: rest)
               (length prefix) = false ->
  exec tvRegex1 (prefix ++ seps ++ cS :: sd ++ cE :: e1 :: e2 :: rest) =
  Some [(0, prefix ++ seps ++ cS :: sd ++ [cE; e1; e2]);
        (3, [e1; e2]); (2, sd); (1, prefix)].
Proof.
  intros Hne Hany Hseps HS Hsd Hlen HE H1 H2 Htok.
  apply exec_here. unfold match_here, tvRegex1.
  apply match_prefixed; auto.
  apply sep_run_then; auto.
  - apply letter_S_not_sep; exact HS.
  - apply tvTail1_match; auto.
Qed.



(** [parseInt] on a run of digits. *)
Lemma parseInt10_digits (ds : jsstring) :
  forallb is_digit ds = true -> ds <> [] ->
  parseInt10 ds = Num (digits_value 0 ds).
Proof.
  intros H Hne. destruct ds as [|d ds]; [contradiction|].
  simpl in H. apply andb_true_iff in H. destruct H as [Hd _].
  unfold parseInt10. cbn [drop_while].
  rewrite (digit_not_space d Hd).
  destruct (digit_not_sign d Hd) as [Hm Hp]. rewrite Hm, Hp, Hd.
  f_equal. apply Z.mul_1_l.
Qed.

(** ** The parser on the TV shapes *)


Lemma digit_not_slash (c : ascii) : is_digit c = true -> is_slash c = false.
Proof. all_chars c. Qed.

Lemma class_no_slash (p : ascii -> bool) (s : jsstring) :
  (forall c, p c = true -> is_slash c = false) ->
  forallb p s = true -> no_slash s = true.
Proof.
  intros Hp. induction s as [|c s IH]; simpl; [reflexivity|].
  intros H. apply andb_true_iff in H. destruct H as [Hc Hs].
  rewrite (Hp c Hc), IH by exact Hs. reflexivity.
Qed.









(** ** The title normalizer *)

Lemma split_nonempty (c : ascii) (s : jsstring) : split c s <> [].
Proof.
  induction s as [|x s IH]; simpl; [discriminate|].
  destruct (chr_eqb x c); [discriminate|].
  destruct (split c s); discriminate.
Qed.

Lemma join_cons_word (c x : ascii) (w : jsstring) (ws : list jsstring) :
  join c ((x :: w) :: ws) = x :: join c (w :: ws).
Proof. destruct ws; reflexivity. Qed.

Lemma join_empty_word (c : ascii) (ws : list jsstring) :
  ws <> [] -> join c ([] :: ws) = c :: join c ws.
Proof. destruct ws; [contradiction | reflexivity]. Qed.

(** [split], [map] and [join] capitalize word by word. *)
Lemma titleCase_words_aux (s : jsstring) :
  join " " (map capitalize (split " " s)) = capitalize_words true s
  /\ (forall w ws, split " " s = w :: ws ->
                   join " " (w :: map capitalize ws) = capitalize_words false s).
Proof.
  induction s as [|c s [IHa IHb]].
  - split; [reflexivity|]. intros w ws [= <- <-]. reflexivity.
  - cbn [split capitalize_words]. destruct (chr_eqb c " ") eqn:Ec.
    + assert (Hne : map capitalize (split " " s) <> []).
      { intros E. apply map_eq_nil in E. exact (split_nonempty _ _ E). }
      apply chr_eqb_eq in Ec. subst c. split.
      * cbn [map capitalize]. rewrite join_empty_word by exact Hne.
        rewrite IHa. reflexivity.
      * intros w ws [= <- <-]. rewrite join_empty_word by exact Hne.
        rewrite IHa. reflexivity.
    + destruct (split " " s) as [|w ws] eqn:Es;
        [exfalso; exact (split_nonempty _ _ Es)|].
      split.
      * cbn [map capitalize]. rewrite join_cons_word, (IHb w ws eq_refl).
        reflexivity.
      * intros w' ws' [= <- <-]. rewrite join_cons_word, (IHb w ws eq_refl).
        reflexivity.
Qed.

Lemma titleCase_words (s : jsstring) : titleCase s = capitalize_words true s.
Proof. apply titleCase_words_aux. Qed.

(** *** Character facts *)

Lemma upper_title_char (c : ascii) : title_char (toUpperCase c) = title_char c.
Proof. all_chars c. Qed.

Lemma upper_space (c : ascii) : is_space (toUpperCase c) = is_space c.
Proof. all_chars c. Qed.

Lemma upper_is_blank (c : ascii) :
  chr_eqb (toUpperCase c) " " = chr_eqb c " ".
Proof. all_chars c. Qed.

Lemma upper_upper (c : ascii) : toUpperCase (toUpperCase c) = toUpperCase c.
Proof. all_chars c. Qed.

Lemma blank_is_space (c : ascii) : chr_eqb c " " = true -> is_space c = true.
Proof. all_chars c. Qed.

Lemma title_char_not_dot (c : ascii) : title_char c = true -> is_dot c = false.
Proof. all_chars c. Qed.

Lemma blank_or_not_space_any (c : ascii) :
  (is_space c = true -> chr_eqb c " " = true) -> is_any c = true.
Proof. all_chars c; intros H; discriminate (H eq_refl). Qed.

(** *** Replacing runs *)

Lemma replace_runs_keeps (q p : ascii -> bool) (s : jsstring) :
  q " "%char = true ->
  forall b, forallb q s = true -> forallb q (replace_runs p b s) = true.
Proof.
  intros Hq. induction s as [|c s IH]; intros b H; [reflexivity|].
  simpl in H. apply andb_true_iff in H. destruct H as [Hc Hs].
  cbn [replace_runs]. destruct (p c).
  - destruct b; cbn [forallb]; rewrite ?Hq, IH by exact Hs; reflexivity.
  - cbn [forallb]. rewrite Hc, IH by exact Hs. reflexivity.
Qed.

Lemma replace_runs_removes (p : ascii -> bool) (s : jsstring) :
  p " "%char = false ->
  forall b, forallb (fun c => negb (p c)) (replace_runs p b s) = true.
Proof.
  intros Hp. induction s as [|c s IH]; intros b; [reflexivity|].
  cbn [replace_runs]. destruct (p c) eqn:E.
  - destruct b; cbn [forallb]; rewrite ?Hp, IH; reflexivity.
  - cbn [forallb]. rewrite E, IH. reflexivity.
Qed.

Lemma replace_runs_id (p : ascii -> bool) (s : jsstring) :
  forall b, forallb (fun c => negb (p c)) s = true -> replace_runs p b s = s.
Proof.
  induction s as [|c s IH]; intros b H; [reflexivity|].
  simpl in H. apply andb_true_iff in H. destruct H as [Hc Hs].
  apply negb_true_iff in Hc. cbn [replace_runs]. rewrite Hc, IH by exact Hs.
  reflexivity.
Qed.

Lemma replace_spaces_single (s : jsstring) :
  forall b, single_spaced b (replace_runs is_space b s) = true.
Proof.
  induction s as [|c s IH]; intros b; [reflexivity|].
  cbn [replace_runs]. destruct (is_space c) eqn:E.
  - destruct b; [apply IH|].
    cbn [single_spaced]. change (is_space " ") with true. cbv iota.
    rewrite chr_eqb_refl, IH. reflexivity.
  - cbn [single_spaced]. rewrite E. apply IH.
Qed.

Lemma replace_spaces_id (s : jsstring) :
  forall b, single_spaced b s = true -> replace_runs is_space b s = s.
Proof.
  induction s as [|c s IH]; intros b H; [reflexivity|].
  cbn [single_spaced] in H. cbn [replace_runs].
  destruct (is_space c) eqn:E.
  - apply andb_true_iff in H. destruct H as [H Hs].
    apply andb_true_iff in H. destruct H as [Hc Hb].
    apply negb_true_iff in Hb. subst b.
    apply chr_eqb_eq in Hc. subst c. rewrite IH by exact Hs. reflexivity.
  - rewrite IH by exact H. reflexivity.
Qed.

Lemma single_spaced_weaken (s : jsstring) (b : bool) :
  single_spaced true s = true -> single_spaced b s = true.
Proof.
  destruct s as [|c s]; [reflexivity|]. cbn [single_spaced].
  destruct (is_space c); [|auto].
  rewrite andb_false_r. discriminate.
Qed.

Lemma single_spaced_prefix (a t : jsstring) :
  forall b, single_spaced b (a ++ t) = true -> single_spaced b a = true.
Proof.
  induction a as [|c a IH]; intros b H; [reflexivity|].
  simpl app in H. cbn [single_spaced] in *.
  destruct (is_space c).
  - apply andb_true_iff in H. destruct H as [H Hs].
    rewrite H, (IH true Hs). reflexivity.
  - apply IH, H.
Qed.

(** *** Trimming *)

Lemma drop_while_keeps (q p : ascii -> bool) (s : jsstring) :
  forallb q s = true -> forallb q (drop_while p s) = true.
Proof.
  induction s as [|c s IH]; intros H; [reflexivity|].
  cbn [drop_while]. destruct (p c); [|exact H].
  simpl in H. apply andb_true_iff in H. apply IH, H.
Qed.

Lemma drop_spaces_single (s : jsstring) :
  forall b, single_spaced b s = true ->
            single_spaced true (drop_while is_space s) = true.
Proof.
  induction s as [|c s IH]; intros b H; [reflexivity|].
  cbn [drop_while]. cbn [single_spaced] in H. destruct (is_space c) eqn:E.
  - apply andb_true_iff in H. destruct H as [_ Hs]. apply (IH true Hs).
  - cbn [single_spaced]. rewrite E. exact H.
Qed.

Lemma drop_while_split (p : ascii -> bool) (l : jsstring) :
  exists t, l = t ++ drop_while p l /\ forallb p t = true.
Proof.
  induction l as [|c l (t & Ht & Hp)]; [exists []; auto|].
  cbn [drop_while]. destruct (p c) eqn:E.
  - exists (c :: t). simpl. rewrite E, Hp, <- Ht. auto.
  - exists []. auto.
Qed.

Lemma drop_while_head (p : ascii -> bool) (l : jsstring) :
  match drop_while p l with c :: _ => p c = false | [] => True end.
Proof.
  induction l as [|c l IH]; [exact I|].
  cbn [drop_while]. destruct (p c) eqn:E; [exact IH | exact E].
Qed.

Lemma ends_with_space_rev (s : jsstring) :
  ends_with_space s = match rev s with c :: _ => is_space c | [] => false end.
Proof.
  induction s as [|c s IH]; [reflexivity|].
  destruct s as [|c2 s]; [reflexivity|].
  change (ends_with_space (c :: c2 :: s)) with (ends_with_space (c2 :: s)).
  rewrite IH. change (rev (c :: c2 :: s)) with (rev (c2 :: s) ++ [c]).
  destruct (rev (c2 :: s)) eqn:E; [|reflexivity].
  apply (f_equal (@length ascii)) in E. rewrite length_rev in E. discriminate.
Qed.

Lemma drop_while_id (p : ascii -> bool) (s : jsstring) :
  match s with c :: _ => p c = false | [] => True end -> drop_while p s = s.
Proof. destruct s as [|c s]; [reflexivity|]. simpl. intros ->. reflexivity. Qed.

Lemma single_spaced_head (s : jsstring) :
  single_spaced true s = true ->
  match s with c :: _ => is_space c = false | [] => True end.
Proof.
  destruct s as [|c s]; [auto|]. cbn [single_spaced].
  destruct (is_space c); [|auto]. rewrite andb_false_r. discriminate.
Qed.

(** *** Clean titles *)

Lemma clean_parts (s : jsstring) :
  clean s = true <->
  forallb title_char s = true /\ single_spaced true s = true
  /\ ends_with_space s = false.
Proof.
  unfold clean. rewrite !andb_true_iff, negb_true_iff. tauto.
Qed.

Lemma title_char_classes (s : jsstring) :
  forallb title_char s = true ->
  forallb (fun c => negb (is_dot_or_underscore c)) s = true
  /\ forallb (fun c => negb (is_dash c)) s = true.
Proof.
  induction s as [|c s IH]; [auto|]. cbn [forallb]. intros H.
  apply andb_true_iff in H. destruct H as [Hc Hs].
  destruct (IH Hs) as [H1 H2]. rewrite H1, H2.
  unfold title_char in Hc. apply andb_true_iff in Hc. destruct Hc as [-> ->].
  auto.
Qed.

Lemma trim_clean_id (s : jsstring) :
  single_spaced true s = true -> ends_with_space s = false -> trim s = s.
Proof.
  intros Hs He. unfold trim.
  rewrite (drop_while_id is_space s (single_spaced_head s Hs)).
  rewrite drop_while_id; [apply rev_involutive|].
  rewrite ends_with_space_rev in He. destruct (rev s); auto.
Qed.

(** A clean title is left as it is by [cleanTitle]. *)
Lemma cleanTitle_clean_id (s : jsstring) : clean s = true -> cleanTitle s = s.
Proof.
  intros H. apply clean_parts in H. destruct H as (Hc & Hs & He).
  destruct (title_char_classes s Hc) as [H1 H2].
  unfold cleanTitle.
  rewrite (replace_runs_id is_dot_or_underscore s false H1).
  rewrite (replace_runs_id is_dash s false H2).
  rewrite (replace_spaces_id s false (single_spaced_weaken s false Hs)).
  apply trim_clean_id; assumption.
Qed.

(** [cleanTitle] returns clean titles. *)
Lemma cleanTitle_clean (raw : jsstring) : clean (cleanTitle raw) = true.
Proof.
  unfold cleanTitle.
  set (s1 := replace_runs is_dot_or_underscore false raw).
  set (s2 := replace_runs is_dash false s1).
  set (s3 := replace_runs is_space false s2).
  assert (H1 : forallb (fun c => negb (is_dot_or_underscore c)) s2 = true).
  { apply replace_runs_keeps; [reflexivity|].
    apply replace_runs_removes. reflexivity. }
  assert (H2 : forallb (fun c => negb (is_dash c)) s2 = true)
    by (apply replace_runs_removes; reflexivity).
  assert (H3 : forallb title_char s3 = true).
  { apply replace_runs_keeps; [reflexivity|].
    clear -H1 H2. induction s2 as [|c s IH]; [reflexivity|].
    cbn [forallb] in *. apply andb_true_iff in H1, H2.
    destruct H1 as [Ha H1], H2 as [Hb H2].
    unfold title_char at 1. rewrite Ha, Hb, IH by assumption. reflexivity. }
  assert (H4 : single_spaced false s3 = true) by apply replace_spaces_single.
  unfold trim. set (d := drop_while is_space s3).
  assert (Hd1 : forallb title_char d = true) by (apply drop_while_keeps, H3).
  assert (Hd2 : single_spaced true d = true)
    by (apply (drop_spaces_single s3 false H4)).
  destruct (drop_while_split is_space (rev d)) as (t & Ht & _).
  pose proof (drop_while_head is_space (rev d)) as Hh.
  set (x := drop_while is_space (rev d)) in *.
  assert (Hd : d = rev x ++ rev t).
  { rewrite <- (rev_involutive d), Ht, rev_app_distr. reflexivity. }
  apply clean_parts. repeat split.
  - rewrite forallb_rev. unfold x. apply drop_while_keeps.
    rewrite forallb_rev. exact Hd1.
  - apply (single_spaced_prefix (rev x) (rev t)). rewrite <- Hd. exact Hd2.
  - rewrite ends_with_space_rev, rev_involutive.
    destruct x; [reflexivity | exact Hh].
Qed.

Lemma capitalize_words_chars (s : jsstring) :
  forall b, forallb title_char (capitalize_words b s) = forallb title_char s.
Proof.
  induction s as [|c s IH]; intros b; [reflexivity|].
  cbn [capitalize_words]. destruct (chr_eqb c " ");
    cbn [forallb]; rewrite IH; [reflexivity|].
  destruct b; rewrite ?upper_title_char; reflexivity.
Qed.

Lemma capitalize_words_spaced (s : jsstring) :
  forall b p, single_spaced p (capitalize_words b s) = single_spaced p s.
Proof.
  induction s as [|c s IH]; intros b p; [reflexivity|].
  cbn [capitalize_words]. destruct (chr_eqb c " ") eqn:E;
    cbn [single_spaced].
  - rewrite !IH. reflexivity.
  - destruct b; rewrite ?upper_space, ?upper_is_blank, !IH; reflexivity.
Qed.

Lemma ends_with_space_cons (c : ascii) (s : jsstring) :
  s <> [] -> ends_with_space (c :: s) = ends_with_space s.
Proof. destruct s; [contradiction | reflexivity]. Qed.

Lemma capitalize_words_nonempty (b : bool) (c : ascii) (s : jsstring) :
  capitalize_words b (c :: s) <> [].
Proof. cbn [capitalize_words]. destruct (chr_eqb c " "); discriminate. Qed.

Lemma capitalize_words_end (s : jsstring) :
  forall b, ends_with_space (capitalize_words b s) = ends_with_space s.
Proof.
  induction s as [|c s IH]; intros b; [reflexivity|].
  destruct s as [|c2 s].
  - cbn. destruct (chr_eqb c " "); [reflexivity|].
    destruct b; cbn [ends_with_space]; rewrite ?upper_space; reflexivity.
  - rewrite (ends_with_space_cons c (c2 :: s)) by discriminate.
    rewrite <- (IH (chr_eqb c " ")).
    change (capitalize_words b (c :: c2 :: s))
      with (if chr_eqb c " " then c :: capitalize_words true (c2 :: s)
            else (if b then toUpperCase c else c)
                   :: capitalize_words false (c2 :: s)).
    destruct (chr_eqb c " ");
      apply ends_with_space_cons, capitalize_words_nonempty.
Qed.

Lemma capitalize_words_clean (s : jsstring) :
  clean s = true -> clean (capitalize_words true s) = true.
Proof.
  unfold clean.
  rewrite capitalize_words_chars, capitalize_words_spaced,
          capitalize_words_end. auto.
Qed.

Lemma capitalize_words_idem (s : jsstring) :
  forall b, capitalize_words b (capitalize_words b s) = capitalize_words b s.
Proof.
  induction s as [|c s IH]; intros b; [reflexivity|].
  cbn [capitalize_words]. destruct (chr_eqb c " ") eqn:E.
  - cbn [capitalize_words]. rewrite E, IH. reflexivity.
  - destruct b; cbn [capitalize_words];
      rewrite ?upper_is_blank, E, ?upper_upper, IH; reflexivity.
Qed.

(** The normalizer returns clean titles, which it leaves as they are. *)
Lemma normalizeTitle_clean (raw : jsstring) : clean (normalizeTitle raw) = true.
Proof.
  unfold normalizeTitle. rewrite titleCase_words.
  apply capitalize_words_clean, cleanTitle_clean.
Qed.


(** A title fixed by the normalizer is clean: it has no dot and no line
    terminator. *)
Lemma normalized_clean (t : jsstring) : normalizeTitle t = t -> clean t = true.
Proof. intros <-. apply normalizeTitle_clean. Qed.

Lemma clean_no_dot (t : jsstring) : clean t = true -> no_dot t = true.
Proof.
  intros H. apply clean_parts in H. destruct H as (Hc & _ & _).
  induction t as [|c t IH]; [reflexivity|].
  cbn [forallb] in Hc. apply andb_true_iff in Hc. destruct Hc as [Hc Ht].
  unfold no_dot. cbn [forallb]. rewrite (title_char_not_dot c Hc).
  apply IH, Ht.
Qed.

Lemma single_spaced_any (t : jsstring) :
  forall b, single_spaced b t = true -> forallb is_any t = true.
Proof.
  induction t as [|c t IH]; intros b H; [reflexivity|].
  cbn [single_spaced] in H. cbn [forallb].
  destruct (is_space c) eqn:E.
  - apply andb_true_iff in H. destruct H as [H Ht].
    apply andb_true_iff in H. destruct H as [Hc _].
    rewrite (blank_or_not_space_any c (fun _ => Hc)), (IH true Ht).
    reflexivity.
  - rewrite (blank_or_not_space_any c), (IH false H); [reflexivity|].
    rewrite E. discriminate.
Qed.

Lemma clean_any (t : jsstring) : clean t = true -> forallb is_any t = true.
Proof.
  intros H. apply clean_parts in H. destruct H as (_ & Hs & _).
  apply (single_spaced_any t true Hs).
Qed.

(** ** What the parser returns *)

Ltac invert_match :=
  repeat match goal with
         | H : Matches (Cat _ _) _ _ _ |- _ => inversion H; subst; clear H
         | H : Matches (Grp _ _) _ _ _ |- _ => inversion H; subst; clear H
         | H : Matches (Alt _ _) _ _ _ |- _ => inversion H; subst; clear H
         | H : Matches (Rep _ _ _ _) _ _ _ |- _ => inversion H; subst; clear H
         | H : Matches (Chr _) _ _ _ |- _ => inversion H; subst; clear H
         end.

(** The captures of a match of a TV pattern: one or two digits, then two. *)
Lemma tv_captures (tail : regex) (m : jsstring) (caps : captures) :
  tail = tvTail1 \/ tail = tvTail2 ->
  Matches (title_prefix +++ sep_run +++ tail) m [] caps ->
  exists m1 m2 m3,
    caps = [(3, m3); (2, m2); (1, m1)]
    /\ forallb is_digit m2 = true /\ 1 <= length m2 <= 2
    /\ forallb is_digit m3 = true /\ length m3 = 2.
Proof.
  intros [-> | ->] H;
    unfold title_prefix, sep_run, tvTail1, tvTail2, one_of in H;
    invert_match.
  all: match goal with
       | H2 : forallb is_digit ?m2 = true, L2 : 1 <= length ?m2,
         B2 : forall h, Some 2 = Some h -> length ?m2 <= h,
         H3 : forallb is_digit ?m3 = true, L3 : 2 <= length ?m3,
         B3 : forall h, Some 2 = Some h -> length ?m3 <= h |- _ =>
         pose proof (B2 2 eq_refl); pose proof (B3 2 eq_refl);
         eexists _, m2, m3; repeat split; eauto; lia
       end.
Qed.

Lemma digits_value_bound (ds : jsstring) :
  forall acc, forallb is_digit ds = true -> (0 <= acc)%Z ->
  (10 ^ Z.of_nat (length ds) * acc <= digits_value acc ds
   < 10 ^ Z.of_nat (length ds) * (acc + 1))%Z.
Proof.
  induction ds as [|d ds IH]; intros acc H Hacc.
  - cbn [length digits_value Z.of_nat]. change (10 ^ 0)%Z with 1%Z. lia.
  - simpl in H. apply andb_true_iff in H. destruct H as [Hd Hds].
    cbn [digits_value]. rewrite Hd.
    pose proof (digit_range d Hd) as Hr.
    specialize (IH (10 * acc + (Z.of_N (char_code d) - 48))%Z Hds
                   ltac:(lia)).
    replace (Z.of_nat (length (d :: ds))) with (Z.of_nat (length ds) + 1)%Z
      by (simpl length; lia).
    rewrite Z.pow_add_r by lia. change (10 ^ 1)%Z with 10%Z.
    assert (0 < 10 ^ Z.of_nat (length ds))%Z by (apply Z.pow_pos_nonneg; lia).
    nia.
Qed.

(** One or two digits read in base 10: a number from 0 to 99. *)
Lemma parseInt10_two_digits (ds : jsstring) :
  forallb is_digit ds = true -> 1 <= length ds <= 2 ->
  exists z, parseInt10 ds = Num z /\ (0 <= z <= 99)%Z.
Proof.
  intros H Hlen. exists (digits_value 0 ds). split.
  - apply parseInt10_digits; [exact H|]. destruct ds; [simpl in Hlen; lia | discriminate].
  - pose proof (digits_value_bound ds 0 H ltac:(lia)) as Hb.
    assert (10 ^ Z.of_nat (length ds) <= 100)%Z.
    { destruct ds as [|? [|? [|? ?]]]; simpl in Hlen; try lia;
        simpl length; cbn; lia. }
    lia.
Qed.

(** The captures of a match of the movie pattern: 19 or 20, then two
    digits. *)
Lemma movie_captures (m : jsstring) (caps : captures) :
  Matches movieRegex m [] caps ->
  exists m1 c1 c2 d3 d4,
    caps = [(2, [c1; c2; d3; d4]); (3, [c1; c2]); (1, m1)]
    /\ ((c1 = "1"%char /\ c2 = "9"%char) \/ (c1 = "2"%char /\ c2 = "0"%char))
    /\ is_digit d3 = true /\ is_digit d4 = true.
Proof.
  intros H. unfold movieRegex, title_prefix, sep_run, movieTail, lit in H.
  invert_match.
  all: match goal with
       | Ha : chr_eqb _ ?a = true, Hb : chr_eqb _ ?b = true,
         H4 : forallb is_digit ?m4 = true, L4 : 2 <= length ?m4,
         B4 : forall h, Some 2 = Some h -> length ?m4 <= h |- _ =>
         apply chr_eqb_eq in Ha, Hb; subst;
         pose proof (B4 2 eq_refl) as U4;
         destruct m4 as [|d3 [|d4 [|? ?]]]; simpl in L4, U4; try lia;
         simpl in H4; apply andb_true_iff in H4; destruct H4 as [H3 H4];
         rewrite andb_true_r in H4;
         eexists _, _, _, d3, d4; repeat split; eauto
       end.
Qed.

Lemma parseInt10_year (c1 c2 d3 d4 : ascii) :
  (c1 = "1"%char /\ c2 = "9"%char) \/ (c1 = "2"%char /\ c2 = "0"%char) ->
  is_digit d3 = true -> is_digit d4 = true ->
  exists z, parseInt10 [c1; c2; d3; d4] = Num z /\ (1900 <= z <= 2099)%Z.
Proof.
  intros Hc H3 H4. exists (digits_value 0 [c1; c2; d3; d4]).
  pose proof (digit_range d3 H3). pose proof (digit_range d4 H4).
  destruct Hc as [[-> ->] | [-> ->]]; (split;
    [ apply parseInt10_digits; [simpl; rewrite H3, H4; reflexivity | discriminate]
    | cbn [digits_value]; change (is_digit "1") with true;
      change (is_digit "9") with true; change (is_digit "2") with true;
      change (is_digit "0") with true; cbv iota; rewrite H3, H4;
      change (Z.of_N (char_code "1")) with 49%Z;
      change (Z.of_N (char_code "9")) with 57%Z;
      change (Z.of_N (char_code "2")) with 50%Z;
      change (Z.of_N (char_code "0")) with 48%Z; lia ]).
Qed.







(** ** Generating, then parsing *)

Lemma pad2_small (z : Z) : (0 <= z <= 99)%Z -> pad2_checks z = true.
Proof.
  intros Hz.
  assert (H : forallb (fun k => pad2_checks (Z.of_nat k)) (seq 0 100) = true)
    by (vm_compute; reflexivity).
  rewrite forallb_forall in H. specialize (H (Z.to_nat z)).
  rewrite Z2Nat.id in H by lia. apply H, in_seq. lia.
Qed.

Lemma year_printed (z : Z) : (1900 <= z <= 2099)%Z -> year_checks z = true.
Proof.
  intros Hz.
  assert (H : forallb (fun k => year_checks (Z.of_nat k)) (seq 1900 200) = true)
    by (vm_compute; reflexivity).
  rewrite forallb_forall in H. specialize (H (Z.to_nat z)).
  rewrite Z2Nat.id in H by lia. apply H, in_seq. lia.
Qed.

(** [pad2] writes a number from 0 to 99 as two digits that read back. *)
Lemma pad2_two_digits (z : Z) :
  (0 <= z <= 99)%Z ->
  exists d1 d2, pad2 (Some (Num z)) = [d1; d2]
                /\ is_digit d1 = true /\ is_digit d2 = true
                /\ parseInt10 [d1; d2] = Num z.
Proof.
  intros Hz. pose proof (pad2_small z Hz) as H. unfold pad2_checks in H.
  destruct (pad2 (Some (Num z))) as [|d1 [|d2 [|? ?]]]; try discriminate.
  apply andb_true_iff in H. destruct H as [H Hv].
  apply andb_true_iff in H. destruct H as [H1 H2].
  apply Z.eqb_eq in Hv.
  exists d1, d2. repeat split; auto.
  rewrite parseInt10_digits, Hv; [reflexivity | | discriminate].
  simpl. rewrite H1, H2. reflexivity.
Qed.

(** A year from 1900 to 2099 is printed as 19 or 20 and two digits that
    read back. *)
Lemma year_four_digits (z : Z) :
  (1900 <= z <= 2099)%Z ->
  exists c1 c2 d3 d4,
    show (Num z) = [c1; c2; d3; d4]
    /\ ((c1 = "1"%char /\ c2 = "9"%char) \/ (c1 = "2"%char /\ c2 = "0"%char))
    /\ is_digit d3 = true /\ is_digit d4 = true
    /\ parseInt10 [c1; c2; d3; d4] = Num z.
Proof.
  intros Hz. pose proof (year_printed z Hz) as H. unfold year_checks in H.
  destruct (show (Num z)) as [|c1 [|c2 [|d3 [|d4 [|? ?]]]]]; try discriminate.
  apply andb_true_iff in H. destruct H as [H Hv].
  apply andb_true_iff in H. destruct H as [H H4].
  apply andb_true_iff in H. destruct H as [Hc H3].
  apply Z.eqb_eq in Hv.
  assert (Hc' : (c1 = "1"%char /\ c2 = "9"%char)
                \/ (c1 = "2"%char /\ c2 = "0"%char)).
  { apply orb_true_iff in Hc. destruct Hc as [Hc | Hc];
      apply andb_true_iff in Hc; destruct Hc as [Ha Hb];
      apply chr_eqb_eq in Ha, Hb; auto. }
  exists c1, c2, d3, d4. repeat split; auto.
  rewrite parseInt10_digits, Hv; [reflexivity | | discriminate].
  simpl. rewrite H3, H4.
  destruct Hc' as [[-> ->] | [-> ->]]; reflexivity.
Qed.

(** The extension and the base name of a generated name. *)
Lemma generated_split (stem x : jsstring) :
  no_slash stem = true -> no_dot stem = true -> stem <> [] ->
  extension_ok x ->
  Path.extname (stem ++ x) = x /\ Path.basename (stem ++ x) x = stem.
Proof.
  intros Hs Hd Hne [-> | (e & -> & He & Hde)].
  - rewrite app_nil_r. split.
    + apply extname_no_dot; assumption.
    + apply basename_plain; assumption.
  - split.
    + apply extname_dotted; auto.
      intros [-> _]. discriminate Hd.
    + apply basename_strip; auto. discriminate.
Qed.

Lemma no_dot_app (a b : jsstring) : no_dot (a ++ b) = no_dot a && no_dot b.
Proof. apply forallb_app. Qed.

Lemma digit_not_dot (c : ascii) : is_digit c = true -> is_dot c = false.
Proof. all_chars c. Qed.

(** *** A TV record *)

Lemma reparse_tv (t x orig : jsstring) (s e : Z) :
  t <> [] -> normalizeTitle t = t -> no_slash t = true -> extension_ok x ->
  (0 <= s <= 99)%Z -> (0 <= e <= 99)%Z ->
  token_before tvTail1
    (stem (mkParsed tv t (Some (Num s)) (Some (Num e)) None x orig))
    (length t) = false ->
  parseFilename
    (generateFilename (mkParsed tv t (Some (Num s)) (Some (Num e)) None x orig))
  = Some (mkParsed tv t (Some (Num s)) (Some (Num e)) None x
            (stem (mkParsed tv t (Some (Num s)) (Some (Num e)) None x orig))).
Proof.
  intros Hne Hnorm Hslash Hx Hs He.
  pose proof (normalized_clean t Hnorm) as Hclean.
  unfold stem, generateFilename. cbn [type title season episode ext].
  destruct (pad2_two_digits s Hs) as (s1 & s2 & -> & Hs1 & Hs2 & Ps).
  destruct (pad2_two_digits e He) as (e1 & e2 & -> & He1 & He2 & Pe).
  set (name := t ++ str " - S" ++ [s1; s2] ++ str "E" ++ [e1; e2]).
  intros Htok.
  replace (t ++ str " - S" ++ [s1; s2] ++ str "E" ++ [e1; e2] ++ x)
    with (name ++ x) by (unfold name; rewrite <- !app_assoc; reflexivity).
  assert (Hname : no_slash name = true /\ no_dot name = true).
  { unfold name. rewrite no_slash_app, no_dot_app, Hslash.
    rewrite (clean_no_dot t Hclean). cbn.
    rewrite (digit_not_slash s1 Hs1), (digit_not_slash s2 Hs2),
            (digit_not_slash e1 He1), (digit_not_slash e2 He2),
            (digit_not_dot s1 Hs1), (digit_not_dot s2 Hs2),
            (digit_not_dot e1 He1), (digit_not_dot e2 He2).
    split; reflexivity. }
  destruct Hname as [Hn1 Hn2].
  destruct (generated_split name x Hn1 Hn2) as [Hext Hbase]; auto.
  { unfold name. destruct t; [contradiction | discriminate]. }
  unfold parseFilename. rewrite Hext, Hbase.
  assert (Hexec : exec tvRegex1 name =
                  Some [(0, name); (3, [e1; e2]); (2, [s1; s2]); (1, t)]).
  { apply (exec_tvRegex1 t (str " - ") [s1; s2] [] "S" "E" e1 e2); auto.
    - apply clean_any, Hclean.
    - simpl. rewrite Hs1, Hs2. reflexivity. }
  rewrite Hexec. cbn [orelse group Nat.eqb].
  rewrite Ps, Pe.
  change (titleCase (cleanTitle t)) with (normalizeTitle t). rewrite Hnorm.
  reflexivity.
Qed.

(** *** A movie record with a year *)

Lemma reparse_movie_year (t x orig : jsstring) (y : Z) :
  t <> [] -> normalizeTitle t = t -> no_slash t = true -> extension_ok x ->
  (1900 <= y <= 2099)%Z ->
  exec tvRegex1 (stem (mkParsed movie t None None (Some (Num y)) x orig))
  = None ->
  exec tvRegex2 (stem (mkParsed movie t None None (Some (Num y)) x orig))
  = None ->
  token_before movieTail
    (stem (mkParsed movie t None None (Some (Num y)) x orig))
    (length t) = false ->
  parseFilename
    (generateFilename (mkParsed movie t None None (Some (Num y)) x orig))
  = Some (mkParsed movie t None None (Some (Num y)) x
            (stem (mkParsed movie t None None (Some (Num y)) x orig))).
Proof.
  intros Hne Hnorm Hslash Hx Hy.
  pose proof (normalized_clean t Hnorm) as Hclean.
  unfold stem, generateFilename. cbn [type title year ext truthy show_opt].
  replace (negb (y =? 0)%Z) with true
    by (symmetry; apply negb_true_iff, Z.eqb_neq; lia).
  destruct (year_four_digits y Hy)
    as (c1 & c2 & d3 & d4 & -> & Hc & H3 & H4 & Py).
  set (name := t ++ str " (" ++ [c1; c2; d3; d4] ++ str ")").
  intros Hno1 Hno2 Htok.
  replace (t ++ str " (" ++ [c1; c2; d3; d4] ++ str ")" ++ x)
    with (name ++ x) by (unfold name; rewrite <- !app_assoc; reflexivity).
  assert (Hname : no_slash name = true /\ no_dot name = true).
  { unfold name. rewrite no_slash_app, no_dot_app, Hslash.
    rewrite (clean_no_dot t Hclean). cbn.
    rewrite (digit_not_slash d3 H3), (digit_not_slash d4 H4),
            (digit_not_dot d3 H3), (digit_not_dot d4 H4).
    destruct Hc as [[-> ->] | [-> ->]]; split; reflexivity. }
  destruct Hname as [Hn1 Hn2].
  destruct (generated_split name x Hn1 Hn2) as [Hext Hbase]; auto.
  { unfold name. destruct t; [contradiction | discriminate]. }
  unfold parseFilename. rewrite Hext, Hbase, Hno1, Hno2.
  cbn [orelse].
  assert (Hexec : exec movieRegex name =
                  Some [(0, name); (2, [c1; c2; d3; d4]); (3, [c1; c2]);
                        (1, t)]).
  { apply exec_here. unfold match_here, movieRegex.
    apply match_prefixed; auto.
    - apply clean_any, Hclean.
    - apply (sep_run_then movieTail (str " ")
                          ["("%char; c1; c2; d3; d4; ")"%char]);
        [reflexivity | reflexivity |].
      apply movieTail_match; auto. }
  rewrite Hexec. cbn [group Nat.eqb]. rewrite Py.
  change (titleCase (cleanTitle t)) with (normalizeTitle t). rewrite Hnorm.
  reflexivity.
Qed.

(** *** A movie record without year *)

Lemma reparse_movie_plain (t x orig : jsstring) :
  t <> [] -> normalizeTitle t = t -> no_slash t = true -> extension_ok x ->
  exec tvRegex1 t = None -> exec tvRegex2 t = None ->
  exec movieRegex t = None ->
  parseFilename (generateFilename (mkParsed movie t None None None x orig))
  = Some (mkParsed movie t None None None x t).
Proof.
  intros Hne Hnorm Hslash Hx Hno1 Hno2 Hno3.
  pose proof (normalized_clean t Hnorm) as Hclean.
  unfold generateFilename. cbn [type title year ext truthy].
  destruct (generated_split t x Hslash (clean_no_dot t Hclean) Hne Hx)
    as [Hext Hbase].
  unfold parseFilename. rewrite Hext, Hbase, Hno1, Hno2, Hno3.
  cbn [orelse].
  change (titleCase (cleanTitle t)) with (normalizeTitle t). rewrite Hnorm.
  replace (0 <? len t)%Z with true; [reflexivity|].
  symmetry. apply Z.ltb_lt. destruct t; [contradiction|].
  unfold len. simpl length. lia.
Qed.

(** C7, amended.  For every well-formed record in normalized form whose
    title has no directory separator, whose season and episode are at most
    99, and whose generated name reads back without ambiguity (no season,
    episode or year token matches in it before the one written after the
    title), parsing the generated name gives a record with the same type,
    title, season, episode, year and extension; hence generating from it
    gives the same name again.  In particular a generated TV name
    [Title - SxxEyy.ext] is parsed back to the same title, season and
    episode. *)
Theorem generate_parse_fixed_point (r : ParsedMedia) :
  well_formed r ->
  no_slash r.(title) = true ->
  two_digit_numbers r ->
  reads_back r ->
  exists r',
    parseFilename (generateFilename r) = Some r'
    /\ generateFilename r' = generateFilename r
    /\ r'.(type) = r.(type) /\ r'.(title) = r.(title)
    /\ r'.(season) = r.(season) /\ r'.(episode) = r.(episode)
    /\ r'.(year) = r.(year) /\ r'.(ext) = r.(ext).
Proof.
  destruct r as [ty t se ep yr x orig].
  unfold well_formed, MediaRecord_invariant, two_digit_numbers, reads_back.
  cbn [type title season episode year ext].
  intros ((Hne & Hnorm & Hty) & Hx & Hyr) Hslash Hsmall Hback.
  destruct ty.
  - destruct Hty as ((s & e & -> & -> & Hs & He) & ->).
    destruct (Hsmall s e eq_refl eq_refl) as [Hs' He'].
    eexists. split.
    + apply reparse_tv; auto; lia.
    + repeat split.
  - destruct Hty as (-> & ->).
    destruct yr as [y|].
    + destruct Hyr as (z & -> & Hz).
      destruct Hback as (Hno1 & Hno2 & Htok).
      assert (Ht : truthy (Some (Num z)) = true)
        by (cbn; apply negb_true_iff, Z.eqb_neq; lia).
      rewrite Ht in Htok.
      eexists. split.
      * apply reparse_movie_year; auto.
      * repeat split.
    + destruct Hback as (Hno1 & Hno2 & Hno3).
      cbn [truthy] in Hno3.
      unfold stem in Hno1, Hno2, Hno3.
      cbn [type year truthy title] in Hno1, Hno2, Hno3.
      eexists. split.
      * apply reparse_movie_plain; auto.
      * repeat split.
Qed.

(** [Show Name - S01E02.mkv], [Movie Name (2007).mkv] and
    [Randomfile.txt]. *)
Lemma generate_parse_fixed_point_witness :
  (exists r',
      parseFilename (str "Show Name - S01E02.mkv") = Some r'
      /\ generateFilename r' = str "Show Name - S01E02.mkv"
      /\ r'.(type) = tv /\ r'.(title) = str "Show Name"
      /\ r'.(season) = Some (Num 1) /\ r'.(episode) = Some (Num 2)
      /\ r'.(year) = None /\ r'.(ext) = str ".mkv")
  /\ (exists r',
         parseFilename (str "Movie Name (2007).mkv") = Some r'
         /\ generateFilename r' = str "Movie Name (2007).mkv"
         /\ r'.(type) = movie /\ r'.(title) = str "Movie Name"
         /\ r'.(season) = None /\ r'.(episode) = None
         /\ r'.(year) = Some (Num 2007) /\ r'.(ext) = str ".mkv")
  /\ (exists r',
         parseFilename (str "Randomfile.txt") = Some r'
         /\ generateFilename r' = str "Randomfile.txt"
         /\ r'.(type) = movie /\ r'.(title) = str "Randomfile"
         /\ r'.(season) = None /\ r'.(episode) = None
         /\ r'.(year) = None /\ r'.(ext) = str ".txt").
Proof.
  split; [|split].
  - apply (generate_parse_fixed_point
             (mkParsed tv (str "Show Name") (Some (Num 1)) (Some (Num 2)) None
                       (str ".mkv") (str "Show.Name.S01E02"))).
    + split; [|split; [|exact I]].
      * split; [discriminate|]. split; [reflexivity|].
        split; [|reflexivity]. exists 1%Z, 2%Z. repeat split; lia.
      * right. exists (str "mkv"). repeat split.
    + reflexivity.
    + intros s e [= <-] [= <-]. lia.
    + reflexivity.
  - apply (generate_parse_fixed_point
             (mkParsed movie (str "Movie Name") None None (Some (Num 2007))
                       (str ".mkv") (str "Movie.Name.2007"))).
    + split; [|split].
      * split; [discriminate|]. split; [reflexivity|]. split; reflexivity.
      * right. exists (str "mkv"). repeat split.
      * exists 2007%Z. split; [reflexivity | lia].
    + reflexivity.
    + intros s e [= ].
    + repeat split.
  - apply (generate_parse_fixed_point
             (mkParsed movie (str "Randomfile") None None None
                       (str ".txt") (str "randomfile"))).
    + split; [|split; [|exact I]].
      * split; [discriminate|]. split; [reflexivity|]. split; reflexivity.
      * right. exists (str "txt"). repeat split.
    + reflexivity.
    + intros s e [= ].
    + repeat split.
Defined.

(** C7 as stated fails.  A normalized title may hold a token: the movie
    [Blade Runner 2049] of 2017 is generated as
    [Blade Runner 2049 (2017).mkv] and read back as [Blade Runner], 2049.
    A season above 99 prints with three digits, which the TV patterns do
    not read.  A title with a directory separator loses what comes before
    it. *)
Lemma generate_parse_fixed_point_counterexample :
  (well_formed (mkParsed movie (str "Blade Runner 2049") None None
                         (Some (Num 2017)) (str ".mkv")
                         (str "Blade Runner 2049"))
   /\ generateFilename
        (mkParsed movie (str "Blade Runner 2049") None None
                  (Some (Num 2017)) (str ".mkv") (str "Blade Runner 2049"))
      = str "Blade Runner 2049 (2017).mkv"
   /\ option_map generateFilename
        (parseFilename (str "Blade Runner 2049 (2017).mkv"))
      = Some (str "Blade Runner (2049).mkv"))
  /\ (well_formed (mkParsed tv (str "Show") (Some (Num 100)) (Some (Num 2))
                            None (str ".mkv") (str "Show"))
      /\ generateFilename
           (mkParsed tv (str "Show") (Some (Num 100)) (Some (Num 2))
                     None (str ".mkv") (str "Show"))
         = str "Show - S100E02.mkv"
      /\ option_map generateFilename
           (parseFilename (str "Show - S100E02.mkv"))
         = Some (str "Show S100E02.mkv"))
  /\ (well_formed (mkParsed tv (str "AC/DC Live") (Some (Num 1)) (Some (Num 2))
                            None (str ".mkv") (str "AC/DC Live"))
      /\ generateFilename
           (mkParsed tv (str "AC/DC Live") (Some (Num 1)) (Some (Num 2))
                     None (str ".mkv") (str "AC/DC Live"))
         = str "AC/DC Live - S01E02.mkv"
      /\ option_map generateFilename
           (parseFilename (str "AC/DC Live - S01E02.mkv"))
         = Some (str "DC Live - S01E02.mkv")).
Proof.
  assert (Hext : extension_ok (str ".mkv"))
    by (right; exists (str "mkv"); repeat split).
  repeat split; try exact Hext; try discriminate;
    try (vm_compute; reflexivity).
  - exists 2017%Z. split; [reflexivity | lia].
  - exists 100%Z, 2%Z. repeat split; lia.
  - exists 1%Z, 2%Z. repeat split; lia.
Qed.

(** * Further properties *)

(** ** The move executor: failures and the order of the calls *)

Section ExecutorCalls.

Variable World : Type.
Variable exec : fs_op -> World -> option errno * World.
Variable cwd : jsstring.

(** The destination check when the existence check itself fails. *)
Lemma checkDestination_unchecked (options : RenameOptions)
      (newPath : jsstring) (e : errno) (w w' : World) :
  exec (Access newPath) w = (Some e, w') ->
  run exec (checkDestination options newPath) w =
  (inr tt, w', [Access newPath]).
Proof.
  intros Hacc. unfold checkDestination.
  rewrite run_try_catch, run_bind, (run_await_err _ exec _ _ _ _ Hacc).
  destruct (code_is "ENOENT" (system_error e (Access newPath))).
  - reflexivity.
  - rewrite system_error_not_destination_exists, andb_false_r. reflexivity.
Qed.

(** X1.  When the creation of the destination directory fails,
    [renameFile] throws that error at once: the destination is not checked
    and nothing is moved. *)
Theorem renameFile_mkdir_failure
        (originalPath newBasename : jsstring) (options : RenameOptions)
        (destDir newPath : jsstring) (e : errno) (w w1 : World) :
  destination originalPath newBasename options = (destDir, newPath) ->
  options.(apply) = true ->
  Path.resolve cwd originalPath <> Path.resolve cwd newPath ->
  exec (Mkdir destDir) w = (Some e, w1) ->
  run exec (renameFile cwd originalPath newBasename options) w =
  (inl (system_error e (Mkdir destDir)), w1, [Mkdir destDir]).
Proof.
  intros Hd Happly Hneq Hmk.
  rewrite (renameFile_applies cwd _ _ _ _ _ Hd Happly Hneq).
  unfold ensureDir. rewrite run_bind, (run_await_err _ exec _ _ _ _ Hmk).
  reflexivity.
Qed.

(** X2.  When the existence check fails, with ENOENT (no destination) or
    with any other code, the destination is not deleted, whatever [replace]
    says, and the rename is attempted: the outcome of [renameFile] is the
    outcome of the move. *)
Theorem renameFile_unchecked_destination
        (originalPath newBasename : jsstring) (options : RenameOptions)
        (destDir newPath : jsstring) (e : errno) (w w1 w2 : World) :
  destination originalPath newBasename options = (destDir, newPath) ->
  options.(apply) = true ->
  Path.resolve cwd originalPath <> Path.resolve cwd newPath ->
  exec (Mkdir destDir) w = (None, w1) ->
  exec (Access newPath) w1 = (Some e, w2) ->
  exists r w' calls,
    run exec (move originalPath newPath) w2 =
    (r, w', Rename originalPath newPath :: calls)
    /\ run exec (renameFile cwd originalPath newBasename options) w =
       (r, w', [Mkdir destDir; Access newPath;
                Rename originalPath newPath] ++ calls).
Proof.
  intros Hd Happly Hneq Hmk Hacc.
  destruct (move_attempts_rename _ exec originalPath newPath w2) as [calls Hc].
  destruct (run exec (move originalPath newPath) w2) as [[r w'] calls'] eqn:Em.
  cbn in Hc. subst calls'.
  exists r, w', calls. split; [reflexivity|].
  rewrite (renameFile_applies cwd _ _ _ _ _ Hd Happly Hneq).
  unfold ensureDir. rewrite run_bind, (run_await_ok _ exec _ _ _ Hmk).
  rewrite run_bind, (checkDestination_unchecked _ _ _ _ _ Hacc).
  rewrite Em. reflexivity.
Qed.

Lemma move_copy_failure (originalPath newPath : jsstring) (e : errno)
      (w w1 w2 : World) :
  exec (Rename originalPath newPath) w = (Some EXDEV, w1) ->
  exec (CopyFile originalPath newPath) w1 = (Some e, w2) ->
  run exec (move originalPath newPath) w =
  (inl (system_error e (CopyFile originalPath newPath)), w2,
   [Rename originalPath newPath; CopyFile originalPath newPath]).
Proof.
  intros Hr Hc. rewrite (move_exdev _ exec _ _ _ _ Hr).
  rewrite run_bind, (run_await_err _ exec _ _ _ _ Hc). reflexivity.
Qed.

Lemma move_unlink_failure (originalPath newPath : jsstring) (e : errno)
      (w w1 w2 w3 : World) :
  exec (Rename originalPath newPath) w = (Some EXDEV, w1) ->
  exec (CopyFile originalPath newPath) w1 = (None, w2) ->
  exec (Unlink originalPath) w2 = (Some e, w3) ->
  run exec (move originalPath newPath) w =
  (inl (system_error e (Unlink originalPath)), w3,
   [Rename originalPath newPath; CopyFile originalPath newPath;
    Unlink originalPath]).
Proof.
  intros Hr Hc Hu. rewrite (move_exdev _ exec _ _ _ _ Hr).
  rewrite run_bind, (run_await_ok _ exec _ _ _ Hc).
  rewrite run_bind, (run_await_err _ exec _ _ _ _ Hu). reflexivity.
Qed.

(** The calls of a move: the rename, then the copy when the rename failed
    with EXDEV, then the removal of the original when the copy succeeded. *)
Lemma move_calls (originalPath newPath : jsstring) (w : World) :
  let calls := snd (run exec (move originalPath newPath) w) in
  calls = [Rename originalPath newPath]
  \/ calls = [Rename originalPath newPath; CopyFile originalPath newPath]
  \/ calls = [Rename originalPath newPath; CopyFile originalPath newPath;
              Unlink originalPath].
Proof.
  cbv zeta.
  destruct (exec (Rename originalPath newPath) w) as [[e|] w1] eqn:Hr.
  - destruct (errno_eq_dec e EXDEV) as [->|Hx].
    + destruct (exec (CopyFile originalPath newPath) w1) as [[e2|] w2] eqn:Hc.
      * rewrite (move_copy_failure _ _ _ _ _ _ Hr Hc). auto.
      * destruct (exec (Unlink originalPath) w2) as [[e3|] w3] eqn:Hu.
        -- rewrite (move_unlink_failure _ _ _ _ _ _ _ Hr Hc Hu). auto.
        -- rewrite (move_cross_device _ exec _ _ _ _ _ _ Hr Hc Hu). auto.
    + rewrite (move_other_error _ exec _ _ _ _ _ Hx Hr). auto.
  - rewrite (move_ok _ exec _ _ _ _ Hr). auto.
Qed.



(** X3.  The fallback is not retried and hides nothing: when the copy
    fails, its error is thrown and the original is not removed; when the
    removal of the original fails after the copy, its error is thrown. *)
Theorem renameFile_fallback_failures
        (originalPath newBasename : jsstring) (options : RenameOptions)
        (destDir newPath : jsstring) (w w3 w4 : World) (calls : list fs_op) :
  destination originalPath newBasename options = (destDir, newPath) ->
  options.(apply) = true ->
  Path.resolve cwd originalPath <> Path.resolve cwd newPath ->
  run exec (ensureDir destDir ;; checkDestination options newPath)%io w =
  (inr tt, w3, calls) ->
  exec (Rename originalPath newPath) w3 = (Some EXDEV, w4) ->
  (forall e w5,
      exec (CopyFile originalPath newPath) w4 = (Some e, w5) ->
      run exec (renameFile cwd originalPath newBasename options) w =
      (inl (system_error e (CopyFile originalPath newPath)), w5,
       calls ++ [Rename originalPath newPath;
                 CopyFile originalPath newPath]))
  /\ (forall e w5 w6,
         exec (CopyFile originalPath newPath) w4 = (None, w5) ->
         exec (Unlink originalPath) w5 = (Some e, w6) ->
         run exec (renameFile cwd originalPath newBasename options) w =
         (inl (system_error e (Unlink originalPath)), w6,
          calls ++ [Rename originalPath newPath;
                    CopyFile originalPath newPath; Unlink originalPath])).
Proof.
  intros Hd Happly Hneq Hpre Hr.
  rewrite (renameFile_applies cwd _ _ _ _ _ Hd Happly Hneq).
  rewrite run_bind in Hpre.
  destruct (run exec (ensureDir destDir) w) as [[[e0|[]] w1] c1] eqn:E1;
    [discriminate Hpre|].
  destruct (run exec (checkDestination options newPath) w1)
    as [[[e0|[]] w2] c2] eqn:E2; [discriminate Hpre|].
  injection Hpre as <- <-.
  split.
  - intros e w5 Hc. rewrite run_bind, E1, run_bind, E2.
    rewrite (move_copy_failure _ _ _ _ _ _ Hr Hc), app_assoc. reflexivity.
  - intros e w5 w6 Hc Hu. rewrite run_bind, E1, run_bind, E2.
    rewrite (move_unlink_failure _ _ _ _ _ _ _ Hr Hc Hu), app_assoc.
    reflexivity.
Qed.

(** The calls of the destination check. *)
Lemma checkDestination_calls (options : RenameOptions) (newPath : jsstring)
      (w : World) :
  let '(r, _, calls) := run exec (checkDestination options newPath) w in
  (calls = [Access newPath]
   /\ (r = inr tt
       \/ (r = inl (new_Error (destination_exists_message newPath))
           /\ is_true options.(replace) = false
           /\ exists w', exec (Access newPath) w = (None, w'))))
  \/ (calls = [Access newPath; Unlink newPath] /\ r = inr tt
      /\ is_true options.(replace) = true).
Proof.
  destruct (exec (Access newPath) w) as [[e|] w1] eqn:Hacc.
  - rewrite (checkDestination_unchecked _ _ _ _ _ Hacc). auto.
  - destruct (is_true options.(replace)) eqn:Hrep.
    + destruct (exec (Unlink newPath) w1) as [r2 w2] eqn:Hun.
      rewrite (checkDestination_replace _ exec _ _ _ _ _ _ Hacc Hrep Hun).
      auto.
    + rewrite (checkDestination_conflict _ exec _ _ _ _ Hacc Hrep).
      left. split; [reflexivity|]. right. eauto.
Qed.


(** How a run of [renameFile] decomposes. *)
Lemma renameFile_run
      (originalPath newBasename : jsstring) (options : RenameOptions)
      (destDir newPath : jsstring) (w : World) :
  destination originalPath newBasename options = (destDir, newPath) ->
  run exec (renameFile cwd originalPath newBasename options) w =
  (inr newPath, w, [])
  \/ (Path.resolve cwd originalPath <> Path.resolve cwd newPath
      /\ options.(apply) = true
      /\ ((exists e w1,
              exec (Mkdir destDir) w = (Some e, w1)
              /\ run exec (renameFile cwd originalPath newBasename options) w =
                 (inl (system_error e (Mkdir destDir)), w1, [Mkdir destDir]))
          \/ (exists w1 r1 w2 c1,
                 exec (Mkdir destDir) w = (None, w1)
                 /\ run exec (checkDestination options newPath) w1 =
                    (r1, w2, c1)
                 /\ match r1 with
                    | inl err =>
                      run exec
                          (renameFile cwd originalPath newBasename options) w
                      = (inl err, w2, Mkdir destDir :: c1)
                    | inr _ =>
                      exists r w3 c2,
                      run exec (move originalPath newPath) w2 = (r, w3, c2)
                      /\ run exec
                             (renameFile cwd originalPath newBasename options)
                             w
                         = (r, w3, Mkdir destDir :: c1 ++ c2)
                    end))).
Proof.
  intros Hd.
  destruct (str_eqb (Path.resolve cwd originalPath) (Path.resolve cwd newPath))
    eqn:Eeq.
  { left. unfold renameFile. rewrite Hd, Eeq. reflexivity. }
  destruct options.(apply) eqn:Happly.
  2:{ left. unfold renameFile. rewrite Hd, Eeq, Happly. reflexivity. }
  assert (Hneq : Path.resolve cwd originalPath <> Path.resolve cwd newPath).
  { intros E. rewrite E, str_eqb_refl in Eeq. discriminate. }
  right. split; [exact Hneq|]. split; [reflexivity|].
  rewrite (renameFile_applies cwd _ _ _ _ _ Hd Happly Hneq).
  unfold ensureDir.
  destruct (exec (Mkdir destDir) w) as [[e|] w1] eqn:Hmk.
  - left. exists e, w1. split; [reflexivity|].
    rewrite run_bind, (run_await_err _ exec _ _ _ _ Hmk). reflexivity.
  - right.
    destruct (run exec (checkDestination options newPath) w1)
      as [[r1 w2] c1] eqn:Ec.
    exists w1, r1, w2, c1. split; [reflexivity|]. split; [exact Ec|].
    rewrite run_bind, (run_await_ok _ exec _ _ _ Hmk), run_bind, Ec.
    destruct r1 as [err|[]].
    + reflexivity.
    + destruct (run exec (move originalPath newPath) w2) as [[r w3] c2].
      exists r, w3, c2. split; reflexivity.
Qed.

(** X4.  The calls of [renameFile], in every environment: none at all, or
    [mkdir] alone, or [mkdir] and [access] followed by the deletion of the
    destination (only with [replace]), the rename, the copy and the removal
    of the original, in this order and each at most once: at most six
    calls, on the destination directory, the destination and the original
    only. *)
Theorem renameFile_calls_in_order
        (originalPath newBasename : jsstring) (options : RenameOptions)
        (w : World) :
  let calls :=
    snd (run exec (renameFile cwd originalPath newBasename options) w) in
  let destDir := fst (destination originalPath newBasename options) in
  let newPath := snd (destination originalPath newBasename options) in
  calls = []
  \/ calls = [Mkdir destDir]
  \/ exists del mv,
      calls = Mkdir destDir :: Access newPath :: del ++ mv
      /\ (del = []
          \/ (del = [Unlink newPath] /\ is_true options.(replace) = true))
      /\ (mv = []
          \/ mv = [Rename originalPath newPath]
          \/ mv = [Rename originalPath newPath;
                   CopyFile originalPath newPath]
          \/ mv = [Rename originalPath newPath;
                   CopyFile originalPath newPath; Unlink originalPath]).
Proof.
  cbv zeta.
  destruct (destination originalPath newBasename options)
    as [destDir newPath] eqn:Hd. cbn [fst snd].
  destruct (renameFile_run _ _ _ _ _ w Hd)
    as [-> | (_ & _ & [(e & w1 & _ & ->) | (w1 & r1 & w2 & c1 & _ & Ec & H)])];
    [left; reflexivity | right; left; reflexivity |].
  right. right.
  pose proof (checkDestination_calls options newPath w1) as Hc.
  rewrite Ec in Hc.
  destruct r1 as [err|[]].
  - rewrite H. cbn [snd].
    destruct Hc as [(-> & _) | (_ & Hr & _)]; [|discriminate Hr].
    exists [], []. auto.
  - destruct H as (r & w3 & c2 & Em & ->). cbn [snd].
    pose proof (move_calls originalPath newPath w2) as Hm.
    rewrite Em in Hm. cbn [snd] in Hm.
    assert (Hmv : c2 = [] \/ c2 = [Rename originalPath newPath]
                  \/ c2 = [Rename originalPath newPath;
                           CopyFile originalPath newPath]
                  \/ c2 = [Rename originalPath newPath;
                           CopyFile originalPath newPath;
                           Unlink originalPath]) by tauto.
    destruct Hc as [(-> & _) | (-> & _ & Hrep)].
    + exists [], c2. auto.
    + exists [Unlink newPath], c2. auto.
Qed.

(** X5.  Without [replace], [renameFile] never deletes the destination:
    no [unlink] of the destination path occurs in any run. *)
Theorem renameFile_keeps_destination
        (originalPath newBasename : jsstring) (options : RenameOptions)
        (w : World) :
  is_true options.(replace) = false ->
  ~ In (Unlink (snd (destination originalPath newBasename options)))
       (snd (run exec (renameFile cwd originalPath newBasename options) w)).
Proof.
  intros Hrep.
  destruct (destination originalPath newBasename options)
    as [destDir newPath] eqn:Hd. cbn [fst snd].
  destruct (renameFile_run _ _ _ _ _ w Hd)
    as [-> | (Hneq & _ & [(e & w1 & _ & ->)
                         | (w1 & r1 & w2 & c1 & _ & Ec & H)])];
    cbn [snd].
  - intros [].
  - intros [H|[]]. discriminate H.
  - assert (Hne : originalPath <> newPath) by (intros ->; apply Hneq; reflexivity).
    pose proof (checkDestination_calls options newPath w1) as Hc.
    rewrite Ec in Hc.
    assert (Hc1 : c1 = [Access newPath]).
    { destruct Hc as [(-> & _) | (_ & _ & Hr)]; [reflexivity | congruence]. }
    subst c1.
    destruct r1 as [err|[]].
    + rewrite H. cbn [snd]. intros [E|[E|[]]]; discriminate E.
    + destruct H as (r & w3 & c2 & Em & ->). cbn [snd].
      pose proof (move_calls originalPath newPath w2) as Hm.
      rewrite Em in Hm. cbn [snd] in Hm.
      destruct Hm as [-> | [-> | ->]]; cbn.
      * intros [E|[E|[E|[]]]]; discriminate E.
      * intros [E|[E|[E|[E|[]]]]]; discriminate E.
      * intros [E|[E|[E|[E|[E|[]]]]]]; try discriminate E.
        injection E as E. contradiction.
Qed.



End ExecutorCalls.

(** The existence check is refused (EACCES) over a disk that holds the
    destination: the destination is kept and the rename goes ahead. *)
Lemma renameFile_unchecked_destination_witness :
  exists r w' calls,
    run Mock.exec (move Demo.original Demo.dest)
        (Demo.disk [(Access Demo.dest, EACCES)]) =
    (r, w', Rename Demo.original Demo.dest :: calls)
    /\ run Mock.exec
           (renameFile Demo.cwd Demo.original Demo.newName
                       (Demo.opts true (Some true)))
           (Demo.disk [(Access Demo.dest, EACCES)]) =
       (r, w', [Mkdir Demo.target; Access Demo.dest;
                Rename Demo.original Demo.dest] ++ calls).
Proof.
  apply (renameFile_unchecked_destination Mock.world Mock.exec Demo.cwd
           Demo.original Demo.newName (Demo.opts true (Some true))
           Demo.target Demo.dest EACCES
           (Demo.disk [(Access Demo.dest, EACCES)])
           (Demo.disk [(Access Demo.dest, EACCES)])
           (Demo.disk [(Access Demo.dest, EACCES)]));
    try reflexivity. differ.
Defined.

Lemma renameFile_mkdir_failure_witness :
  run Mock.exec
      (renameFile Demo.cwd Demo.original Demo.newName (Demo.opts true None))
      (Demo.disk [(Mkdir Demo.target, EROFS)]) =
  (inl (system_error EROFS (Mkdir Demo.target)),
   Demo.disk [(Mkdir Demo.target, EROFS)], [Mkdir Demo.target]).
Proof.
  apply (renameFile_mkdir_failure Mock.world Mock.exec Demo.cwd
           Demo.original Demo.newName (Demo.opts true None)
           Demo.target Demo.dest EROFS
           (Demo.disk [(Mkdir Demo.target, EROFS)])
           (Demo.disk [(Mkdir Demo.target, EROFS)]));
    try reflexivity. differ.
Defined.

(** The copy of the fallback fails (ENOSPC); the removal of the original
    fails (EPERM). *)
Lemma renameFile_fallback_failures_witness :
  run Mock.exec
      (renameFile Demo.cwd Demo.original Demo.newName (Demo.opts true None))
      (Mock.mkWorld [(Demo.original, str "episode")]
                    [(Rename Demo.original Demo.dest, EXDEV);
                     (CopyFile Demo.original Demo.dest, ENOSPC)]) =
  (inl (system_error ENOSPC (CopyFile Demo.original Demo.dest)),
   Mock.mkWorld [(Demo.original, str "episode")]
                [(Rename Demo.original Demo.dest, EXDEV);
                 (CopyFile Demo.original Demo.dest, ENOSPC)],
   [Mkdir Demo.target; Access Demo.dest] ++
   [Rename Demo.original Demo.dest; CopyFile Demo.original Demo.dest])
  /\ run Mock.exec
         (renameFile Demo.cwd Demo.original Demo.newName (Demo.opts true None))
         (Mock.mkWorld [(Demo.original, str "episode")]
                       [(Rename Demo.original Demo.dest, EXDEV);
                        (Unlink Demo.original, EPERM)]) =
     (inl (system_error EPERM (Unlink Demo.original)),
      Mock.mkWorld [(Demo.dest, str "episode"); (Demo.original, str "episode")]
                   [(Rename Demo.original Demo.dest, EXDEV);
                    (Unlink Demo.original, EPERM)],
      [Mkdir Demo.target; Access Demo.dest] ++
      [Rename Demo.original Demo.dest; CopyFile Demo.original Demo.dest;
       Unlink Demo.original]).
Proof.
  split.
  - apply (proj1 (renameFile_fallback_failures Mock.world Mock.exec Demo.cwd
             Demo.original Demo.newName (Demo.opts true None)
             Demo.target Demo.dest
             (Mock.mkWorld [(Demo.original, str "episode")]
                           [(Rename Demo.original Demo.dest, EXDEV);
                            (CopyFile Demo.original Demo.dest, ENOSPC)])
             (Mock.mkWorld [(Demo.original, str "episode")]
                           [(Rename Demo.original Demo.dest, EXDEV);
                            (CopyFile Demo.original Demo.dest, ENOSPC)])
             (Mock.mkWorld [(Demo.original, str "episode")]
                           [(Rename Demo.original Demo.dest, EXDEV);
                            (CopyFile Demo.original Demo.dest, ENOSPC)])
             [Mkdir Demo.target; Access Demo.dest]
             eq_refl eq_refl ltac:(differ) eq_refl eq_refl)
           ENOSPC
           (Mock.mkWorld [(Demo.original, str "episode")]
                         [(Rename Demo.original Demo.dest, EXDEV);
                          (CopyFile Demo.original Demo.dest, ENOSPC)])
           eq_refl).
  - apply (proj2 (renameFile_fallback_failures Mock.world Mock.exec Demo.cwd
             Demo.original Demo.newName (Demo.opts true None)
             Demo.target Demo.dest
             (Mock.mkWorld [(Demo.original, str "episode")]
                           [(Rename Demo.original Demo.dest, EXDEV);
                            (Unlink Demo.original, EPERM)])
             (Mock.mkWorld [(Demo.original, str "episode")]
                           [(Rename Demo.original Demo.dest, EXDEV);
                            (Unlink Demo.original, EPERM)])
             (Mock.mkWorld [(Demo.original, str "episode")]
                           [(Rename Demo.original Demo.dest, EXDEV);
                            (Unlink Demo.original, EPERM)])
             [Mkdir Demo.target; Access Demo.dest]
             eq_refl eq_refl ltac:(differ) eq_refl eq_refl)
           EPERM
           (Mock.mkWorld [(Demo.dest, str "episode");
                          (Demo.original, str "episode")]
                         [(Rename Demo.original Demo.dest, EXDEV);
                          (Unlink Demo.original, EPERM)])
           (Mock.mkWorld [(Demo.dest, str "episode");
                          (Demo.original, str "episode")]
                         [(Rename Demo.original Demo.dest, EXDEV);
                          (Unlink Demo.original, EPERM)])
           eq_refl eq_refl).
Defined.

Lemma renameFile_keeps_destination_witness :
  is_true (Demo.opts true None).(replace) = false
  /\ ~ In (Unlink Demo.dest)
          (snd (run Mock.exec
                    (renameFile Demo.cwd Demo.original Demo.newName
                                (Demo.opts true None))
                    (Demo.disk [(Access Demo.dest, EACCES)]))).
Proof.
  split; [reflexivity|].
  exact (renameFile_keeps_destination Mock.world Mock.exec Demo.cwd
           Demo.original Demo.newName (Demo.opts true None)
           (Demo.disk [(Access Demo.dest, EACCES)]) eq_refl).
Defined.


(** ** The title normalizer, function by function *)

(** X8.  [cleanTitle] returns a clean title (no dot, underscore or dash,
    no whitespace but single spaces between words, none at either end), and
    cleaning twice is cleaning once. *)
Theorem cleanTitle_idempotent (raw : jsstring) :
  clean (cleanTitle raw) = true
  /\ cleanTitle (cleanTitle raw) = cleanTitle raw.
Proof.
  split.
  - apply cleanTitle_clean.
  - apply cleanTitle_clean_id, cleanTitle_clean.
Qed.

Lemma capitalize_words_length (s : jsstring) :
  forall b, length (capitalize_words b s) = length s.
Proof.
  induction s as [|c s IH]; intros b; [reflexivity|].
  cbn [capitalize_words]. destruct (chr_eqb c " "); simpl; rewrite IH;
    reflexivity.
Qed.

Lemma capitalize_words_upper (s : jsstring) :
  forall b, map toUpperCase (capitalize_words b s) = map toUpperCase s.
Proof.
  induction s as [|c s IH]; intros b; [reflexivity|].
  cbn [capitalize_words]. destruct (chr_eqb c " "); cbn [map]; rewrite IH;
    [reflexivity|].
  destruct b; rewrite ?upper_upper; reflexivity.
Qed.

Lemma capitalize_words_after_space (a t : jsstring) :
  forall b,
    capitalize_words b (a ++ " "%char :: t)
    = capitalize_words b a ++ " "%char :: capitalize_words true t.
Proof.
  induction a as [|x a IH]; intros b; [reflexivity|].
  cbn [app capitalize_words]. destruct (chr_eqb x " "); rewrite IH;
    reflexivity.
Qed.

Lemma capitalize_words_head (c : ascii) (t : jsstring) :
  exists t', capitalize_words true (c :: t) = toUpperCase c :: t'.
Proof.
  cbn [capitalize_words]. destruct (chr_eqb c " ") eqn:E; [|eauto].
  apply Ascii.eqb_eq in E. subst c. eauto.
Qed.

(** X9.  [titleCase] changes nothing but the case of letters: it keeps the
    length, the upper-cased text is the same before and after, and
    title-casing twice is title-casing once.  The first character and every
    character that follows a space come out in upper case. *)
Theorem titleCase_only_case (s : jsstring) :
  length (titleCase s) = length s
  /\ map toUpperCase (titleCase s) = map toUpperCase s
  /\ titleCase (titleCase s) = titleCase s
  /\ hd_error (titleCase s) = option_map toUpperCase (hd_error s)
  /\ (forall a c b,
         nth_error (titleCase (a ++ " "%char :: c :: b)) (S (length a))
         = Some (toUpperCase c)).
Proof.
  repeat split.
  - rewrite titleCase_words. apply capitalize_words_length.
  - rewrite titleCase_words. apply capitalize_words_upper.
  - rewrite !titleCase_words. apply capitalize_words_idem.
  - rewrite titleCase_words. destruct s as [|c t]; [reflexivity|].
    destruct (capitalize_words_head c t) as [t' ->]. reflexivity.
  - intros a c b. rewrite titleCase_words, capitalize_words_after_space.
    destruct (capitalize_words_head c b) as [t' ->].
    rewrite nth_error_app2; rewrite capitalize_words_length; [|lia].
    replace (S (length a) - length a) with 1 by lia. reflexivity.
Qed.

(** *** Names the parser rejects *)











Lemma matches_sub (r : regex) (m : jsstring) (c c' : captures) :
  Matches r m c c' ->
  forall n v, In (n, v) c' -> In (n, v) c \/ (forall x, In x v -> In x m).
Proof.
  induction 1 as [p ch caps Hp | p lo hi g m caps Hm Hlo Hhi
                  | r1 r2 m1 m2 c c1 c2 M1 IH1 M2 IH2
                  | r1 r2 m c c' M IH | r1 r2 m c c' M IH
                  | k r m c c' M IH]; intros n v Hin; auto.
  - destruct (IH2 n v Hin) as [Hc1 | Hsub].
    + destruct (IH1 n v Hc1) as [Hc | Hsub]; [auto|].
      right. intros x Hx. apply in_or_app. auto.
    + right. intros x Hx. apply in_or_app. auto.
  - destruct Hin as [[= <- <-] | Hin]; [right; auto|].
    apply IH, Hin.
Qed.


Lemma in_prefix (x : ascii) (s m s' : jsstring) :
  s = m ++ s' -> In x m -> In x s.
Proof. intros -> H. apply in_or_app. auto. Qed.





(** ** Numerals: printing and reading back *)

Lemma digit_char (d : N) :
  (d < 10)%N ->
  is_digit (ascii_of_N (48 + d)) = true
  /\ (Z.of_N (char_code (ascii_of_N (48 + d))) - 48 = Z.of_N d)%Z.
Proof.
  intros H.
  assert (Hd : d = 0%N \/ d = 1%N \/ d = 2%N \/ d = 3%N \/ d = 4%N \/ d = 5%N
               \/ d = 6%N \/ d = 7%N \/ d = 8%N \/ d = 9%N) by lia.
  repeat (destruct Hd as [-> | Hd]; [split; reflexivity|]).
  subst d. split; reflexivity.
Qed.

Lemma digits_value_shift (tl : jsstring) :
  forallb is_digit tl = true ->
  forall a,
    (digits_value a tl
     = a * 10 ^ Z.of_nat (length tl) + digits_value 0 tl)%Z.
Proof.
  induction tl as [|c tl IH]; intros H a.
  - simpl. lia.
  - simpl in H. apply andb_true_iff in H. destruct H as [Hc Ht].
    cbn [digits_value length]. rewrite Hc.
    rewrite (IH Ht (10 * a + _)%Z), (IH Ht (10 * 0 + _)%Z).
    rewrite Nat2Z.inj_succ, Z.pow_succ_r by lia. ring.
Qed.

(** The numeral [digits_of] writes in front of [tl]: decimal digits whose
    value is [n]. *)
Lemma digits_of_value (f : nat) :
  forall (n : N) (tl : jsstring),
    (n < 2 ^ N.of_nat f)%N ->
    forallb is_digit tl = true ->
    forallb is_digit (digits_of (S f) n tl) = true
    /\ (digits_value 0 (digits_of (S f) n tl)
        = Z.of_N n * 10 ^ Z.of_nat (length tl) + digits_value 0 tl)%Z
    /\ length tl < length (digits_of (S f) n tl)
    /\ ((10 <= n)%N -> S (length tl) < length (digits_of (S f) n tl)).
Proof.
  induction f as [|f IH]; intros n tl Hn Htl.
  - change (2 ^ N.of_nat 0)%N with 1%N in Hn.
    assert (n = 0%N) by lia. subst n. cbn -[Z.pow].
    rewrite Htl. repeat split; lia.
  - assert (Hm : (n mod 10 < 10)%N) by (apply N.mod_lt; lia).
    destruct (digit_char (n mod 10) Hm) as [Hd Hv].
    assert (Hacc : forallb is_digit (ascii_of_N (48 + n mod 10) :: tl) = true)
      by (cbn [forallb]; rewrite Hd; exact Htl).
    assert (Hval : (digits_value 0 (ascii_of_N (48 + n mod 10) :: tl)
                    = Z.of_N (n mod 10) * 10 ^ Z.of_nat (length tl)
                      + digits_value 0 tl)%Z).
    { cbn [digits_value]. rewrite Hd, Hv.
      rewrite (digits_value_shift tl Htl). reflexivity. }
    change (digits_of (S (S f)) n tl)
      with (if (n / 10 =? 0)%N then ascii_of_N (48 + n mod 10) :: tl
            else digits_of (S f) (n / 10) (ascii_of_N (48 + n mod 10) :: tl)).
    destruct (n / 10 =? 0)%N eqn:E.
    + apply N.eqb_eq in E.
      assert (Hlt : (n < 10)%N).
      { pose proof (N.div_mod n 10 ltac:(lia)). lia. }
      rewrite N.mod_small in * by exact Hlt.
      repeat split; auto; simpl; lia.
    + apply N.eqb_neq in E.
      assert (Hq : (n / 10 < 2 ^ N.of_nat f)%N).
      { replace (N.of_nat (S f)) with (N.succ (N.of_nat f)) in Hn by lia.
        rewrite N.pow_succ_r' in Hn.
        apply N.Div0.div_lt_upper_bound. lia. }
      destruct (IH (n / 10)%N _ Hq Hacc) as (H1 & H2 & H3 & _).
      split; [exact H1|]. split; [|cbn [length] in H3; lia].
      rewrite H2, Hval. cbn [length]. rewrite Nat2Z.inj_succ, Z.pow_succ_r by lia.
      pose proof (N.div_mod n 10 ltac:(lia)) as Hdm.
      assert (Hz : Z.of_N n = (10 * Z.of_N (n / 10) + Z.of_N (n mod 10))%Z)
        by lia.
      rewrite Hz. ring.
Qed.

Lemma size_nat_bound (n : N) : (n < 2 ^ N.of_nat (N.size_nat n))%N.
Proof.
  destruct n as [|p]; [reflexivity|].
  cbn [N.size_nat].
  induction p as [p IH|p IH|]; cbn [Pos.size_nat].
  - replace (N.of_nat (S (Pos.size_nat p)))
      with (N.succ (N.of_nat (Pos.size_nat p))) by lia.
    rewrite N.pow_succ_r'. lia.
  - replace (N.of_nat (S (Pos.size_nat p)))
      with (N.succ (N.of_nat (Pos.size_nat p))) by lia.
    rewrite N.pow_succ_r'. lia.
  - reflexivity.
Qed.

(** The numeral of a natural number reads back as that number. *)
Lemma show_nonneg (n : Z) :
  (0 <= n)%Z ->
  forallb is_digit (show (Num n)) = true
  /\ digits_value 0 (show (Num n)) = n
  /\ 1 <= length (show (Num n))
  /\ ((10 <= n)%Z -> 2 <= length (show (Num n))).
Proof.
  intros Hn. unfold show.
  destruct (n <? 0)%Z eqn:E; [apply Z.ltb_lt in E; lia|].
  destruct (digits_of_value (N.size_nat (Z.abs_N n)) (Z.abs_N n) []
                            (size_nat_bound _) eq_refl)
    as (H1 & H2 & H3 & H4).
  split; [exact H1|]. split; [|split].
  - rewrite H2. cbn [length digits_value Z.of_nat].
    change (10 ^ 0)%Z with 1%Z. lia.
  - cbn [length] in H3. lia.
  - intros H10. cbn [length] in H4. apply H4. lia.
Qed.

Lemma pad2_nonneg (n : Z) :
  (0 <= n)%Z ->
  forallb is_digit (pad2 (Some (Num n))) = true
  /\ 2 <= length (pad2 (Some (Num n)))
  /\ parseInt10 (pad2 (Some (Num n))) = Num n.
Proof.
  intros Hn. destruct (show_nonneg n Hn) as (H1 & H2 & H3 & H4).
  unfold pad2, lt10. destruct (n <? 10)%Z eqn:E.
  - assert (Hall : forallb is_digit ("0"%char :: show (Num n)) = true)
      by (cbn [forallb]; rewrite H1; reflexivity).
    split; [exact Hall|]. split; [cbn [length]; lia|].
    rewrite (parseInt10_digits _ Hall) by discriminate.
    cbn [digits_value]. change (is_digit "0") with true. cbv iota.
    change (10 * 0 + (Z.of_N (char_code "0") - 48))%Z with 0%Z.
    rewrite H2. reflexivity.
  - apply Z.ltb_ge in E. split; [exact H1|]. split; [apply H4; exact E|].
    rewrite (parseInt10_digits _ H1).
    + rewrite H2. reflexivity.
    + intros Hnil. rewrite Hnil in H3. simpl in H3. lia.
Qed.

(** X11.  [pad2] never returns fewer than two characters, whatever it is
    given: a missing number, NaN, a negative or a large one. *)
Theorem pad2_at_least_two (n : option number) : 2 <= length (pad2 n).
Proof.
  destruct n as [[z|]|]; [| cbn; lia | cbn; lia].
  destruct (Z.le_gt_cases 0 z) as [Hz | Hz].
  - apply (pad2_nonneg z Hz).
  - unfold pad2, lt10. replace (z <? 10)%Z with true by (symmetry; apply Z.ltb_lt; lia).
    unfold show. replace (z <? 0)%Z with true by (symmetry; apply Z.ltb_lt; lia).
    cbn [length]. lia.
Qed.

(** X12.  For a safe integer [n >= 0], [pad2 n] is made of decimal digits,
    and [parseInt(pad2(n), 10)] is [n] again: padding loses nothing. *)
Theorem pad2_reads_back (n : Z) :
  safe_integer n -> (0 <= n)%Z ->
  forallb is_digit (pad2 (Some (Num n))) = true
  /\ parseInt10 (pad2 (Some (Num n))) = Num n.
Proof.
  intros _ Hn. destruct (pad2_nonneg n Hn) as (H1 & _ & H2). auto.
Qed.

Lemma pad2_reads_back_witness :
  forallb is_digit (pad2 (Some (Num 7))) = true
  /\ parseInt10 (pad2 (Some (Num 7))) = Num 7.
Proof. apply (pad2_reads_back 7); unfold safe_integer; lia. Defined.

(** X13.  A negative safe integer is padded to [0-...]: the zero goes in
    front of the sign, and the padded text reads back as 0, not as the
    number. *)
Theorem pad2_negative (n : Z) :
  safe_integer n -> (n < 0)%Z ->
  (exists ds, pad2 (Some (Num n)) = "0"%char :: "-"%char :: ds
              /\ forallb is_digit ds = true /\ digits_value 0 ds = (- n)%Z)
  /\ parseInt10 (pad2 (Some (Num n))) = Num 0.
Proof.
  intros _ Hn.
  assert (Hp : pad2 (Some (Num n)) = "0"%char :: "-"%char :: show (Num (- n))).
  { unfold pad2, lt10, show.
    replace (n <? 10)%Z with true by (symmetry; apply Z.ltb_lt; lia).
    replace (n <? 0)%Z with true by (symmetry; apply Z.ltb_lt; lia).
    replace (- n <? 0)%Z with false by (symmetry; apply Z.ltb_ge; lia).
    replace (Z.abs_N (- n)) with (Z.abs_N n) by lia. reflexivity. }
  split.
  - exists (show (Num (- n))). split; [exact Hp|].
    destruct (show_nonneg (- n)%Z ltac:(lia)) as (H1 & H2 & _). auto.
  - rewrite Hp. reflexivity.
Qed.

Lemma pad2_negative_witness :
  (exists ds, pad2 (Some (Num (-5))) = "0"%char :: "-"%char :: ds
              /\ forallb is_digit ds = true /\ digits_value 0 ds = (- (-5))%Z)
  /\ parseInt10 (pad2 (Some (Num (-5)))) = Num 0.
Proof. apply (pad2_negative (-5)); unfold safe_integer; lia. Defined.

(** ** The parser on names with trailing text *)



(** ** The parser on movie names *)








(** ** The command line *)

Example parseArgs_example :
  Cli.parseArgs [str "node"; str "cli.js"; str "--recursive"; str "--target";
                 str "./renamed"; str "."]
  = Cli.Return (Cli.mkArgs false true false (Some (str "./renamed"))
                           [str "."]).
Proof. reflexivity. Qed.

Example parseArgs_target_missing :
  Cli.parseArgs [str "node"; str "cli.js"; str "a.mkv"; str "--target"]
  = Cli.Exit (Cli.console_error Cli.target_requires) 2.
Proof. reflexivity. Qed.

(** An option word given as the value of [--target] is a directory name. *)
Example parseArgs_target_takes_flag :
  Cli.parseArgs [str "node"; str "cli.js"; str "--target"; str "--apply";
                 str "a.mkv"]
  = Cli.Return (Cli.mkArgs false false false (Some (str "--apply"))
                           [str "a.mkv"]).
Proof. reflexivity. Qed.

Ltac arg_cases a :=
  destruct (str_eqb a (str "--apply")) eqn:Eapply;
  [| destruct (str_eqb a (str "--recursive")) eqn:Erecursive;
     [| destruct (str_eqb a (str "--replace")) eqn:Ereplace;
        [| destruct (str_eqb a (str "--target")) eqn:Etarget;
           [| destruct (str_eqb a (str "--help") || str_eqb a (str "-h"))
                       eqn:Ehelp ]]]].

Lemma parseArgs_loop_flags (args : list jsstring) :
  forallb (fun a => negb (str_eqb a (str "--target") || str_eqb a (str "--help")
                          || str_eqb a (str "-h"))) args = true ->
  forall res,
    Cli.parseArgs_loop args res
    = Cli.Return
        (Cli.mkArgs (res.(Cli.apply) || Cli.given (str "--apply") args)
                    (res.(Cli.recursive) || Cli.given (str "--recursive") args)
                    (res.(Cli.replace) || Cli.given (str "--replace") args)
                    res.(Cli.target)
                    (res.(Cli.sources)
                     ++ filter (fun a => negb (Cli.is_flag a)) args)).
Proof.
  induction args as [|a rest IH]; intros Hok res.
  - cbn. rewrite !orb_false_r, app_nil_r. destruct res; reflexivity.
  - cbn [forallb] in Hok. apply andb_true_iff in Hok. destruct Hok as [Ha Hrest].
    apply negb_true_iff in Ha.
    cbn [Cli.parseArgs_loop Cli.given existsb filter]. unfold Cli.is_flag.
    arg_cases a.
    + rewrite (IH Hrest). apply str_eqb_eq in Eapply. subst a.
      cbn. rewrite !orb_true_r. reflexivity.
    + rewrite (IH Hrest). apply str_eqb_eq in Erecursive. subst a.
      cbn. rewrite !orb_true_r. reflexivity.
    + rewrite (IH Hrest). apply str_eqb_eq in Ereplace. subst a.
      cbn. rewrite !orb_true_r. reflexivity.
    + cbn [orb] in Ha. discriminate Ha.
    + cbn [orb] in Ha. congruence.
    + rewrite (IH Hrest). cbn [Cli.apply Cli.recursive Cli.replace Cli.target
                               Cli.sources orb negb].
      rewrite <- app_assoc. reflexivity.
Qed.

(** X16.  Without [--target] and [--help], [parseArgs] returns: each of
    [apply], [recursive] and [replace] is true exactly when its flag is
    among the arguments, wherever it stands and however often; the sources
    are the other arguments, in their order, or ["."] when there is none;
    the first two entries of [argv] are not read. *)
Theorem parseArgs_flags_and_sources (node script : jsstring)
        (args : list jsstring) :
  forallb (fun a => negb (str_eqb a (str "--target") || str_eqb a (str "--help")
                          || str_eqb a (str "-h"))) args = true ->
  Cli.parseArgs (node :: script :: args)
  = Cli.Return
      (Cli.mkArgs (Cli.given (str "--apply") args)
                  (Cli.given (str "--recursive") args)
                  (Cli.given (str "--replace") args)
                  None
                  (match filter (fun a => negb (Cli.is_flag a)) args with
                   | [] => [str "."]
                   | l => l
                   end)).
Proof.
  intros Hok. unfold Cli.parseArgs. cbn [skipn].
  rewrite (parseArgs_loop_flags args Hok). cbn.
  destruct (filter (fun a => negb (Cli.is_flag a)) args); reflexivity.
Qed.

Lemma parseArgs_flags_and_sources_witness :
  Cli.parseArgs [str "node"; str "cli.js"; str "b.mkv"; str "--replace";
                 str "a.mkv"; str "--apply"; str "--replace"]
  = Cli.Return (Cli.mkArgs true false true None [str "b.mkv"; str "a.mkv"]).
Proof.
  exact (parseArgs_flags_and_sources (str "node") (str "cli.js")
           [str "b.mkv"; str "--replace"; str "a.mkv"; str "--apply";
            str "--replace"] eq_refl).
Defined.

(** The loop carries on after a prefix it has read to the end. *)
Lemma parseArgs_loop_app_bounded (n : nat) :
  forall pre post res r,
    length pre <= n ->
    Cli.parseArgs_loop pre res = Cli.Return r ->
    Cli.parseArgs_loop (pre ++ post) res = Cli.parseArgs_loop post r.
Proof.
  induction n as [|n IH]; intros pre post res r Hn H.
  - destruct pre; [|simpl in Hn; lia].
    cbn in H. injection H as ->. reflexivity.
  - destruct pre as [|a pre].
    { cbn in H. injection H as ->. reflexivity. }
    simpl in Hn. cbn [app Cli.parseArgs_loop] in H |- *.
    arg_cases a; try (apply IH; [lia | exact H]).
    + destruct pre as [|[|c v] pre]; try discriminate H.
      cbn [app]. apply IH; [simpl in Hn; lia | exact H].
    + discriminate H.
Qed.

(** X17.  The arguments are read from left to right, and what has been read
    is not read again: when the loop of [parseArgs] reads [pre] to its end,
    reading [pre ++ post] is reading [post] from the record [pre] gave.  In
    particular later flags add to earlier ones and the last [--target]
    wins. *)
Theorem parseArgs_loop_app (pre post : list jsstring) (res r : Cli.CLIArgs) :
  Cli.parseArgs_loop pre res = Cli.Return r ->
  Cli.parseArgs_loop (pre ++ post) res = Cli.parseArgs_loop post r.
Proof. apply (parseArgs_loop_app_bounded (length pre)). lia. Qed.

Lemma parseArgs_loop_app_witness :
  Cli.parseArgs_loop ([str "--target"; str "a"; str "x.mkv"]
                      ++ [str "--target"; str "b"; str "--apply"]) Cli.no_args
  = Cli.parseArgs_loop [str "--target"; str "b"; str "--apply"]
      (Cli.mkArgs false false false (Some (str "a")) [str "x.mkv"]).
Proof.
  exact (parseArgs_loop_app [str "--target"; str "a"; str "x.mkv"]
           [str "--target"; str "b"; str "--apply"] Cli.no_args
           (Cli.mkArgs false false false (Some (str "a")) [str "x.mkv"])
           eq_refl).
Defined.

(** What the loop has put in the record it returns. *)
Lemma parseArgs_loop_returned (n : nat) :
  forall args res r,
    length args <= n ->
    Cli.parseArgs_loop args res = Cli.Return r ->
    (forall s, In s r.(Cli.sources) ->
               In s res.(Cli.sources)
               \/ (In s args /\ Cli.is_option s = false))
    /\ (forall t, r.(Cli.target) = Some t ->
                  res.(Cli.target) = Some t
                  \/ (t <> []
                      /\ exists pre post,
                          args = pre ++ str "--target" :: t :: post))
    /\ (r.(Cli.apply) = true ->
        res.(Cli.apply) = true \/ In (str "--apply") args)
    /\ (r.(Cli.recursive) = true ->
        res.(Cli.recursive) = true \/ In (str "--recursive") args)
    /\ (r.(Cli.replace) = true ->
        res.(Cli.replace) = true \/ In (str "--replace") args).
Proof.
  induction n as [|n IH]; intros args res r Hn H.
  - destruct args; [|simpl in Hn; lia]. cbn in H. injection H as <-.
    repeat split; auto.
  - destruct args as [|a args].
    { cbn in H. injection H as <-. repeat split; auto. }
    simpl in Hn. cbn [Cli.parseArgs_loop] in H.
    assert (Hstep : forall res',
               Cli.parseArgs_loop args res' = Cli.Return r ->
               (forall s, In s res'.(Cli.sources) ->
                          In s res.(Cli.sources)
                          \/ (s = a /\ Cli.is_option s = false)) ->
               res'.(Cli.target) = res.(Cli.target) ->
               (res'.(Cli.apply) = true ->
                res.(Cli.apply) = true \/ a = str "--apply") ->
               (res'.(Cli.recursive) = true ->
                res.(Cli.recursive) = true \/ a = str "--recursive") ->
               (res'.(Cli.replace) = true ->
                res.(Cli.replace) = true \/ a = str "--replace") ->
               (forall s, In s r.(Cli.sources) ->
                          In s res.(Cli.sources)
                          \/ (In s (a :: args) /\ Cli.is_option s = false))
               /\ (forall t, r.(Cli.target) = Some t ->
                             res.(Cli.target) = Some t
                             \/ (t <> []
                                 /\ exists pre post,
                                     a :: args
                                     = pre ++ str "--target" :: t :: post))
               /\ (r.(Cli.apply) = true ->
                   res.(Cli.apply) = true \/ In (str "--apply") (a :: args))
               /\ (r.(Cli.recursive) = true ->
                   res.(Cli.recursive) = true
                   \/ In (str "--recursive") (a :: args))
               /\ (r.(Cli.replace) = true ->
                   res.(Cli.replace) = true
                   \/ In (str "--replace") (a :: args))).
    { intros res' H' Hs Ht Ha Hr Hp.
      destruct (IH args res' r ltac:(lia) H') as (I1 & I2 & I3 & I4 & I5).
      split; [|split; [|split; [|split]]].
      - intros s Hin. destruct (I1 s Hin) as [Hold | [Hin' Hopt]].
        + destruct (Hs s Hold) as [? | [-> ?]]; [auto|]. right. cbn. auto.
        + right. cbn. auto.
      - intros t Et. destruct (I2 t Et) as [Hold | (Hne & pre & post & ->)].
        + left. congruence.
        + right. split; [exact Hne|]. exists (a :: pre), post. reflexivity.
      - intros E. destruct (I3 E) as [Hold | Hin]; [|right; cbn; auto].
        destruct (Ha Hold) as [? | ->]; [auto | right; cbn; auto].
      - intros E. destruct (I4 E) as [Hold | Hin]; [|right; cbn; auto].
        destruct (Hr Hold) as [? | ->]; [auto | right; cbn; auto].
      - intros E. destruct (I5 E) as [Hold | Hin]; [|right; cbn; auto].
        destruct (Hp Hold) as [? | ->]; [auto | right; cbn; auto]. }
    arg_cases a.
    + apply str_eqb_eq in Eapply.
      apply (Hstep _ H); cbn; auto.
    + apply str_eqb_eq in Erecursive.
      apply (Hstep _ H); cbn; auto.
    + apply str_eqb_eq in Ereplace.
      apply (Hstep _ H); cbn; auto.
    + apply str_eqb_eq in Etarget. subst a.
      destruct args as [|[|c v] args]; try discriminate H.
      simpl in Hn.
      destruct (IH args _ r ltac:(lia) H) as (I1 & I2 & I3 & I4 & I5).
      cbn [Cli.apply Cli.recursive Cli.replace Cli.target Cli.sources] in *.
      split; [|split; [|split; [|split]]].
      * intros s Hin. destruct (I1 s Hin) as [? | [? ?]]; [auto|].
        right. cbn. auto.
      * intros t Et. right.
        destruct (I2 t Et) as [[= <-] | (Hne & pre & post & ->)].
        -- split; [discriminate|]. exists [], args. reflexivity.
        -- split; [exact Hne|].
           exists (str "--target" :: (c :: v) :: pre), post. reflexivity.
      * intros E. destruct (I3 E); [auto | right; cbn; auto].
      * intros E. destruct (I4 E); [auto | right; cbn; auto].
      * intros E. destruct (I5 E); [auto | right; cbn; auto].
    + discriminate H.
    + apply (Hstep _ H); cbn; auto.
      intros s Hin. apply in_app_or in Hin. destruct Hin as [? | [<- | []]];
        [auto|]. right. split; [reflexivity|].
      unfold Cli.is_option, Cli.is_flag.
      rewrite Eapply, Erecursive, Ereplace, Etarget. cbn [orb].
      exact Ehelp.
Qed.

(** X18.  Whatever [parseArgs] returns: the sources are not empty, none of
    them is an option word, and each is ["."] or one of the arguments; a
    target is the non-empty argument that follows a [--target]; [apply],
    [recursive] and [replace] are true only if their flag is among the
    arguments. *)
Theorem parseArgs_returned (argv : list jsstring) (res : Cli.CLIArgs) :
  Cli.parseArgs argv = Cli.Return res ->
  res.(Cli.sources) <> []
  /\ (forall s, In s res.(Cli.sources) ->
                Cli.is_option s = false
                /\ (s = str "." \/ In s (skipn 2 argv)))
  /\ (forall t, res.(Cli.target) = Some t ->
                t <> []
                /\ exists pre post,
                    skipn 2 argv = pre ++ str "--target" :: t :: post)
  /\ (res.(Cli.apply) = true -> In (str "--apply") (skipn 2 argv))
  /\ (res.(Cli.recursive) = true -> In (str "--recursive") (skipn 2 argv))
  /\ (res.(Cli.replace) = true -> In (str "--replace") (skipn 2 argv)).
Proof.
  unfold Cli.parseArgs.
  destruct (Cli.parseArgs_loop (skipn 2 argv) Cli.no_args) as [r|] eqn:E;
    [|discriminate].
  destruct (parseArgs_loop_returned _ _ _ _ (le_n _) E)
    as (I1 & I2 & I3 & I4 & I5).
  cbn [Cli.no_args Cli.apply Cli.recursive Cli.replace Cli.target Cli.sources]
    in *.
  intros [= <-].
  assert (Hs : forall s, In s r.(Cli.sources) ->
                         Cli.is_option s = false
                         /\ (s = str "." \/ In s (skipn 2 argv))).
  { intros s Hin. destruct (I1 s Hin) as [[] | [Hin' Hopt]]. auto. }
  assert (Ht : forall t, r.(Cli.target) = Some t ->
                         t <> []
                         /\ exists pre post,
                             skipn 2 argv = pre ++ str "--target" :: t :: post).
  { intros t Et. destruct (I2 t Et) as [He | H]; [discriminate He | exact H]. }
  assert (Ha : r.(Cli.apply) = true -> In (str "--apply") (skipn 2 argv))
    by (intros Hx; destruct (I3 Hx) as [Hf|]; [discriminate Hf | assumption]).
  assert (Hr : r.(Cli.recursive) = true ->
               In (str "--recursive") (skipn 2 argv))
    by (intros Hx; destruct (I4 Hx) as [Hf|]; [discriminate Hf | assumption]).
  assert (Hp : r.(Cli.replace) = true -> In (str "--replace") (skipn 2 argv))
    by (intros Hx; destruct (I5 Hx) as [Hf|]; [discriminate Hf | assumption]).
  destruct r as [a rc rp t [|s0 ss]];
    cbn [Cli.apply Cli.recursive Cli.replace Cli.target Cli.sources] in *.
  - repeat split; auto; try discriminate.
    + destruct H as [<- | []]. reflexivity.
    + destruct H as [<- | []]. auto.
    + apply (Ht t0 H).
    + apply (Ht t0 H).
  - repeat split; auto; try discriminate; try apply (Hs s H);
      try apply (Ht t0 H).
Qed.

Lemma parseArgs_returned_witness :
  let res := Cli.mkArgs false true false (Some (str "./renamed")) [str "."] in
  let argv := [str "node"; str "cli.js"; str "--recursive"; str "--target";
               str "./renamed"; str "."] in
  res.(Cli.sources) <> []
  /\ (forall s, In s res.(Cli.sources) ->
                Cli.is_option s = false
                /\ (s = str "." \/ In s (skipn 2 argv)))
  /\ (forall t, res.(Cli.target) = Some t ->
                t <> []
                /\ exists pre post,
                    skipn 2 argv = pre ++ str "--target" :: t :: post)
  /\ (res.(Cli.apply) = true -> In (str "--apply") (skipn 2 argv))
  /\ (res.(Cli.recursive) = true -> In (str "--recursive") (skipn 2 argv))
  /\ (res.(Cli.replace) = true -> In (str "--replace") (skipn 2 argv)).
Proof.
  exact (parseArgs_returned
           [str "node"; str "cli.js"; str "--recursive"; str "--target";
            str "./renamed"; str "."]
           (Cli.mkArgs false true false (Some (str "./renamed")) [str "."])
           eq_refl).
Defined.

(** Why the loop ends the process. *)
Lemma parseArgs_loop_exits (n : nat) :
  forall args res out code,
    length args <= n ->
    Cli.parseArgs_loop args res = Cli.Exit out code ->
    (out = Cli.printHelp /\ code = 0%Z
     /\ exists pre h post,
         args = pre ++ h :: post /\ (h = str "--help" \/ h = str "-h"))
    \/ (out = Cli.console_error Cli.target_requires /\ code = 2%Z
        /\ exists pre,
            args = pre ++ [str "--target"]
            \/ exists post, args = pre ++ str "--target" :: [] :: post).
Proof.
  induction n as [|n IH]; intros args res out code Hn H.
  - destruct args; [discriminate H | simpl in Hn; lia].
  - destruct args as [|a args]; [discriminate H|].
    simpl in Hn. cbn [Cli.parseArgs_loop] in H.
    assert (Hstep : forall res',
               Cli.parseArgs_loop args res' = Cli.Exit out code ->
               (out = Cli.printHelp /\ code = 0%Z
                /\ exists pre h post,
                    a :: args = pre ++ h :: post
                    /\ (h = str "--help" \/ h = str "-h"))
               \/ (out = Cli.console_error Cli.target_requires /\ code = 2%Z
                   /\ exists pre,
                       a :: args = pre ++ [str "--target"]
                       \/ exists post,
                           a :: args = pre ++ str "--target" :: [] :: post)).
    { intros res' H'.
      destruct (IH args res' out code ltac:(lia) H')
        as [(-> & -> & pre & h & post & -> & Hh)
           | (-> & -> & pre & [-> | [post ->]])].
      - left. repeat split. exists (a :: pre), h, post. auto.
      - right. repeat split. exists (a :: pre). auto.
      - right. repeat split. exists (a :: pre). right. exists post.
        reflexivity. }
    arg_cases a; try (apply (Hstep _ H)).
    + apply str_eqb_eq in Etarget. subst a.
      destruct args as [|[|c v] args].
      * injection H as <- <-. right. repeat split. exists []. auto.
      * injection H as <- <-. right. repeat split. exists []. right.
        exists args. reflexivity.
      * simpl in Hn.
        destruct (IH args _ out code ltac:(lia) H)
          as [(-> & -> & pre & h & post & -> & Hh)
             | (-> & -> & pre & [-> | [post ->]])].
        -- left. repeat split.
           exists (str "--target" :: (c :: v) :: pre), h, post. auto.
        -- right. repeat split.
           exists (str "--target" :: (c :: v) :: pre). auto.
        -- right. repeat split.
           exists (str "--target" :: (c :: v) :: pre). right. exists post.
           reflexivity.
    + injection H as <- <-. left. repeat split.
      exists [], a, args. split; [reflexivity|].
      apply orb_true_iff in Ehelp.
      destruct Ehelp as [E | E]; apply str_eqb_eq in E; auto.
Qed.

(** X19.  [parseArgs] ends the process in two ways only: with code 0 after
    the help text, for an argument [--help] or [-h]; with code 2 after the
    message [--target requires a directory path], for a [--target] that is
    the last argument or is followed by an empty one. *)
Theorem parseArgs_exits (argv : list jsstring) (out : Cli.console)
        (code : Z) :
  Cli.parseArgs argv = Cli.Exit out code ->
  (out = Cli.printHelp /\ code = 0%Z
   /\ exists pre h post,
       skipn 2 argv = pre ++ h :: post /\ (h = str "--help" \/ h = str "-h"))
  \/ (out = Cli.console_error Cli.target_requires /\ code = 2%Z
      /\ exists pre,
          skipn 2 argv = pre ++ [str "--target"]
          \/ exists post, skipn 2 argv = pre ++ str "--target" :: [] :: post).
Proof.
  unfold Cli.parseArgs.
  destruct (Cli.parseArgs_loop (skipn 2 argv) Cli.no_args) as [r|o c] eqn:E;
    [discriminate|].
  intros [= <- <-]. exact (parseArgs_loop_exits _ _ _ _ _ (le_n _) E).
Qed.

Lemma parseArgs_exits_witness :
  (Cli.console_error Cli.target_requires = Cli.printHelp /\ 2%Z = 0%Z
   /\ exists pre h post,
       skipn 2 [str "node"; str "cli.js"; str "a.mkv"; str "--target"]
       = pre ++ h :: post /\ (h = str "--help" \/ h = str "-h"))
  \/ (Cli.console_error Cli.target_requires
      = Cli.console_error Cli.target_requires /\ 2%Z = 2%Z
      /\ exists pre,
          skipn 2 [str "node"; str "cli.js"; str "a.mkv"; str "--target"]
          = pre ++ [str "--target"]
          \/ exists post,
            skipn 2 [str "node"; str "cli.js"; str "a.mkv"; str "--target"]
            = pre ++ str "--target" :: [] :: post).
Proof.
  exact (parseArgs_exits
           [str "node"; str "cli.js"; str "a.mkv"; str "--target"]
           (Cli.console_error Cli.target_requires) 2 eq_refl).
Defined.

(** ** The source root of a file *)

Example findBestSourceForFile_example :
  Cli.findBestSourceForFile (str "/home")
    (Cli.sort_by_depth [str "/media"; str "/media/tv/new"; str "/media/tv"])
    (str "/media/tv/show/a.mkv")
  = Some (str "/media/tv").
Proof. vm_compute; reflexivity. Qed.

Lemma insert_by_depth_in (x y : jsstring) (l : list jsstring) :
  In y (Cli.insert_by_depth x l) <-> y = x \/ In y l.
Proof.
  induction l as [|z l IH]; cbn [Cli.insert_by_depth].
  - cbn. intuition.
  - destruct (Cli.depth x <? Cli.depth z); cbn [In]; [rewrite IH|];
      intuition.
Qed.

Lemma sort_by_depth_in (y : jsstring) (l : list jsstring) :
  In y (Cli.sort_by_depth l) <-> In y l.
Proof.
  induction l as [|x l IH]; [reflexivity|].
  cbn [Cli.sort_by_depth fold_right]. rewrite insert_by_depth_in.
  fold (Cli.sort_by_depth l). rewrite IH. cbn. intuition.
Qed.

(** A list in which no path is deeper than a path before it... *)
Lemma insert_by_depth_sorted (x : jsstring) (l : list jsstring) :
  (forall a b l1 l2, l = l1 ++ a :: l2 -> In b l2 ->
                     Cli.depth b <= Cli.depth a) ->
  forall a b l1 l2,
    Cli.insert_by_depth x l = l1 ++ a :: l2 -> In b l2 ->
    Cli.depth b <= Cli.depth a.
Proof.
  induction l as [|z l IH]; intros Hs a b l1 l2 E Hb.
  - cbn in E. destruct l1 as [|? [|? ?]]; cbn in E; try discriminate E.
    injection E as <- <-. contradiction.
  - cbn [Cli.insert_by_depth] in E.
    destruct (Cli.depth x <? Cli.depth z) eqn:Ed.
    + apply Nat.ltb_lt in Ed. destruct l1 as [|h l1]; cbn [app] in E.
      * injection E as <- <-. apply insert_by_depth_in in Hb.
        destruct Hb as [-> | Hb]; [lia|].
        apply (Hs z b [] l eq_refl Hb).
      * injection E as <- E.
        apply (IH (fun a' b' l1' l2' E' => Hs a' b' (z :: l1') l2'
                                               (f_equal (cons z) E'))
                  a b l1 l2 E Hb).
    + apply Nat.ltb_ge in Ed. destruct l1 as [|h l1]; cbn [app] in E.
      * injection E as <- <-. destruct Hb as [<- | Hb]; [exact Ed|].
        pose proof (Hs z b [] l eq_refl Hb). lia.
      * injection E as <- E. apply (Hs a b l1 l2 E Hb).
Qed.

Lemma sort_by_depth_sorted (l : list jsstring) :
  forall a b l1 l2,
    Cli.sort_by_depth l = l1 ++ a :: l2 -> In b l2 ->
    Cli.depth b <= Cli.depth a.
Proof.
  induction l as [|x l IH].
  - intros a b l1 l2 E. destruct l1; discriminate E.
  - cbn [Cli.sort_by_depth fold_right]. fold (Cli.sort_by_depth l).
    apply insert_by_depth_sorted. exact IH.
Qed.

(** The loop returns the first source that covers the file. *)
Lemma first_covering_some (cwd file s : jsstring) (l : list jsstring) :
  Cli.first_covering cwd l file = Some s ->
  exists l1 src l2,
    l = l1 ++ src :: l2 /\ s = Path.resolve cwd src
    /\ Cli.covers s file = true
    /\ forall src', In src' l1 ->
                    Cli.covers (Path.resolve cwd src') file = false.
Proof.
  induction l as [|x l IH]; [discriminate|].
  cbn [Cli.first_covering].
  destruct (Cli.covers (Path.resolve cwd x) file) eqn:E.
  - intros [= <-]. exists [], x, l. repeat split; auto. intros ? [].
  - intros H. destruct (IH H) as (l1 & src & l2 & -> & -> & Hc & Hno).
    exists (x :: l1), src, l2. repeat split; auto.
    intros src' [<- | Hin]; auto.
Qed.

Lemma first_covering_none (cwd file : jsstring) (l : list jsstring) :
  Cli.first_covering cwd l file = None <->
  forall src, In src l -> Cli.covers (Path.resolve cwd src) file = false.
Proof.
  induction l as [|x l IH]; cbn [Cli.first_covering].
  - split; [intros _ ? [] | reflexivity].
  - destruct (Cli.covers (Path.resolve cwd x) file) eqn:E.
    + split; [discriminate|]. intros H. rewrite (H x (or_introl eq_refl)) in E.
      discriminate E.
    + rewrite IH. split.
      * intros H src [<- | Hin]; auto.
      * intros H src Hin. apply H. right. exact Hin.
Qed.

(** X20.  [findBestSourceForFile], over the sources sorted by depth, returns
    the resolved path of a source that is the file or a directory above it,
    and no source that is or lies above the file is deeper than that one;
    it returns null exactly when no source is or lies above the file. *)
Theorem findBestSourceForFile_deepest (cwd : jsstring)
        (resolvedSources : list jsstring) (filePath : jsstring) :
  (forall s,
      Cli.findBestSourceForFile cwd (Cli.sort_by_depth resolvedSources)
                                filePath = Some s ->
      exists src,
        In src resolvedSources /\ s = Path.resolve cwd src
        /\ Cli.covers s (Path.resolve cwd filePath) = true
        /\ forall src',
            In src' resolvedSources ->
            Cli.covers (Path.resolve cwd src') (Path.resolve cwd filePath)
            = true ->
            Cli.depth src' <= Cli.depth src)
  /\ (Cli.findBestSourceForFile cwd (Cli.sort_by_depth resolvedSources)
                                filePath = None <->
      forall src, In src resolvedSources ->
                  Cli.covers (Path.resolve cwd src)
                             (Path.resolve cwd filePath) = false).
Proof.
  unfold Cli.findBestSourceForFile. split.
  - intros s H.
    destruct (first_covering_some _ _ _ _ H)
      as (l1 & src & l2 & E & -> & Hc & Hno).
    exists src. split; [|split; [reflexivity|split; [exact Hc|]]].
    + apply sort_by_depth_in. rewrite E. apply in_or_app. right. left.
      reflexivity.
    + intros src' Hin Hc'.
      apply (proj2 (sort_by_depth_in src' resolvedSources)) in Hin.
      rewrite E in Hin.
      apply in_app_or in Hin. destruct Hin as [Hin | [<- | Hin]].
      * rewrite (Hno src' Hin) in Hc'. discriminate Hc'.
      * lia.
      * apply (sort_by_depth_sorted resolvedSources src src' l1 l2 E Hin).
  - rewrite first_covering_none. split; intros H src Hin; apply H.
    + apply (proj2 (sort_by_depth_in src resolvedSources)). exact Hin.
    + apply (proj1 (sort_by_depth_in src resolvedSources)). exact Hin.
Qed.

Lemma findBestSourceForFile_deepest_witness :
  exists src,
    In src [str "/media"; str "/media/tv/new"; str "/media/tv"]
    /\ str "/media/tv" = Path.resolve (str "/home") src
    /\ Cli.covers (str "/media/tv")
                  (Path.resolve (str "/home") (str "/media/tv/show/a.mkv"))
       = true
    /\ forall src',
        In src' [str "/media"; str "/media/tv/new"; str "/media/tv"] ->
        Cli.covers (Path.resolve (str "/home") src')
                   (Path.resolve (str "/home") (str "/media/tv/show/a.mkv"))
        = true ->
        Cli.depth src' <= Cli.depth src.
Proof.
  exact (proj1 (findBestSourceForFile_deepest (str "/home")
                  [str "/media"; str "/media/tv/new"; str "/media/tv"]
                  (str "/media/tv/show/a.mkv"))
               (str "/media/tv") eq_refl).
Defined.

(** *** Resolved paths *)

Lemma split_no_slash (s : jsstring) :
  Forall (fun w => no_slash w = true) (split "/" s).
Proof.
  induction s as [|x s IH]; cbn [split]; [repeat constructor|].
  destruct (chr_eqb x "/") eqn:E; [constructor; [reflexivity | exact IH]|].
  destruct (split "/" s) as [|w ws]; [repeat constructor; cbn; unfold is_slash;
                                      rewrite E; reflexivity|].
  inversion IH as [|? ? Hw Hws]; subst. constructor; [|exact Hws].
  cbn. unfold is_slash. rewrite E. exact Hw.
Qed.

(** A segment of a normalized path: not empty, without separator. *)
Lemma normalize_segments_plain (allow : bool) (segs : list jsstring) :
  Forall (fun w => no_slash w = true) segs ->
  forall stack,
    Forall (fun w => w <> [] /\ no_slash w = true) stack ->
    Forall (fun w => w <> [] /\ no_slash w = true)
           (Path.normalize_segments allow segs stack).
Proof.
  induction segs as [|seg segs IH]; intros Hsegs stack Hstack.
  - cbn. apply Forall_rev. exact Hstack.
  - inversion Hsegs as [|? ? Hseg Hrest]; subst.
    cbn [Path.normalize_segments].
    destruct (str_eqb seg []) eqn:E0; cbn [orb]; [apply IH; assumption|].
    destruct (str_eqb seg (str ".")); [apply IH; assumption|].
    assert (Hne : seg <> []) by (intros ->; discriminate E0).
    destruct (str_eqb seg (str "..")).
    + destruct stack as [|top stack'].
      * destruct allow; apply IH; auto.
      * inversion Hstack; subst.
        destruct (str_eqb top (str "..")); apply IH; auto.
    + apply IH; auto.
Qed.

Lemma join_plain_head (ws : list jsstring) :
  Forall (fun w => w <> [] /\ no_slash w = true) ws ->
  startsWith (str "/") (join "/" ws) = false.
Proof.
  intros H. destruct ws as [|[|c w] ws]; [reflexivity | |].
  - inversion H as [|? ? [Hne _] _]; subst. contradiction.
  - inversion H as [|? ? [_ Hs] _]; subst.
    rewrite join_cons_word. cbn [no_slash forallb] in Hs.
    apply andb_true_iff in Hs. destruct Hs as [Hc _].
    unfold is_slash in Hc. apply negb_true_iff in Hc.
    change (str "/") with ["/"%char]. cbn [startsWith].
    unfold chr_eqb in *. rewrite Ascii.eqb_sym, Hc. reflexivity.
Qed.

(** In a process whose working directory is absolute, a resolved path is
    a separator followed by text that does not start with a separator. *)
Lemma resolve_rooted (cwd p : jsstring) :
  Path.isAbsolute cwd = true ->
  exists n, Path.resolve cwd p = "/"%char :: n
            /\ startsWith (str "/") n = false.
Proof.
  intros Hcwd. unfold Path.resolve.
  set (rp := if Path.isAbsolute p then p
             else match p with [] => cwd | _ => cwd ++ "/"%char :: p end).
  assert (Habs : Path.isAbsolute rp = true).
  { unfold rp. destruct (Path.isAbsolute p) eqn:E; [exact E|].
    destruct p; [exact Hcwd|]. destruct cwd; [discriminate Hcwd | exact Hcwd]. }
  rewrite Habs. eexists. split; [reflexivity|].
  unfold Path.normalizeString. apply join_plain_head.
  apply normalize_segments_plain; [apply split_no_slash | constructor].
Qed.

(** X21.  The filesystem root is never found as the source of a file: for
    sources that all resolve to [/], [findBestSourceForFile] returns null
    for every file but [/] itself, since no resolved path starts with
    [//]. *)
Theorem findBestSourceForFile_root (cwd : jsstring)
        (sources : list jsstring) (filePath : jsstring) :
  Path.isAbsolute cwd = true ->
  (forall src, In src sources -> Path.resolve cwd src = str "/") ->
  Path.resolve cwd filePath <> str "/" ->
  Cli.findBestSourceForFile cwd (Cli.sort_by_depth sources) filePath = None.
Proof.
  intros Hcwd Hroot Hfile.
  unfold Cli.findBestSourceForFile. apply first_covering_none.
  intros src Hin. apply (proj1 (sort_by_depth_in src sources)) in Hin.
  rewrite (Hroot src Hin).
  destruct (resolve_rooted cwd filePath Hcwd) as (n & E & Hn).
  unfold Cli.covers. rewrite (str_eqb_neq _ _ Hfile). rewrite E.
  cbn [orb app str]. cbn. exact Hn.
Qed.

Lemma findBestSourceForFile_root_witness :
  Cli.findBestSourceForFile (str "/home") (Cli.sort_by_depth [str "/"])
                            (str "/media/a.mkv") = None.
Proof.
  apply (findBestSourceForFile_root (str "/home") [str "/"]
                                    (str "/media/a.mkv")).
  - reflexivity.
  - intros src [<- | []]. reflexivity.
  - differ.
Defined.

(** ** The walk over the sources *)

Lemma for_of_in {A} (body : A -> option Walk.walked) (l : list A)
      (w : Walk.walked) (r : jsstring) :
  Walk.for_of body l = Some w -> In r (fst w) ->
  exists x w', In x l /\ body x = Some w' /\ In r (fst w').
Proof.
  revert w. induction l as [|x l IH]; intros w H Hin.
  - injection H as <-. contradiction.
  - cbn [Walk.for_of] in H.
    destruct (body x) as [a|] eqn:Ea; [|discriminate].
    destruct (Walk.for_of body l) as [b|]; [|discriminate].
    injection H as <-. cbn [Walk.both fst] in Hin.
    apply in_app_or in Hin. destruct Hin as [Hin | Hin].
    + exists x, a. cbn. auto.
    + destruct (IH b eq_refl Hin) as (y & w' & Hy & E & Hr).
      exists y, w'. cbn. auto.
Qed.

Lemma for_of_ext {A} (f g : A -> option Walk.walked) (l : list A) :
  (forall x, In x l -> f x = g x) -> Walk.for_of f l = Walk.for_of g l.
Proof.
  induction l as [|x l IH]; intros H; [reflexivity|].
  cbn [Walk.for_of]. rewrite (H x (or_introl eq_refl)), IH; [reflexivity|].
  intros y Hy. apply H. right. exact Hy.
Qed.

Lemma for_of_app {A} (body : A -> option Walk.walked) (a b : list A) :
  Walk.for_of body (a ++ b)
  = match Walk.for_of body a, Walk.for_of body b with
    | Some x, Some y => Some (Walk.both x y)
    | _, _ => None
    end.
Proof.
  induction a as [|x a IH]; cbn [app Walk.for_of].
  - destruct (Walk.for_of body b) as [[? ?]|]; reflexivity.
  - rewrite IH. destruct (body x) as [[r1 w1]|]; [|reflexivity].
    destruct (Walk.for_of body a) as [[r2 w2]|]; [|reflexivity].
    destruct (Walk.for_of body b) as [[r3 w3]|]; [|reflexivity].
    unfold Walk.both. cbn [fst snd]. rewrite !app_assoc. reflexivity.
Qed.

Lemma for_of_mono {A} (f g : A -> option Walk.walked) (l : list A) :
  (forall x w, f x = Some w -> g x = Some w) ->
  forall w, Walk.for_of f l = Some w -> Walk.for_of g l = Some w.
Proof.
  intros Hfg. induction l as [|x l IH]; intros w H; [exact H|].
  cbn [Walk.for_of] in H |- *.
  destruct (f x) as [a|] eqn:Ea; [|discriminate H].
  destruct (Walk.for_of f l) as [b|]; [|discriminate H].
  rewrite (Hfg x a Ea), (IH b eq_refl). exact H.
Qed.

Section WalkLemmas.

Variable stat : jsstring -> errno + Walk.kind.
Variable readdir : jsstring -> errno + list jsstring.
Variable cwd : jsstring.

(** Where a path of the result comes from. *)
Lemma walkPaths_found (fuel : nat) :
  forall (paths : list jsstring) (recursive : bool)
         (targetDir : option jsstring) (w : Walk.walked) (r : jsstring),
    Walk.walkPaths stat readdir cwd fuel paths recursive targetDir = Some w ->
    In r (fst w) ->
    stat r = inr Walk.File
    /\ (In r paths
        \/ exists d e entries,
            r = Path.join2 d e /\ stat d = inr Walk.Directory
            /\ readdir d = inr entries /\ In e entries
            /\ (In d paths
                \/ (recursive = true
                    /\ Walk.is_target cwd targetDir d = false))).
Proof.
  induction fuel as [|fuel IH]; intros paths recursive targetDir w r H Hin;
    [discriminate H|].
  cbn [Walk.walkPaths] in H.
  destruct (for_of_in _ _ _ _ H Hin) as (p & wp & Hp & Ep & Hr).
  destruct (stat p) as [err|[| |]] eqn:Sp.
  - injection Ep as <-. contradiction.
  - injection Ep as <-. destruct Hr as [<- | []]. auto.
  - destruct (readdir p) as [err|entries] eqn:Rp.
    + injection Ep as <-. contradiction.
    + destruct (for_of_in _ _ _ _ Ep Hr) as (e & we & He & Ee & Hre).
      cbv zeta in Ee.
      destruct (stat (Path.join2 p e)) as [err|[| |]] eqn:Se.
      * injection Ee as <-. contradiction.
      * injection Ee as <-. destruct Hre as [<- | []].
        split; [exact Se|]. right. exists p, e, entries.
        repeat split; auto.
      * destruct recursive; [|injection Ee as <-; contradiction].
        destruct (Walk.is_target cwd targetDir (Path.join2 p e)) eqn:Et;
          [injection Ee as <-; contradiction|].
        destruct (IH _ _ _ _ _ Ee Hre) as [Hfile [[<- | []] | Hsub]].
        -- rewrite Se in Hfile. discriminate Hfile.
        -- split; [exact Hfile|]. right.
           destruct Hsub as (d & e' & es & -> & Sd & Rd & He' & [[<- | []] | Hd]).
           ++ exists (Path.join2 p e), e', es. repeat split; auto.
           ++ exists d, e', es. repeat split; auto.
      * injection Ee as <-. contradiction.
  - injection Ep as <-. contradiction.
Qed.

(** X22.  Every path [walkPaths] returns is a regular file: [fs.stat]
    answered [isFile()] for it.  Directories and paths that cannot be read
    are never returned. *)
Theorem walkPaths_only_files (fuel : nat) (paths : list jsstring)
        (recursive : bool) (targetDir : option jsstring)
        (w : Walk.walked) :
  Walk.walkPaths stat readdir cwd fuel paths recursive targetDir = Some w ->
  Forall (fun r => stat r = inr Walk.File) (fst w).
Proof.
  intros H. apply Forall_forall. intros r Hin.
  apply (walkPaths_found fuel paths recursive targetDir w r H Hin).
Qed.

(** X23.  A returned path is one of the given paths, or an entry of a
    directory that was listed; and a directory is listed only if it is one
    of the given paths or, in a recursive walk, a directory that is not the
    target directory.  So the files of the target directory are not walked
    again when the walk meets it below a source, and without [recursive]
    only the given directories are listed. *)
Theorem walkPaths_skips_target (fuel : nat) (paths : list jsstring)
        (recursive : bool) (targetDir : option jsstring)
        (w : Walk.walked) (r : jsstring) :
  Walk.walkPaths stat readdir cwd fuel paths recursive targetDir = Some w ->
  In r (fst w) ->
  In r paths
  \/ exists d e entries,
      r = Path.join2 d e /\ stat d = inr Walk.Directory
      /\ readdir d = inr entries /\ In e entries
      /\ (In d paths
          \/ (recursive = true /\ Walk.is_target cwd targetDir d = false)).
Proof.
  intros H Hin.
  apply (walkPaths_found fuel paths recursive targetDir w r H Hin).
Qed.

(** X24.  The sources are walked one after the other: the walk of
    [a ++ b] returns the files of the walk of [a] followed by those of the
    walk of [b], and warns as the two do. *)
Theorem walkPaths_app (fuel : nat) (a b : list jsstring) (recursive : bool)
        (targetDir : option jsstring) :
  Walk.walkPaths stat readdir cwd fuel (a ++ b) recursive targetDir
  = match Walk.walkPaths stat readdir cwd fuel a recursive targetDir,
          Walk.walkPaths stat readdir cwd fuel b recursive targetDir with
    | Some x, Some y => Some (Walk.both x y)
    | _, _ => None
    end.
Proof.
  destruct fuel as [|fuel]; [reflexivity|].
  cbn [Walk.walkPaths]. apply for_of_app.
Qed.

Lemma for_of_total {A} (body : A -> option Walk.walked) (l : list A) :
  (forall x, In x l -> exists w, body x = Some w) ->
  exists w, Walk.for_of body l = Some w.
Proof.
  induction l as [|x l IH]; intros H; [eexists; reflexivity|].
  destruct (H x (or_introl eq_refl)) as [a Ea].
  destruct IH as [b Eb]; [intros y Hy; apply H; right; exact Hy|].
  exists (Walk.both a b). cbn [Walk.for_of]. rewrite Ea, Eb. reflexivity.
Qed.

(** X25.  Without [recursive] the walk always returns: it lists the given
    directories and goes no deeper, so one level of calls is enough, and
    the target directory plays no part. *)
Theorem walkPaths_flat (paths : list jsstring) :
  exists w,
    forall fuel targetDir,
      Walk.walkPaths stat readdir cwd (S fuel) paths false targetDir = Some w.
Proof.
  destruct (for_of_total
              (fun p =>
                 match stat p with
                 | inr Walk.File => Some ([p], [])
                 | inr Walk.Directory =>
                   match readdir p with
                   | inr entries =>
                     Walk.for_of
                       (fun e =>
                          match stat (Path.join2 p e) with
                          | inr Walk.File => Some ([Path.join2 p e], [])
                          | _ => Some Walk.nothing
                          end)
                       entries
                   | inl err => Some ([], [(p, err)])
                   end
                 | inr Walk.Other => Some Walk.nothing
                 | inl err => Some ([], [(p, err)])
                 end) paths) as [w Hw].
  { intros p _. destruct (stat p) as [err|[| |]]; try (eexists; reflexivity).
    destruct (readdir p) as [err|entries]; [eexists; reflexivity|].
    apply for_of_total. intros e _.
    destruct (stat (Path.join2 p e)) as [?|[| |]]; eexists; reflexivity. }
  exists w. intros fuel targetDir. exact Hw.
Qed.

(** More fuel does not change the result of a walk. *)
Lemma walkPaths_fuel (fuel : nat) :
  forall paths recursive targetDir w,
    Walk.walkPaths stat readdir cwd fuel paths recursive targetDir = Some w ->
    Walk.walkPaths stat readdir cwd (S fuel) paths recursive targetDir
    = Some w.
Proof.
  induction fuel as [|fuel IH]; intros paths recursive targetDir w H;
    [discriminate H|].
  cbn [Walk.walkPaths] in H.
  remember (S fuel) as n eqn:En in |- *.
  cbn [Walk.walkPaths].
  revert H. apply for_of_mono. intros p wp.
  destruct (stat p) as [err|[| |]]; try (intros E; exact E).
  destruct (readdir p) as [err|entries]; [intros E; exact E|].
  apply for_of_mono. intros e we. cbv zeta.
  destruct (stat (Path.join2 p e)) as [?|[| |]]; try (intros E; exact E).
  destruct recursive; [|intros E; exact E].
  destruct (Walk.is_target cwd targetDir (Path.join2 p e));
    [intros E; exact E|].
  rewrite En. apply IH.
Qed.

Lemma walkPaths_enough (levels : jsstring -> nat) (recursive : bool)
      (targetDir : option jsstring) :
  (forall d e entries,
      stat d = inr Walk.Directory -> readdir d = inr entries ->
      In e entries -> stat (Path.join2 d e) = inr Walk.Directory ->
      levels (Path.join2 d e) < levels d) ->
  forall n paths,
    (forall p, In p paths -> levels p <= n) ->
    exists w,
      Walk.walkPaths stat readdir cwd (S n) paths recursive targetDir
      = Some w.
Proof.
  intros Hlev. induction n as [|n IH]; intros paths Hn; cbn [Walk.walkPaths];
    apply for_of_total; intros p Hp;
    (destruct (stat p) as [err|[| |]] eqn:Sp; try (eexists; reflexivity));
    (destruct (readdir p) as [err|entries] eqn:Rp; [eexists; reflexivity|]);
    apply for_of_total; intros e He; cbv zeta;
    (destruct (stat (Path.join2 p e)) as [?|[| |]] eqn:Se;
     try (eexists; reflexivity));
    (destruct recursive; [|eexists; reflexivity]);
    (destruct (Walk.is_target cwd targetDir (Path.join2 p e));
     [eexists; reflexivity|]);
    pose proof (Hlev p e entries Sp Rp He Se) as Hlt;
    pose proof (Hn p Hp) as Hle.
  - lia.
  - refine (IH [Path.join2 p e] _). intros q [<- | []]. lia.
Qed.

(** X26.  On a directory tree of finite depth the walk returns: when no
    path is more than [n] directory levels above the bottom, a recursion
    depth of [n + 1] calls is enough, and a deeper bound gives the same
    result. *)
Theorem walkPaths_returns (levels : jsstring -> nat) (n : nat)
        (paths : list jsstring) (recursive : bool)
        (targetDir : option jsstring) :
  (forall d e entries,
      stat d = inr Walk.Directory -> readdir d = inr entries ->
      In e entries -> stat (Path.join2 d e) = inr Walk.Directory ->
      levels (Path.join2 d e) < levels d) ->
  (forall p, In p paths -> levels p <= n) ->
  exists w,
    forall k,
      Walk.walkPaths stat readdir cwd (S n + k) paths recursive targetDir
      = Some w.
Proof.
  intros Hlev Hn.
  destruct (walkPaths_enough levels recursive targetDir Hlev n paths Hn)
    as [w Hw].
  exists w. induction k as [|k IHk].
  - rewrite Nat.add_0_r. exact Hw.
  - rewrite Nat.add_succ_r. apply walkPaths_fuel. exact IHk.
Qed.

End WalkLemmas.

(** A walk of the small tree, with its output directory as target. *)
Example walkPaths_example :
  Walk.walkPaths WalkDemo.stat WalkDemo.readdir WalkDemo.cwd 2
                 [str "/m"; str "/gone"] true (Some (str "out"))
  = Some ([str "/m/a.mkv"; str "/m/sub/b.mkv"], [(str "/gone", ENOENT)]).
Proof. vm_compute; reflexivity. Qed.

Lemma walkPaths_only_files_witness :
  Forall (fun r => WalkDemo.stat r = inr Walk.File)
         (fst ([str "/m/a.mkv"; str "/m/sub/b.mkv"],
               [(str "/gone", ENOENT)])).
Proof.
  exact (walkPaths_only_files WalkDemo.stat WalkDemo.readdir WalkDemo.cwd 2
           [str "/m"; str "/gone"] true (Some (str "out"))
           ([str "/m/a.mkv"; str "/m/sub/b.mkv"], [(str "/gone", ENOENT)])
           eq_refl).
Defined.

Lemma walkPaths_skips_target_witness :
  In (str "/m/sub/b.mkv") [str "/m"; str "/gone"]
  \/ exists d e entries,
      str "/m/sub/b.mkv" = Path.join2 d e
      /\ WalkDemo.stat d = inr Walk.Directory
      /\ WalkDemo.readdir d = inr entries /\ In e entries
      /\ (In d [str "/m"; str "/gone"]
          \/ (true = true
              /\ Walk.is_target WalkDemo.cwd (Some (str "out")) d = false)).
Proof.
  exact (walkPaths_skips_target WalkDemo.stat WalkDemo.readdir WalkDemo.cwd 2
           [str "/m"; str "/gone"] true (Some (str "out"))
           ([str "/m/a.mkv"; str "/m/sub/b.mkv"], [(str "/gone", ENOENT)])
           (str "/m/sub/b.mkv") eq_refl (or_intror (or_introl eq_refl))).
Defined.

Lemma demo_levels (d e : jsstring) (entries : list jsstring) :
  WalkDemo.stat d = inr Walk.Directory ->
  WalkDemo.readdir d = inr entries ->
  In e entries ->
  WalkDemo.stat (Path.join2 d e) = inr Walk.Directory ->
  WalkDemo.levels (Path.join2 d e) < WalkDemo.levels d.
Proof.
  unfold WalkDemo.readdir. intros _ Hr He Hfp.
  destruct (str_eqb d (str "/m")) eqn:E1.
  - apply str_eqb_eq in E1. subst d. injection Hr as <-.
    destruct He as [<- | [<- | [<- | []]]]; vm_compute in Hfp |- *;
      try discriminate Hfp; lia.
  - destruct (str_eqb d (str "/m/sub")) eqn:E2.
    + apply str_eqb_eq in E2. subst d. injection Hr as <-.
      destruct He as [<- | []]. vm_compute in Hfp. discriminate Hfp.
    + destruct (str_eqb d (str "/m/out")) eqn:E3; [|discriminate Hr].
      apply str_eqb_eq in E3. subst d. injection Hr as <-.
      destruct He as [<- | []]. vm_compute in Hfp. discriminate Hfp.
Qed.

Lemma walkPaths_returns_witness :
  exists w,
    forall k,
      Walk.walkPaths WalkDemo.stat WalkDemo.readdir WalkDemo.cwd (2 + k)
                     [str "/m"; str "/gone"] true (Some (str "out"))
      = Some w.
Proof.
  apply (walkPaths_returns WalkDemo.stat WalkDemo.readdir WalkDemo.cwd
           WalkDemo.levels 1 [str "/m"; str "/gone"] true
           (Some (str "out")) demo_levels).
  intros p [<- | [<- | []]]; vm_compute; lia.
Defined.

(** ** Where the file goes *)

Lemma split_plain (b : jsstring) : no_slash b = true -> split "/" b = [b].
Proof.
  induction b as [|c b IH]; intros H; [reflexivity|].
  cbn [no_slash forallb] in H. apply andb_true_iff in H. destruct H as [Hc Hb].
  apply negb_true_iff in Hc. unfold is_slash in Hc.
  cbn [split]. rewrite Hc, (IH Hb). reflexivity.
Qed.

Lemma split_app_slash (a b : jsstring) :
  split "/" (a ++ "/"%char :: b) = split "/" a ++ split "/" b.
Proof.
  induction a as [|c a IH]; [reflexivity|].
  cbn [app split]. rewrite IH.
  destruct (chr_eqb c "/"); [reflexivity|].
  pose proof (split_nonempty "/" a) as Hne.
  destruct (split "/" a) as [|w ws]; [contradiction | reflexivity].
Qed.

Lemma plain_name_parts (b : jsstring) :
  plain_name b = true ->
  b <> [] /\ no_slash b = true
  /\ str_eqb b [] = false /\ str_eqb b (str ".") = false
  /\ str_eqb b (str "..") = false.
Proof.
  unfold plain_name. rewrite !andb_true_iff, !negb_true_iff.
  intros [[[H0 Hs] H1] H2]. repeat split; auto.
  intros ->. discriminate H0.
Qed.

(** A plain last segment stays where it is. *)
Lemma normalize_segments_last (allow : bool) (b : jsstring)
      (segs : list jsstring) :
  plain_name b = true ->
  forall stack,
    Path.normalize_segments allow (segs ++ [b]) stack
    = Path.normalize_segments allow segs stack ++ [b].
Proof.
  intros Hb. destruct (plain_name_parts b Hb) as (_ & _ & H0 & H1 & H2).
  induction segs as [|seg segs IH]; intros stack.
  - cbn [app Path.normalize_segments]. rewrite H0, H1, H2. reflexivity.
  - cbn [app Path.normalize_segments].
    destruct (str_eqb seg [] || str_eqb seg (str ".")); [apply IH|].
    destruct (str_eqb seg (str "..")); [|apply IH].
    destruct stack as [|top stack']; [destruct allow; apply IH|].
    destruct (str_eqb top (str "..")); apply IH.
Qed.

Lemma join_last (c : ascii) (ws : list jsstring) (b : jsstring) :
  join c (ws ++ [b])
  = match ws with
    | [] => b
    | _ => join c ws ++ c :: b
    end.
Proof.
  induction ws as [|w ws IH]; [reflexivity|].
  destruct ws as [|w2 ws]; [reflexivity|].
  change (join c ((w :: w2 :: ws) ++ [b]))
    with (w ++ c :: join c ((w2 :: ws) ++ [b])).
  rewrite IH. change (join c (w :: w2 :: ws)) with (w ++ c :: join c (w2 :: ws)).
  rewrite <- app_assoc. reflexivity.
Qed.

Lemma last_not_slash (a b : jsstring) :
  b <> [] -> no_slash b = true -> Path.isAbsolute (rev (a ++ b)) = false.
Proof.
  intros Hne Hs. rewrite rev_app_distr.
  destruct (rev b) as [|c r] eqn:E.
  - exfalso. apply Hne. rewrite <- (rev_involutive b), E. reflexivity.
  - assert (Hr : no_slash (c :: r) = true)
      by (rewrite <- E, no_slash_rev; exact Hs).
    cbn [no_slash forallb] in Hr. apply andb_true_iff in Hr.
    destruct Hr as [Hc _]. apply negb_true_iff in Hc. exact Hc.
Qed.

(** [path.normalize] of a path that ends with a plain name: a directory
    part, empty or ending with a separator, and the name. *)
Lemma normalize_ends_plain (pre b : jsstring) :
  plain_name b = true ->
  pre = [] \/ (exists a, pre = a ++ ["/"%char]) ->
  exists dir,
    Path.normalize (pre ++ b) = dir ++ b
    /\ (dir = [] \/ exists d, dir = d ++ ["/"%char]).
Proof.
  intros Hb Hpre.
  destruct (plain_name_parts b Hb) as (Hne & Hs & _).
  assert (Hsplit : exists segs, split "/" (pre ++ b) = segs ++ [b]).
  { destruct Hpre as [-> | [a ->]].
    - exists []. apply split_plain, Hs.
    - exists (split "/" a). rewrite <- app_assoc. cbn [app].
      rewrite split_app_slash, (split_plain b Hs). reflexivity. }
  destruct Hsplit as [segs Hsplit].
  pose proof (last_not_slash pre b Hne Hs) as Hlast.
  assert (Hx : pre ++ b <> []).
  { destruct pre; [cbn; exact Hne | discriminate]. }
  assert (Hgoal : forall x,
             x <> [] -> split "/" x = segs ++ [b] ->
             Path.isAbsolute (rev x) = false ->
             exists dir,
               Path.normalize x = dir ++ b
               /\ (dir = [] \/ exists d, dir = d ++ ["/"%char])).
  { clear Hx Hlast Hsplit. intros x Hx Hsplit Hlast.
    unfold Path.normalize. destruct x as [|c0 t]; [contradiction|].
    rewrite Hlast. unfold Path.normalizeString. rewrite Hsplit.
    rewrite (normalize_segments_last _ b segs Hb), join_last.
    destruct (Path.normalize_segments (negb (Path.isAbsolute (c0 :: t)))
                                      segs []) as [|w ws].
    - destruct b as [|cb b']; [contradiction|].
      destruct (Path.isAbsolute (c0 :: t)).
      + exists ["/"%char]. split; [reflexivity|]. right. exists [].
        reflexivity.
      + exists []. auto.
    - destruct (join "/" (w :: ws) ++ "/"%char :: b) as [|x y] eqn:Ej.
      { destruct (join "/" (w :: ws)); discriminate Ej. }
      rewrite <- Ej.
      destruct (Path.isAbsolute (c0 :: t)).
      + exists ("/"%char :: join "/" (w :: ws) ++ ["/"%char]).
        split; [cbn [app]; rewrite <- app_assoc; reflexivity|].
        right. exists ("/"%char :: join "/" (w :: ws)). reflexivity.
      + exists (join "/" (w :: ws) ++ ["/"%char]).
        split; [rewrite <- app_assoc; reflexivity|].
        right. exists (join "/" (w :: ws)). reflexivity. }
  exact (Hgoal (pre ++ b) Hx Hsplit Hlast).
Qed.

Lemma basename_scan_to_slash (r rest : jsstring) :
  no_slash r = true ->
  forall i end_,
    end_ <> (-1)%Z ->
    Path.basename_scan (r ++ "/"%char :: rest) i end_ false
    = ((i - len r + 1)%Z, end_).
Proof.
  induction r as [|c r IH]; intros Hs i end_ He.
  - cbn. f_equal. unfold len. simpl. lia.
  - cbn [no_slash forallb] in Hs. apply andb_true_iff in Hs.
    destruct Hs as [Hc Hs]. apply negb_true_iff in Hc.
    cbn [app Path.basename_scan]. rewrite Hc.
    replace (end_ =? -1)%Z with false by (symmetry; apply Z.eqb_neq; lia).
    rewrite (IH Hs) by exact He. rewrite len_cons. f_equal. lia.
Qed.

(** [path.basename] of a directory part followed by a plain name. *)
Lemma basename_last (d b : jsstring) :
  b <> [] -> no_slash b = true ->
  Path.basename (d ++ "/"%char :: b) [] = b.
Proof.
  intros Hne Hs. unfold Path.basename.
  change (0 <? len [])%Z with false. cbn [andb].
  rewrite rev_app_distr. cbn [rev]. rewrite <- app_assoc. cbn [app].
  destruct (rev b) as [|c r] eqn:E.
  { exfalso. apply Hne. rewrite <- (rev_involutive b), E. reflexivity. }
  assert (Hr : no_slash (c :: r) = true)
    by (rewrite <- E, no_slash_rev; exact Hs).
  cbn [no_slash forallb] in Hr. apply andb_true_iff in Hr.
  destruct Hr as [Hc Hr]. apply negb_true_iff in Hc.
  cbn [app Path.basename_scan]. rewrite Hc. rewrite Z.eqb_refl.
  assert (Hlb : len b = (len r + 1)%Z)
    by (rewrite <- (len_rev b), E, len_cons; reflexivity).
  pose proof (len_nonneg r) as Hr0. pose proof (len_nonneg d) as Hd0.
  assert (Hl : len (d ++ "/"%char :: b) = (len d + 1 + len b)%Z)
    by (rewrite len_app, len_cons; lia).
  rewrite (basename_scan_to_slash r (rev d) Hr) by lia.
  replace (len (d ++ "/"%char :: b) - 1 + 1 =? -1)%Z with false
    by (symmetry; apply Z.eqb_neq; lia).
  assert (Hd1 : len (d ++ ["/"%char]) = (len d + 1)%Z)
    by (rewrite len_app; reflexivity).
  assert (Hd2 : len ((d ++ ["/"%char]) ++ b) = (len d + 1 + len b)%Z)
    by (rewrite len_app, Hd1; reflexivity).
  replace (len (d ++ "/"%char :: b) - 1 - 1 - len r + 1)%Z
    with (len (d ++ ["/"%char])) by lia.
  replace (len (d ++ "/"%char :: b) - 1 + 1)%Z
    with (len ((d ++ ["/"%char]) ++ b)) by lia.
  replace (d ++ "/"%char :: b) with ((d ++ ["/"%char]) ++ b)
    by (rewrite <- app_assoc; reflexivity).
  apply slice_suffix.
Qed.

(** The destination for a plain new name. *)
Lemma destination_parts (originalPath newBasename : jsstring)
      (options : RenameOptions) :
  plain_name newBasename = true ->
  (exists dir,
      snd (destination originalPath newBasename options) = dir ++ newBasename
      /\ (dir = [] \/ exists d, dir = d ++ ["/"%char]))
  /\ Path.basename (snd (destination originalPath newBasename options)) []
     = newBasename.
Proof.
  intros Hb. destruct (plain_name_parts newBasename Hb) as (Hne & Hs & _).
  assert (H : exists dir,
             snd (destination originalPath newBasename options)
             = dir ++ newBasename
             /\ (dir = [] \/ exists d, dir = d ++ ["/"%char])).
  { unfold destination. cbn [snd].
    set (destDir := match options.(targetDir) with
                    | Some (c :: d) => c :: d
                    | _ => Path.dirname originalPath
                    end).
    unfold Path.join2.
    destruct destDir as [|c0 d0]; destruct newBasename as [|cb b'] eqn:Eb;
      try contradiction; rewrite <- Eb in *.
    - apply (normalize_ends_plain [] newBasename Hb). auto.
    - replace ((c0 :: d0) ++ "/"%char :: newBasename)
        with (((c0 :: d0) ++ ["/"%char]) ++ newBasename)
        by (rewrite <- app_assoc; reflexivity).
      apply (normalize_ends_plain _ newBasename Hb). right. eauto. }
  split; [exact H|].
  destruct H as (dir & -> & [-> | [d ->]]).
  - apply basename_plain, Hs.
  - rewrite <- app_assoc. cbn [app]. apply basename_last; assumption.
Qed.

(** X27.  For a plain new name (one path segment, not [.] or [..]), the
    destination [renameFile] computes is a directory part followed by that
    name, and [path.basename] of the destination is the name: the file is
    never renamed to something else, wherever the target directory is. *)
Theorem destination_basename (originalPath newBasename : jsstring)
        (options : RenameOptions) :
  plain_name newBasename = true ->
  (exists dir,
      snd (destination originalPath newBasename options) = dir ++ newBasename
      /\ (dir = [] \/ exists d, dir = d ++ ["/"%char]))
  /\ Path.basename (snd (destination originalPath newBasename options)) []
     = newBasename.
Proof. apply destination_parts. Qed.

Lemma destination_basename_witness :
  (exists dir,
      snd (destination Demo.original Demo.newName (Demo.opts true None))
      = dir ++ Demo.newName
      /\ (dir = [] \/ exists d, dir = d ++ ["/"%char]))
  /\ Path.basename
       (snd (destination Demo.original Demo.newName (Demo.opts true None))) []
     = Demo.newName.
Proof.
  exact (destination_basename Demo.original Demo.newName
           (Demo.opts true None) eq_refl).
Defined.

(** ** The names the generator writes *)

Lemma forallb_firstn {A} (p : A -> bool) (n : nat) (l : list A) :
  forallb p l = true -> forallb p (firstn n l) = true.
Proof.
  revert n. induction l as [|x l IH]; intros [|n] H; try reflexivity.
  cbn [forallb] in H. apply andb_true_iff in H. destruct H as [Hx Hl].
  cbn [firstn forallb]. rewrite Hx, (IH n Hl). reflexivity.
Qed.

Lemma forallb_skipn {A} (p : A -> bool) (n : nat) (l : list A) :
  forallb p l = true -> forallb p (skipn n l) = true.
Proof.
  revert n. induction l as [|x l IH]; intros [|n] H; try reflexivity;
    [exact H|].
  cbn [forallb] in H. apply andb_true_iff in H. destruct H as [Hx Hl].
  cbn [skipn]. apply IH, Hl.
Qed.

Lemma forallb_slice (p : ascii -> bool) (s : jsstring) (a b : Z) :
  forallb p s = true -> forallb p (slice s a b) = true.
Proof. intros H. unfold slice. apply forallb_firstn, forallb_skipn, H. Qed.

(** [path.extname] and [path.basename] return parts of the path. *)
Lemma extname_keeps (p : ascii -> bool) (path : jsstring) :
  forallb p path = true -> forallb p (Path.extname path) = true.
Proof.
  intros H. unfold Path.extname.
  destruct (Path.extname_scan _ _ _ _ _ _) as [[[sd sp] e] pd].
  match goal with |- context [if ?c then _ else _] => destruct c end;
    [reflexivity | apply forallb_slice, H].
Qed.

Lemma basename_keeps (p : ascii -> bool) (path suffix : jsstring) :
  forallb p path = true -> forallb p (Path.basename path suffix) = true.
Proof.
  intros H. unfold Path.basename.
  destruct ((0 <? len suffix)%Z && (len suffix <=? len path)%Z).
  - destruct (str_eqb suffix path); [reflexivity|].
    destruct (Path.basename_suffix_scan _ _ _ _ _ _) as [[st e] f].
    apply forallb_slice, H.
  - destruct (Path.basename_scan _ _ _ _) as [st e].
    destruct (e =? -1)%Z; [reflexivity | apply forallb_slice, H].
Qed.

Lemma upper_not_slash (c : ascii) : is_slash (toUpperCase c) = is_slash c.
Proof. all_chars c. Qed.

Lemma capitalize_words_no_slash (s : jsstring) :
  forall b, no_slash (capitalize_words b s) = no_slash s.
Proof.
  induction s as [|c s IH]; intros b; [reflexivity|].
  cbn [capitalize_words]. unfold no_slash in *.
  destruct (chr_eqb c " "); cbn [forallb]; rewrite IH; [reflexivity|].
  destruct b; rewrite ?upper_not_slash; reflexivity.
Qed.

(** The title normalizer brings no separator into a title. *)
Lemma normalizeTitle_no_slash (raw : jsstring) :
  no_slash raw = true -> no_slash (titleCase (cleanTitle raw)) = true.
Proof.
  intros H. rewrite titleCase_words, capitalize_words_no_slash.
  unfold cleanTitle, trim, no_slash. rewrite forallb_rev.
  apply drop_while_keeps. rewrite forallb_rev. apply drop_while_keeps.
  repeat (apply replace_runs_keeps; [reflexivity|]). exact H.
Qed.

Lemma forallb_sub {A} (p : A -> bool) (m s : list A) :
  (forall x, In x m -> In x s) -> forallb p s = true -> forallb p m = true.
Proof.
  intros Hsub Hs. apply forallb_forall. intros x Hx.
  rewrite forallb_forall in Hs. apply Hs, Hsub, Hx.
Qed.

(** The text matched and the groups are parts of the input. *)
Lemma exec_parts (r : regex) (s : jsstring) (res : captures) :
  exec r s = Some res ->
  exists m caps,
    res = (0, m) :: caps /\ Matches r m [] caps
    /\ (forall x, In x m -> In x s).
Proof.
  induction s as [|c s IH]; cbn [exec].
  - destruct (match_here r []) eqn:E; [|discriminate]. intros [= <-].
    unfold match_here in E. apply matcher_sound in E.
    destruct E as (m & s' & caps' & Hs & M & [= <-]).
    exists m, caps'. repeat split; auto.
    intros x Hx. exact (in_prefix x _ m s' Hs Hx).
  - destruct (match_here r (c :: s)) eqn:E.
    + intros [= <-]. unfold match_here in E. apply matcher_sound in E.
      destruct E as (m & s' & caps' & Hs & M & [= <-]).
      exists m, caps'. repeat split; auto.
      intros x Hx. exact (in_prefix x _ m s' Hs Hx).
    + intros H. destruct (IH H) as (m & caps' & -> & M & Hsub).
      exists m, caps'. repeat split; auto. intros x Hx. right. auto.
Qed.

Lemma group_no_slash (r : regex) (s m1 : jsstring) (res : captures) (n : nat) :
  no_slash s = true -> exec r s = Some res ->
  In (n, m1) res -> no_slash m1 = true.
Proof.
  intros Hs E Hin.
  destruct (exec_parts r s res E) as (m & caps & -> & M & Hsub).
  assert (Hm : no_slash m = true) by exact (forallb_sub _ m s Hsub Hs).
  destruct Hin as [[= <- <-] | Hin]; [exact Hm|].
  destruct (matches_sub r m [] caps M n m1 Hin) as [[] | Hsub1].
  exact (forallb_sub _ m1 m Hsub1 Hm).
Qed.

Lemma plain_name_intro (g : jsstring) (c : ascii) :
  no_slash g = true -> In c g -> is_dot c = false -> plain_name g = true.
Proof.
  intros Hs Hin Hc. unfold plain_name. rewrite Hs.
  assert (H0 : str_eqb g [] = false)
    by (destruct g; [contradiction | reflexivity]).
  assert (H1 : str_eqb g (str ".") = false).
  { apply str_eqb_neq. intros ->. destruct Hin as [<- | []]. discriminate Hc. }
  assert (H2 : str_eqb g (str "..") = false).
  { apply str_eqb_neq. intros ->.
    destruct Hin as [<- | [<- | []]]; discriminate Hc. }
  rewrite H0, H1, H2. reflexivity.
Qed.

(** The name generated for a record parsed from a name without path
    separator is a plain file name. *)
Lemma generated_plain (name : jsstring) (r : ParsedMedia) :
  no_slash name = true ->
  parseFilename name = Some r ->
  plain_name (generateFilename r) = true.
Proof.
  intros Hname. unfold parseFilename.
  set (x := Path.extname name).
  set (base := Path.basename name x).
  assert (Hx : no_slash x = true) by (apply extname_keeps, Hname).
  assert (Hbase : no_slash base = true) by (apply basename_keeps, Hname).
  destruct (orelse (exec tvRegex1 base) (exec tvRegex2 base)) as [m|] eqn:Etv.
  - intros [= <-]. unfold generateFilename. cbn [type title season episode ext].
    assert (Hcaps : exists tail, (tail = tvTail1 \/ tail = tvTail2)
              /\ exec (title_prefix +++ sep_run +++ tail) base = Some m).
    { apply orelse_some in Etv. destruct Etv as [E | [_ E]];
        [exists tvTail1 | exists tvTail2]; auto. }
    destruct Hcaps as (tail & Htail & E).
    destruct (exec_parts _ _ _ E) as (m0 & caps & Em & M & _).
    destruct (tv_captures tail m0 caps Htail M)
      as (m1 & m2 & m3 & -> & H2 & L2 & H3 & L3).
    assert (H1 : no_slash m1 = true).
    { apply (group_no_slash _ base m1 m 1 Hbase E). rewrite Em. cbn. auto. }
    subst m. cbn [group Nat.eqb].
    destruct (parseInt10_two_digits m2 H2 L2) as (s & -> & Hs).
    destruct (parseInt10_two_digits m3 H3 ltac:(lia)) as (e & -> & He).
    destruct (pad2_nonneg s ltac:(lia)) as (Ps & _).
    destruct (pad2_nonneg e ltac:(lia)) as (Pe & _).
    apply (plain_name_intro _ " "%char).
    + rewrite !no_slash_app, (normalizeTitle_no_slash m1 H1), Hx.
      rewrite (class_no_slash is_digit _ digit_not_slash Ps).
      rewrite (class_no_slash is_digit _ digit_not_slash Pe). reflexivity.
    + apply in_or_app. right. left. reflexivity.
    + reflexivity.
  - destruct (exec movieRegex base) as [m|] eqn:Emovie.
    + intros [= <-]. unfold generateFilename.
      cbn [type title year ext].
      destruct (exec_parts _ _ _ Emovie) as (m0 & caps & Em & M & _).
      destruct (movie_captures m0 caps M)
        as (m1 & c1 & c2 & d3 & d4 & -> & Hc & H3 & H4).
      assert (H1 : no_slash m1 = true).
      { apply (group_no_slash _ base m1 m 1 Hbase Emovie). rewrite Em.
        cbn. auto. }
      subst m. cbn [group Nat.eqb].
      destruct (parseInt10_year c1 c2 d3 d4 Hc H3 H4) as (z & -> & Hz).
      cbn [truthy show_opt].
      replace (z =? 0)%Z with false by (symmetry; apply Z.eqb_neq; lia).
      cbn [negb].
      destruct (show_nonneg z ltac:(lia)) as (Pz & _).
      apply (plain_name_intro _ " "%char).
      * rewrite !no_slash_app, (normalizeTitle_no_slash m1 H1), Hx.
        rewrite (class_no_slash is_digit _ digit_not_slash Pz). reflexivity.
      * apply in_or_app. right. left. reflexivity.
      * reflexivity.
    + destruct (0 <? len (titleCase (cleanTitle base)))%Z eqn:El;
        [|discriminate].
      intros [= <-]. unfold generateFilename.
      cbn [type title year ext truthy].
      pose proof (normalizeTitle_clean base) as Hclean.
      unfold normalizeTitle in Hclean.
      destruct (titleCase (cleanTitle base)) as [|c t] eqn:Et;
        [discriminate El|].
      apply (plain_name_intro _ c).
      * rewrite no_slash_app, Hx, andb_true_r. rewrite <- Et.
        apply normalizeTitle_no_slash, Hbase.
      * left. reflexivity.
      * apply clean_parts in Hclean. destruct Hclean as (Hc & _).
        cbn [forallb] in Hc. apply andb_true_iff in Hc.
        apply title_char_not_dot, Hc.
Qed.

(** *** [path.basename] returns one segment *)

Lemma span_class (p : ascii -> bool) (l : jsstring) :
  exists a b, l = a ++ b /\ forallb p a = true
              /\ match b with c :: _ => p c = false | [] => True end.
Proof.
  induction l as [|c l IH].
  - exists [], []. auto.
  - destruct (p c) eqn:E.
    + destruct IH as (a & b & -> & Ha & Hb). exists (c :: a), b.
      cbn [forallb app]. rewrite E, Ha. auto.
    + exists [], (c :: l). auto.
Qed.

Lemma basename_scan_slashes (sl t : jsstring) :
  forallb is_slash sl = true ->
  forall i,
    Path.basename_scan (sl ++ t) i (-1) true
    = Path.basename_scan t (i - len sl) (-1) true.
Proof.
  induction sl as [|c sl IH]; intros H i.
  - cbn [app]. f_equal. unfold len. simpl. lia.
  - cbn [forallb] in H. apply andb_true_iff in H. destruct H as [Hc Hs].
    cbn [app Path.basename_scan]. rewrite Hc. cbn [negb].
    rewrite (IH Hs). f_equal. rewrite len_cons. lia.
Qed.

Lemma slice_middle (a b c : jsstring) :
  slice (a ++ b ++ c) (len a) (len a + len b) = b.
Proof.
  unfold slice.
  replace (Z.to_nat (len a + len b - len a)) with (length b)
    by (unfold len; lia).
  replace (Z.to_nat (len a)) with (length a) by (unfold len; lia).
  rewrite skipn_app, skipn_all, Nat.sub_diag. cbn [skipn app].
  rewrite firstn_app, firstn_all, Nat.sub_diag. cbn [firstn].
  apply app_nil_r.
Qed.

Lemma basename_no_slash (path : jsstring) :
  no_slash (Path.basename path []) = true.
Proof.
  unfold Path.basename. change (0 <? len [])%Z with false. cbn [andb].
  destruct (span_class is_slash (rev path)) as (sl & t & Er & Hsl & Ht).
  assert (Ep : path = rev t ++ rev sl).
  { rewrite <- rev_app_distr, <- Er, rev_involutive. reflexivity. }
  rewrite Er, (basename_scan_slashes sl t Hsl).
  destruct t as [|c t].
  - reflexivity.
  - destruct (span_class (fun x => negb (is_slash x)) t)
      as (seg & rest & -> & Hseg & Hrest).
    cbn [Path.basename_scan]. rewrite Ht. rewrite Z.eqb_refl.
    assert (Hlen : len path = (len rest + len seg + 1 + len sl)%Z).
    { rewrite Ep, len_app, !len_rev, len_cons, len_app. lia. }
    pose proof (len_nonneg rest). pose proof (len_nonneg seg).
    pose proof (len_nonneg sl).
    assert (Hcseg : no_slash (rev (c :: seg)) = true).
    { rewrite no_slash_rev. cbn [no_slash forallb]. rewrite Ht. exact Hseg. }
    destruct rest as [|s0 rest].
    + rewrite app_nil_r in *.
      rewrite basename_scan_done by (auto; lia).
      replace (len path - 1 - len sl + 1 =? -1)%Z with false
        by (symmetry; apply Z.eqb_neq; cbn [len length] in *; lia).
      replace (len path - 1 - len sl + 1)%Z with (len (rev (c :: seg)))
        by (rewrite len_rev, len_cons; change (len []) with 0%Z in Hlen; lia).
      rewrite Ep. rewrite slice_prefix. exact Hcseg.
    + apply negb_false_iff in Hrest.
      assert (Hs0 : s0 = "/"%char).
      { unfold is_slash in Hrest. apply chr_eqb_eq in Hrest. exact Hrest. }
      subst s0. pose proof (len_nonneg rest) as Hr0.
      rewrite len_cons in Hlen.
      rewrite (basename_scan_to_slash seg rest Hseg) by lia.
      replace (len path - 1 - len sl + 1 =? -1)%Z with false
        by (symmetry; apply Z.eqb_neq; lia).
      assert (Epath : path = rev ("/"%char :: rest) ++ rev (c :: seg) ++ rev sl).
      { rewrite Ep. rewrite <- !rev_app_distr. f_equal.
        rewrite <- !app_assoc. reflexivity. }
      replace (len path - 1 - len sl - 1 - len seg + 1)%Z
        with (len (rev ("/"%char :: rest)))
        by (rewrite len_rev, len_cons; lia).
      replace (len path - 1 - len sl + 1)%Z
        with (len (rev ("/"%char :: rest)) + len (rev (c :: seg)))%Z
        by (rewrite !len_rev, !len_cons; lia).
      rewrite Epath at 1. rewrite slice_middle. exact Hcseg.
Qed.

(** X28.  The name generated for a file is a plain file name: whatever
    the path of the file, if its basename parses, the generated name is one
    path segment, not empty, not [.] and not [..].  A generated name never
    holds a path separator. *)
Theorem generated_name_plain (file : jsstring) (r : ParsedMedia) :
  parseFilename (Path.basename file []) = Some r ->
  plain_name (generateFilename r) = true.
Proof. apply generated_plain, basename_no_slash. Qed.

Lemma generated_name_plain_witness :
  plain_name (generateFilename
                (mkParsed tv (str "Show") (Some (Num 1)) (Some (Num 2)) None
                          (str ".mkv") (str "show.s01e02")))
  = true.
Proof.
  exact (generated_name_plain Demo.original
           (mkParsed tv (str "Show") (Some (Num 1)) (Some (Num 2)) None
                     (str ".mkv") (str "show.s01e02")) eq_refl).
Defined.

(** X29.  From a file to its destination: for every file whose basename
    parses, and whatever the options, the destination that [renameFile]
    computes for the generated name has the generated name as its
    basename. *)
Theorem destination_of_generated (file : jsstring) (r : ParsedMedia)
        (options : RenameOptions) :
  parseFilename (Path.basename file []) = Some r ->
  Path.basename (snd (destination file (generateFilename r) options)) []
  = generateFilename r.
Proof.
  intros H. apply destination_parts.
  exact (generated_plain _ r (basename_no_slash file) H).
Qed.

Lemma destination_of_generated_witness :
  Path.basename
    (snd (destination Demo.original
            (generateFilename
               (mkParsed tv (str "Show") (Some (Num 1)) (Some (Num 2)) None
                         (str ".mkv") (str "show.s01e02")))
            (Demo.opts true None))) []
  = generateFilename
      (mkParsed tv (str "Show") (Some (Num 1)) (Some (Num 2)) None
                (str ".mkv") (str "show.s01e02")).
Proof.
  exact (destination_of_generated Demo.original
           (mkParsed tv (str "Show") (Some (Num 1)) (Some (Num 2)) None
                     (str ".mkv") (str "show.s01e02"))
           (Demo.opts true None) eq_refl).
Defined.
